(** * OpenSovix process manager: a shallow embedding of [process.c]

    The development follows the source file function by function.  The
    kernel keeps its state in file-level statics (the process table, the
    three queue heads, the pid counter, the scheduler cursor); here they
    are the fields of one record that every operation takes and returns.
    Process control blocks live in a store indexed by their address, so
    that the intrusive [prev]/[next] links, aliasing and dangling
    references are those of the C program.  Console output ([kprintf])
    is left out: no operation reads it back. *)

From Stdlib Require Import ZArith Lia Sorted.
From stdpp Require Import base option list gmap strings.

Local Open Scope Z_scope.

(** ** Machine integers *)

(** [u32] arithmetic wraps around. *)
Definition wrap32 (z : Z) : Z := z mod 2 ^ 32.

(** ** Data model *)

(** The enumeration named by [process_state_to_string]. *)
Inductive ProcessState : Set :=
| PROC_STATE_NEW
| PROC_STATE_READY
| PROC_STATE_RUNNING
| PROC_STATE_BLOCKED
| PROC_STATE_SUSPENDED
| PROC_STATE_ZOMBIE
| PROC_STATE_DEAD.

#[global] Instance ProcessState_eq_dec : EqDecision ProcessState.
Proof. solve_decision. Defined.

Inductive ErrorCode : Set := ERR_SUCCESS | ERR_INVALID_ARG.

#[global] Instance ErrorCode_eq_dec : EqDecision ErrorCode.
Proof. solve_decision. Defined.

(** The process control block.  Pointers are addresses, [0] is [NULL]. *)
Record Process : Set := mkProcess {
  pid : Z;
  name : string;
  state : ProcessState;
  priority : Z;
  entry_point : Z;
  stack_base : Z;
  stack_size : Z;
  heap_base : Z;
  heap_size : Z;
  registers : list Z;
  prev : Z;
  next : Z
}.

(** What [memset (proc, 0, sizeof (Process))] leaves behind.  The source
    assigns [state] right after, so the numbering of the enumeration does
    not matter. *)
Definition Process_zero : Process :=
  mkProcess 0 "" PROC_STATE_NEW 0 0 0 0 0 0 (replicate 16 0) 0 0.

Definition set_pid (v : Z) (p : Process) : Process :=
  mkProcess v (name p) (state p) (priority p) (entry_point p) (stack_base p)
    (stack_size p) (heap_base p) (heap_size p) (registers p) (prev p) (next p).
Definition set_name (v : string) (p : Process) : Process :=
  mkProcess (pid p) v (state p) (priority p) (entry_point p) (stack_base p)
    (stack_size p) (heap_base p) (heap_size p) (registers p) (prev p) (next p).
Definition set_state (v : ProcessState) (p : Process) : Process :=
  mkProcess (pid p) (name p) v (priority p) (entry_point p) (stack_base p)
    (stack_size p) (heap_base p) (heap_size p) (registers p) (prev p) (next p).
Definition set_priority (v : Z) (p : Process) : Process :=
  mkProcess (pid p) (name p) (state p) v (entry_point p) (stack_base p)
    (stack_size p) (heap_base p) (heap_size p) (registers p) (prev p) (next p).
Definition set_entry_point (v : Z) (p : Process) : Process :=
  mkProcess (pid p) (name p) (state p) (priority p) v (stack_base p)
    (stack_size p) (heap_base p) (heap_size p) (registers p) (prev p) (next p).
Definition set_stack_base (v : Z) (p : Process) : Process :=
  mkProcess (pid p) (name p) (state p) (priority p) (entry_point p) v
    (stack_size p) (heap_base p) (heap_size p) (registers p) (prev p) (next p).
Definition set_stack_size (v : Z) (p : Process) : Process :=
  mkProcess (pid p) (name p) (state p) (priority p) (entry_point p) (stack_base p)
    v (heap_base p) (heap_size p) (registers p) (prev p) (next p).
Definition set_heap_base (v : Z) (p : Process) : Process :=
  mkProcess (pid p) (name p) (state p) (priority p) (entry_point p) (stack_base p)
    (stack_size p) v (heap_size p) (registers p) (prev p) (next p).
Definition set_heap_size (v : Z) (p : Process) : Process :=
  mkProcess (pid p) (name p) (state p) (priority p) (entry_point p) (stack_base p)
    (stack_size p) (heap_base p) v (registers p) (prev p) (next p).
Definition set_registers (v : list Z) (p : Process) : Process :=
  mkProcess (pid p) (name p) (state p) (priority p) (entry_point p) (stack_base p)
    (stack_size p) (heap_base p) (heap_size p) v (prev p) (next p).
Definition set_prev (v : Z) (p : Process) : Process :=
  mkProcess (pid p) (name p) (state p) (priority p) (entry_point p) (stack_base p)
    (stack_size p) (heap_base p) (heap_size p) (registers p) v (next p).
Definition set_next (v : Z) (p : Process) : Process :=
  mkProcess (pid p) (name p) (state p) (priority p) (entry_point p) (stack_base p)
    (stack_size p) (heap_base p) (heap_size p) (registers p) (prev p) v.

(** The memory module is an external collaborator: the kernel only calls
    [memory_alloc] and [memory_free].  Every call is recorded. *)
Inductive MemEvent : Set :=
| Alloc (size result : Z)
| Free (addr : Z).


(** What [process.c] takes from headers that are not part of the sources
    at hand ([kernel.h], [process.h], [memory.h]): the table capacity, the
    [KB] unit, the size of a PCB and of its [name] array, and the
    allocator.  The allocator is any deterministic function of the
    history of calls; it answers [0] when it fails. *)
Record Platform : Type := mkPlatform {
  MAX_PROCESSES : nat;
  KB : Z;
  sizeof_Process : Z;
  sizeof_name : nat;
  memory_alloc_answer : list MemEvent -> Z -> Z
}.

(** The statics of [process.c], the [last] cursor local to
    [scheduler_select_next] (here [select_last]), the current-process
    reference, the live PCBs, the eight general registers of the CPU as
    [process_save_context] finds them, and the history of allocator
    calls. *)
Record Kernel : Type := mkKernel {
  process_table : list Z;
  process_count : Z;
  next_pid : Z;
  ready_queue : Z;
  blocked_queue : Z;
  zombie_queue : Z;
  select_last : Z;
  current_process : Z;
  pcbs : gmap Z Process;
  cpu : list Z;
  mem_log : list MemEvent
}.

Definition set_process_table (v : list Z) (k : Kernel) : Kernel :=
  mkKernel v (process_count k) (next_pid k) (ready_queue k) (blocked_queue k)
    (zombie_queue k) (select_last k) (current_process k) (pcbs k) (cpu k) (mem_log k).
Definition set_process_count (v : Z) (k : Kernel) : Kernel :=
  mkKernel (process_table k) v (next_pid k) (ready_queue k) (blocked_queue k)
    (zombie_queue k) (select_last k) (current_process k) (pcbs k) (cpu k) (mem_log k).
Definition set_next_pid (v : Z) (k : Kernel) : Kernel :=
  mkKernel (process_table k) (process_count k) v (ready_queue k) (blocked_queue k)
    (zombie_queue k) (select_last k) (current_process k) (pcbs k) (cpu k) (mem_log k).
Definition set_ready_queue (v : Z) (k : Kernel) : Kernel :=
  mkKernel (process_table k) (process_count k) (next_pid k) v (blocked_queue k)
    (zombie_queue k) (select_last k) (current_process k) (pcbs k) (cpu k) (mem_log k).
Definition set_blocked_queue (v : Z) (k : Kernel) : Kernel :=
  mkKernel (process_table k) (process_count k) (next_pid k) (ready_queue k) v
    (zombie_queue k) (select_last k) (current_process k) (pcbs k) (cpu k) (mem_log k).
Definition set_zombie_queue (v : Z) (k : Kernel) : Kernel :=
  mkKernel (process_table k) (process_count k) (next_pid k) (ready_queue k)
    (blocked_queue k) v (select_last k) (current_process k) (pcbs k) (cpu k) (mem_log k).
Definition set_select_last (v : Z) (k : Kernel) : Kernel :=
  mkKernel (process_table k) (process_count k) (next_pid k) (ready_queue k)
    (blocked_queue k) (zombie_queue k) v (current_process k) (pcbs k) (cpu k) (mem_log k).
Definition set_pcbs (v : gmap Z Process) (k : Kernel) : Kernel :=
  mkKernel (process_table k) (process_count k) (next_pid k) (ready_queue k)
    (blocked_queue k) (zombie_queue k) (select_last k) (current_process k) v (cpu k) (mem_log k).
Definition set_cpu (v : list Z) (k : Kernel) : Kernel :=
  mkKernel (process_table k) (process_count k) (next_pid k) (ready_queue k)
    (blocked_queue k) (zombie_queue k) (select_last k) (current_process k) (pcbs k) v (mem_log k).
Definition set_mem_log (v : list MemEvent) (k : Kernel) : Kernel :=
  mkKernel (process_table k) (process_count k) (next_pid k) (ready_queue k)
    (blocked_queue k) (zombie_queue k) (select_last k) (current_process k) (pcbs k) (cpu k) v.

(** ** Outcomes

    An operation either ends ([Ok]: it returns, or, for a context
    switch, it hands the processor to the destination), or leaves the
    behaviour the C standard defines: it reads or writes through a
    pointer that is not a live PCB, it walks a cyclic list for ever, or
    it calls [panic]. *)
Inductive Fault : Set :=
| BadPointer (addr : Z)
| Diverges
| Panic (msg : string).

Inductive Res (A : Type) : Type :=
| Ok (a : A)
| Err (f : Fault).
Arguments Ok {A} a.
Arguments Err {A} f.

#[global] Instance Res_ret : MRet Res := fun A a => Ok a.
#[global] Instance Res_bind : MBind Res := fun A B k m =>
  match m with Ok a => k a | Err f => Err f end.

(** [proc->field] as an rvalue. *)
Definition load (proc : Z) (k : Kernel) : Res Process :=
  match pcbs k !! proc with
  | Some r => Ok r
  | None => Err (BadPointer proc)
  end.

(** [proc->field = v]. *)
Definition poke (proc : Z) (f : Process -> Process) (k : Kernel) : Res Kernel :=
  match pcbs k !! proc with
  | Some r => Ok (set_pcbs (<[proc := f r]> (pcbs k)) k)
  | None => Err (BadPointer proc)
  end.

(** ** The memory module, as the kernel sees it *)

Definition memory_alloc (cfg : Platform) (size : Z) (k : Kernel) : Z * Kernel :=
  let a := memory_alloc_answer cfg (mem_log k) size in
  (a, set_mem_log (mem_log k ++ [Alloc size a]) k).

Definition memory_free (addr : Z) (k : Kernel) : Kernel :=
  set_mem_log (mem_log k ++ [Free addr]) k.

(** Releasing a PCB ends its life: the address is no longer a record. *)
Definition memory_free_pcb (proc : Z) (k : Kernel) : Kernel :=
  set_pcbs (delete proc (pcbs k)) (memory_free proc k).

(** ** Queues *)

Inductive Queue : Set := ReadyQ | BlockedQ | ZombieQ.

#[global] Instance Queue_eq_dec : EqDecision Queue.
Proof. solve_decision. Defined.

(** The [switch] that opens both queue functions. *)
Definition queue_of_state (s : ProcessState) : option Queue :=
  match s with
  | PROC_STATE_READY => Some ReadyQ
  | PROC_STATE_BLOCKED => Some BlockedQ
  | PROC_STATE_ZOMBIE => Some ZombieQ
  | _ => None
  end.

Definition queue_head (q : Queue) (k : Kernel) : Z :=
  match q with
  | ReadyQ => ready_queue k
  | BlockedQ => blocked_queue k
  | ZombieQ => zombie_queue k
  end.

Definition set_queue_head (q : Queue) (v : Z) (k : Kernel) : Kernel :=
  match q with
  | ReadyQ => set_ready_queue v k
  | BlockedQ => set_blocked_queue v k
  | ZombieQ => set_zombie_queue v k
  end.

Definition process_remove_from_queue (proc : Z) (s : ProcessState) (k : Kernel)
  : Res Kernel :=
  match queue_of_state s with
  | None => Ok k
  | Some q =>
    k ← (if queue_head q k =? proc then
           (* *queue = proc->next; if ( *queue) ( *queue)->prev = NULL; *)
           r ← load proc k;
           let k := set_queue_head q (next r) k in
           if queue_head q k =? 0 then Ok k
           else poke (queue_head q k) (set_prev 0) k
         else
           (* if (proc->prev) proc->prev->next = proc->next; *)
           r ← load proc k;
           k ← (if prev r =? 0 then Ok k
                else poke (prev r) (set_next (next r)) k);
           (* if (proc->next) proc->next->prev = proc->prev; *)
           r ← load proc k;
           if next r =? 0 then Ok k
           else poke (next r) (set_prev (prev r)) k);
    k ← poke proc (set_prev 0) k;
    poke proc (set_next 0) k
  end.

Definition process_add_to_queue (proc : Z) (s : ProcessState) (k : Kernel)
  : Res Kernel :=
  match queue_of_state s with
  | None => Ok k
  | Some q =>
    k ← poke proc (set_next (queue_head q k)) k;
    k ← poke proc (set_prev 0) k;
    k ← (if queue_head q k =? 0 then Ok k
         else poke (queue_head q k) (set_prev proc) k);
    Ok (set_queue_head q proc k)
  end.

Definition process_set_state (proc : Z) (new_state : ProcessState) (k : Kernel)
  : Res (ErrorCode * Kernel) :=
  if proc =? 0 then Ok (ERR_INVALID_ARG, k)
  else
    r ← load proc k;
    let old_state := state r in
    k ← poke proc (set_state new_state) k;
    k ← process_remove_from_queue proc old_state k;
    k ← process_add_to_queue proc new_state k;
    Ok (ERR_SUCCESS, k).

(** ** C strings *)

(** A [char*] argument is read up to its first NUL. *)
Fixpoint c_str (s : string) : string :=
  match s with
  | EmptyString => EmptyString
  | String c s' => if Ascii.eqb c Ascii.zero then EmptyString else String c (c_str s')
  end.

Fixpoint string_take (n : nat) (s : string) {struct s} : string :=
  match s, n with
  | String c s', S n' => String c (string_take n' s')
  | _, _ => EmptyString
  end.

(** [strncpy (dest, src, n)] into a zeroed [dest] that has room for one
    more byte: [dest] then reads as the first [n] characters of [src]. *)
Definition strncpy (src : string) (n : nat) : string := string_take n (c_str src).

(** [strcmp (a, b) == 0], for [a] already a stored C string. *)
Definition strcmp_eq (a b : string) : bool := String.eqb a (c_str b).

(** ** Process table *)

(** The loop [for (i...) if (!process_table[i]) { process_table[i] = proc; break; }]. *)
Fixpoint table_insert (proc : Z) (tbl : list Z) : list Z :=
  match tbl with
  | [] => []
  | slot :: rest => if slot =? 0 then proc :: rest else slot :: table_insert proc rest
  end.

(** The loop [for (i...) if (process_table[i] == curr) { process_table[i] = NULL; break; }]. *)
Fixpoint table_remove (curr : Z) (tbl : list Z) : list Z :=
  match tbl with
  | [] => []
  | slot :: rest => if slot =? curr then 0 :: rest else slot :: table_remove curr rest
  end.

(** The loop shared by [process_find] and [process_find_by_pid]: the first
    occupied slot whose record passes the test. *)
Fixpoint table_find (test : Process -> bool) (tbl : list Z) (k : Kernel) : Res Z :=
  match tbl with
  | [] => Ok 0
  | slot :: rest =>
    if slot =? 0 then table_find test rest k
    else
      r ← load slot k;
      if test r then Ok slot else table_find test rest k
  end.

Definition process_find (nm : string) (k : Kernel) : Res Z :=
  table_find (fun r => strcmp_eq (name r) nm) (process_table k) k.

Definition process_find_by_pid (p : Z) (k : Kernel) : Res Z :=
  table_find (fun r => pid r =? p) (process_table k) k.

Definition process_get_current (k : Kernel) : Z := current_process k.

Definition process_set_current (proc : Z) (k : Kernel) : Kernel :=
  mkKernel (process_table k) (process_count k) (next_pid k) (ready_queue k)
    (blocked_queue k) (zombie_queue k) (select_last k) proc (pcbs k) (cpu k) (mem_log k).

(** ** Creation *)

(** The two words pushed on the new stack (the exit handler and the
    initial flags) are writes to raw stack memory, which the store of
    PCBs does not hold; only the resulting stack pointer is kept. *)
Definition process_init_context (proc : Z) (k : Kernel) : Res Kernel :=
  r ← load proc k;
  let stack := wrap32 (stack_base r + stack_size r) in
  let stack := wrap32 (stack - 4) in
  let stack := wrap32 (stack - 4) in
  k ← poke proc (fun r => set_registers (<[0%nat := entry_point r]> (registers r)) r) k;
  k ← poke proc (fun r => set_registers (<[1%nat := stack]> (registers r)) r) k;
  (* for (i = 2; i < 16; i++) proc->registers[i] = 0; *)
  poke proc (fun r => set_registers (take 2 (registers r) ++ replicate 14 0) r) k.

Definition process_create (cfg : Platform) (nm : string) (prio entry : Z) (k : Kernel)
  : Res (Z * Kernel) :=
  if Z.of_nat (MAX_PROCESSES cfg) <=? process_count k then Ok (0, k)
  else
    let '(proc, k) := memory_alloc cfg (sizeof_Process cfg) k in
    if proc =? 0 then Ok (0, k)
    else
      (* memset (proc, 0, sizeof (Process)); *)
      let k := set_pcbs (<[proc := Process_zero]> (pcbs k)) k in
      (* proc->pid = next_pid++; *)
      k ← poke proc (set_pid (next_pid k)) k;
      let k := set_next_pid (wrap32 (next_pid k + 1)) k in
      k ← poke proc (set_name (strncpy nm (sizeof_name cfg - 1))) k;
      k ← poke proc (set_state PROC_STATE_NEW) k;
      k ← poke proc (set_priority prio) k;
      k ← poke proc (set_entry_point entry) k;
      k ← poke proc (set_stack_size (16 * KB cfg)) k;
      let '(stk, k) := memory_alloc cfg (16 * KB cfg) k in
      k ← poke proc (set_stack_base stk) k;
      if stk =? 0 then Ok (0, memory_free_pcb proc k)
      else
        k ← poke proc (set_heap_size (64 * KB cfg)) k;
        let '(hp, k) := memory_alloc cfg (64 * KB cfg) k in
        k ← poke proc (set_heap_base hp) k;
        if hp =? 0 then Ok (0, memory_free_pcb proc (memory_free stk k))
        else
          k ← process_init_context proc k;
          let k := set_process_table (table_insert proc (process_table k)) k in
          let k := set_process_count (wrap32 (process_count k + 1)) k in
          '(_, k) ← process_set_state proc PROC_STATE_READY k;
          Ok (proc, k).

(** The statics as the loader leaves them. *)
Definition boot (cfg : Platform) : Kernel :=
  mkKernel (replicate (MAX_PROCESSES cfg) 0) 0 1 0 0 0 0 0 ∅ (replicate 8 0) [].

Definition process_manager_init (cfg : Platform) (k : Kernel) : Res (ErrorCode * Kernel) :=
  let k := set_process_table (replicate (MAX_PROCESSES cfg) 0) k in
  let k := set_process_count 0 k in
  let k := set_next_pid 1 k in
  '(idle, k) ← process_create cfg "idle" 0 0 k;
  if idle =? 0 then Err (Panic "Failed to create idle process")
  else Ok (ERR_SUCCESS, k).

(** ** Reaping *)

(** One iteration of the [while (curr)] loop per unit of fuel.  Every
    iteration releases the record it visits, so a walk never needs more
    iterations than there are live records ([reap_loop_fuel] below). *)
Fixpoint reap_loop (fuel : nat) (curr : Z) (k : Kernel) : Res Kernel :=
  match fuel with
  | O => Err Diverges
  | S fuel =>
    if curr =? 0 then Ok k
    else
      r ← load curr k;
      let nxt := next r in
      let k := if stack_base r =? 0 then k else memory_free (stack_base r) k in
      let k := if heap_base r =? 0 then k else memory_free (heap_base r) k in
      let k := set_process_table (table_remove curr (process_table k)) k in
      let k := memory_free_pcb curr k in
      let k := set_process_count (wrap32 (process_count k - 1)) k in
      reap_loop fuel nxt k
  end.

Definition process_reap_zombies (k : Kernel) : Res Kernel :=
  k ← reap_loop (S (size (pcbs k))) (zombie_queue k) k;
  Ok (set_zombie_queue 0 k).

(** ** Scheduler *)

(** [while (next && next->state != PROC_STATE_READY) next = next->next;]
    The loop reads and never writes: a walk that has not ended after
    visiting as many records as are live is on a cycle and never ends
    ([skip_not_ready_fuel] below). *)
Fixpoint skip_not_ready (fuel : nat) (nxt : Z) (k : Kernel) : Res Z :=
  match fuel with
  | O => Err Diverges
  | S fuel =>
    if nxt =? 0 then Ok 0
    else
      r ← load nxt k;
      if decide (state r = PROC_STATE_READY) then Ok nxt
      else skip_not_ready fuel (next r) k
  end.

Definition scheduler_select_next (k : Kernel) : Res (Z * Kernel) :=
  if ready_queue k =? 0 then
    idle ← process_find "idle" k; Ok (idle, k)
  else
    let k := if select_last k =? 0 then set_select_last (ready_queue k) k else k in
    r ← load (select_last k) k;
    nxt ← skip_not_ready (S (size (pcbs k))) (next r) k;
    nxt ← (if nxt =? 0 then skip_not_ready (S (size (pcbs k))) (ready_queue k) k
           else Ok nxt);
    if nxt =? 0 then
      idle ← process_find "idle" k; Ok (idle, k)
    else Ok (nxt, set_select_last nxt k).

(** ** Context switch *)

(** The eight [movl]s of [process_save_context]: the register file goes
    into the first eight words of the saved context. *)
Definition process_save_context (proc : Z) (k : Kernel) : Res Kernel :=
  poke proc (fun r => set_registers (cpu k ++ drop (length (cpu k)) (registers r)) r) k.

(** [process_restore_context] is inline assembly and does not come back
    to its caller: it ends in [iret], which passes control to the
    destination.  Its [movl]s read the saved context through a register
    that they overwrite on the way, the last of them replaces [esp], and
    the statement names none of the registers it writes, so the source
    does not fix what the destination finds in the register file.  The
    model keeps what the source does fix: the record is read, and no
    static and no record is written.  [Ok k] is the kernel at the
    [iret]. *)
Definition process_restore_context (proc : Z) (k : Kernel) : Res Kernel :=
  _ ← load proc k;
  Ok k.

(** Without a destination [process_switch] returns at once.  With one it
    ends inside [process_restore_context], at the [iret]: the call
    [process_set_current (to)] that follows in the source is not reached,
    and [current_process] keeps its value.  [Ok k] is then the kernel as
    the destination finds it. *)
Definition process_switch (from to : Z) (k : Kernel) : Res Kernel :=
  if to =? 0 then Ok k
  else
    k ← (if from =? 0 then Ok k
         else
           k ← process_save_context from k;
           poke from (set_state PROC_STATE_READY) k);
    k ← poke to (set_state PROC_STATE_RUNNING) k;
    process_restore_context to k.

(** ** Diagnostics *)

(** The [default] branch of the source answers for values outside the
    enumeration; a [ProcessState] has none. *)
Definition process_state_to_string (s : ProcessState) : string :=
  match s with
  | PROC_STATE_NEW => "NEW"
  | PROC_STATE_READY => "READY"
  | PROC_STATE_RUNNING => "RUNNING"
  | PROC_STATE_BLOCKED => "BLOCKED"
  | PROC_STATE_SUSPENDED => "SUSPENDED"
  | PROC_STATE_ZOMBIE => "ZOMBIE"
  | PROC_STATE_DEAD => "DEAD"
  end.

(** [kprintf] is not in the sources.  Its [%d] is read as C's: the
    argument, here always a [u32], is taken as a 32-bit [int], so that
    values from [2^31] on show as negative numbers. *)
Definition kprintf_d (v : Z) : Z := if v <? 2 ^ 31 then v else v - 2 ^ 32.

(** What one line of [process_list_all] shows, column by column:
    ["%-5d %-9s %-3d %s"]. *)
Record ListRow : Set := mkListRow {
  row_pid : Z;
  row_state : string;
  row_priority : Z;
  row_name : string
}.

#[global] Instance ListRow_eq_dec : EqDecision ListRow.
Proof. solve_decision. Defined.

Definition row_of (r : Process) : ListRow :=
  mkListRow (kprintf_d (pid r)) (process_state_to_string (state r))
    (kprintf_d (priority r)) (name r).

(** The loop [for (i...) { proc = process_table[i]; if (proc) kprintf (...); }]. *)
Fixpoint list_rows (tbl : list Z) (k : Kernel) : Res (list ListRow) :=
  match tbl with
  | [] => Ok []
  | slot :: rest =>
    if slot =? 0 then list_rows rest k
    else
      r ← load slot k;
      rows ← list_rows rest k;
      Ok (row_of r :: rows)
  end.

(** The listing: the count shown in the header, then the rows. *)
Definition process_list_all (k : Kernel) : Res (Z * list ListRow) :=
  rows ← list_rows (process_table k) k;
  Ok (kprintf_d (process_count k), rows).

(** ** Exit *)

Section Collaborators.

(** [scheduler_yield] is called by [process.c] and not defined there.  It
    is taken as it comes: any function of the kernel state that returns
    or faults. *)
Variable scheduler_yield : Kernel → Res Kernel.

(** The handler ends in [for (;;);]: once there is a current process it
    does not return. *)
Definition process_exit_handler (k : Kernel) : Res Kernel :=
  let current := process_get_current k in
  if current =? 0 then Ok k
  else
    '(_, k) ← process_set_state current PROC_STATE_ZOMBIE k;
    _ ← scheduler_yield k;
    Err Diverges.

End Collaborators.

(** ** Runs of the core *)

(** The operations the rest of the kernel invokes on the process manager. *)
Inductive Op : Type :=
| OpCreate (nm : string) (prio entry : Z)
| OpSetState (proc : Z) (s : ProcessState)
| OpSelectNext
| OpSwitch (from to : Z)
| OpReap.

(** One operation; a successful creation reports the pid it assigned. *)
Definition step (cfg : Platform) (op : Op) (k : Kernel) : Res (option Z * Kernel) :=
  match op with
  | OpCreate nm prio entry =>
    '(proc, k) ← process_create cfg nm prio entry k;
    if proc =? 0 then Ok (None, k)
    else r ← load proc k; Ok (Some (pid r), k)
  | OpSetState proc s => '(_, k) ← process_set_state proc s k; Ok (None, k)
  | OpSelectNext => '(_, k) ← scheduler_select_next k; Ok (None, k)
  | OpSwitch from to => k ← process_switch from to k; Ok (None, k)
  | OpReap => k ← process_reap_zombies k; Ok (None, k)
  end.

(** A sequence of operations; the pids assigned, in creation order. *)
Fixpoint run (cfg : Platform) (ops : list Op) (k : Kernel) : Res (list Z * Kernel) :=
  match ops with
  | [] => Ok ([], k)
  | op :: ops =>
    '(o, k) ← step cfg op k;
    '(pids, k) ← run cfg ops k;
    Ok (from_option (fun p => [p]) [] o ++ pids, k)
  end.

Definition is_create (op : Op) : bool :=
  match op with OpCreate _ _ _ => true | _ => false end.

(** [n] consecutive calls of [scheduler_select_next] and what they return. *)
Fixpoint select_run (n : nat) (k : Kernel) : Res (list Z * Kernel) :=
  match n with
  | O => Ok ([], k)
  | S n =>
    '(p, k) ← scheduler_select_next k;
    '(ps, k) ← select_run n k;
    Ok (p :: ps, k)
  end.

(** ** Shape of the heap *)

Definition live (k : Kernel) (p : Z) : Prop := is_Some (pcbs k !! p).
Definition null_or_live (k : Kernel) (p : Z) : Prop := p = 0 ∨ live k p.

#[global] Instance live_dec k p : Decision (live k p).
Proof. unfold live. apply _. Defined.

#[global] Instance null_or_live_dec k p : Decision (null_or_live k p).
Proof. unfold null_or_live. apply _. Defined.

Definition closed_rec (k : Kernel) (r : Process) : Prop :=
  null_or_live k (prev r) ∧ null_or_live k (next r).

(** No queue head and no link of a live record dangles. *)
Definition links_closed (k : Kernel) : Prop :=
  null_or_live k (ready_queue k) ∧ null_or_live k (blocked_queue k) ∧
  null_or_live k (zombie_queue k) ∧
  map_Forall (λ _ r, closed_rec k r) (pcbs k).

#[global] Instance links_closed_dec k : Decision (links_closed k).
Proof. unfold links_closed, closed_rec, null_or_live, live. apply _. Defined.

(** What a sequence of field writes keeps: which addresses are records,
    and the [state] field of each. *)
Definition evolves (k k' : Kernel) : Prop :=
  (∀ x, live k' x ↔ live k x) ∧
  (∀ x, state <$> (pcbs k' !! x) = state <$> (pcbs k !! x)).

(** [chain m p l]: following [next] from [p] visits exactly the records
    [l] and then reaches [NULL]. *)
Fixpoint chain (m : gmap Z Process) (p : Z) (l : list Z) : Prop :=
  match l with
  | [] => p = 0
  | x :: l' =>
    p = x ∧ x ≠ 0 ∧ from_option (λ r, chain m (next r) l') False (m !! x)
  end.

#[global] Instance chain_dec m p l : Decision (chain m p l).
Proof.
  revert p. induction l as [|x l IH]; intros p; simpl; [apply _|].
  destruct (m !! x); simpl; apply _.
Defined.

(** The members of a queue, read off the heap: follow [next] from [p]
    for at most [fuel] records. *)
Fixpoint walk (fuel : nat) (m : gmap Z Process) (p : Z) : list Z :=
  match fuel with
  | O => []
  | S fuel =>
    if p =? 0 then []
    else match m !! p with
         | Some r => p :: walk fuel m (next r)
         | None => []
         end
  end.

Definition queue_members (q : Queue) (k : Kernel) : list Z :=
  walk (size (pcbs k)) (pcbs k) (queue_head q k).

(** The state-to-queue mapping of the data model: a record is in the
    ready queue iff READY, in the blocked queue iff BLOCKED, in the zombie
    queue iff ZOMBIE, and in none otherwise. *)
Definition queue_consistent (k : Kernel) : Prop :=
  map_Forall (λ p r,
    (p ∈ queue_members ReadyQ k ↔ state r = PROC_STATE_READY) ∧
    (p ∈ queue_members BlockedQ k ↔ state r = PROC_STATE_BLOCKED) ∧
    (p ∈ queue_members ZombieQ k ↔ state r = PROC_STATE_ZOMBIE)) (pcbs k).

#[global] Instance queue_consistent_dec k : Decision (queue_consistent k).
Proof. unfold queue_consistent. apply _. Defined.

Definition state_at (m : gmap Z Process) (p : Z) : option ProcessState :=
  state <$> (m !! p).

Definition all_ready (m : gmap Z Process) (l : list Z) : Prop :=
  Forall (λ p, state_at m p = Some PROC_STATE_READY) l.

Definition none_ready (m : gmap Z Process) (l : list Z) : Prop :=
  Forall (λ p, is_Some (m !! p) ∧ state_at m p ≠ Some PROC_STATE_READY) l.

(** Where the scheduler's cursor may point when the ready queue is [q]:
    nowhere yet, at a member of the queue, or at a record that has left
    the queue and whose successors are not READY. *)
Definition cursor_ok (k : Kernel) (q : list Z) : Prop :=
  select_last k = 0 ∨ select_last k ∈ q ∨
  ∃ l, chain (pcbs k) (select_last k) l ∧ none_ready (pcbs k) (tail l).

(** The idle process: the record [process_manager_init] puts in the
    first slot of the table. *)
Definition idle_is (k : Kernel) (idle : Z) : Prop :=
  idle ≠ 0 ∧ process_table k !! 0%nat = Some idle ∧
  name <$> (pcbs k !! idle) = Some "idle".

#[global] Instance idle_is_dec k idle : Decision (idle_is k idle).
Proof. unfold idle_is. apply _. Defined.

(** ** Process table well-formedness *)

Definition occupied (tbl : list Z) : list Z := filter (λ p, p ≠ 0) tbl.

(** Occupied slots hold distinct live records with distinct pids. *)
Definition table_ok (k : Kernel) : Prop :=
  NoDup (occupied (process_table k)) ∧
  Forall (live k) (occupied (process_table k)) ∧
  Forall (λ p, Forall (λ p', pid <$> (pcbs k !! p) = pid <$> (pcbs k !! p') → p = p')
                 (occupied (process_table k)))
    (occupied (process_table k)).

#[global] Instance table_ok_dec k : Decision (table_ok k).
Proof. unfold table_ok. apply _. Defined.

(** What [process_reap_zombies] hands back to the memory module for the
    records [zs]. *)
Definition released (m : gmap Z Process) (zs : list Z) : list MemEvent :=
  zs ≫= λ z,
    match m !! z with
    | Some r =>
      (if stack_base r =? 0 then [] else [Free (stack_base r)]) ++
      (if heap_base r =? 0 then [] else [Free (heap_base r)]) ++ [Free z]
    | None => []
    end.


(** Every record of [zs] has a stack and a heap, as every record that
    [process_create] returned has. *)
Definition regions_allocated (m : gmap Z Process) (zs : list Z) : Prop :=
  Forall (λ z, from_option (λ r, stack_base r ≠ 0 ∧ heap_base r ≠ 0) False (m !! z)) zs.

#[global] Instance regions_allocated_dec m zs : Decision (regions_allocated m zs).
Proof.
  unfold regions_allocated. apply Forall_dec. intros z.
  destruct (m !! z); simpl; apply _.
Defined.

(** The kernel after the reaper has gone through the records [zs]. *)
Definition reaped (k : Kernel) (zs : list Z) : Kernel :=
  mkKernel (foldl (λ tbl z, table_remove z tbl) (process_table k) zs)
    (foldl (λ c _, wrap32 (c - 1)) (process_count k) zs)
    (next_pid k) (ready_queue k) (blocked_queue k) (zombie_queue k)
    (select_last k) (current_process k)
    (foldl (λ m z, delete z m) (pcbs k) zs) (cpu k)
    (mem_log k ++ released (pcbs k) zs).

(** ** A concrete platform *)

(** A bump allocator that never fails and never reuses an address. *)
Definition bump_alloc (log : list MemEvent) (size : Z) : Z :=
  4096 + foldr (fun e acc => match e with Alloc s _ => s + acc | Free _ => acc end) 0 log.

Definition demo : Platform := mkPlatform 8 1024 256 32 bump_alloc.

(** The same platform with an allocator that runs dry after [n] calls. *)
Definition dry_after (n : nat) (log : list MemEvent) (size : Z) : Z :=
  if decide (length log < n)%nat then bump_alloc log size else 0.

Definition demo_dry (n : nat) : Platform := mkPlatform 8 1024 256 32 (dry_after n).

(** The state [process_manager_init] leaves on a platform, and the state
    a sequence of operations leads to. *)
Definition after_init (cfg : Platform) : Kernel :=
  match process_manager_init cfg (boot cfg) with
  | Ok (_, k) => k
  | Err _ => boot cfg
  end.

Definition after (cfg : Platform) (ops : list Op) (k : Kernel) : Kernel :=
  match run cfg ops k with
  | Ok (_, k') => k'
  | Err _ => k
  end.

(** On [demo] the PCBs of idle, A and B are allocated at these addresses. *)
Definition demo_idle : Z := 4096.
Definition demo_A : Z := 86272.
Definition demo_B : Z := 168448.

(** The scenario of the specification: idle, then A, then B. *)
Definition demo_k1 : Kernel := after_init demo.
Definition demo_k3 : Kernel :=
  after demo [OpCreate "A" 1 100; OpCreate "B" 1 200] demo_k1.

(** The scheduler loop dispatches A for the first time. *)
Definition dispatch_A : list Op := [OpSelectNext; OpSwitch 0 demo_A].

(** A runs to its end: the exit handler marks it ZOMBIE, and the
    scheduler selects the next process before switching away from A. *)
Definition exit_A : list Op :=
  dispatch_A ++ [OpSetState demo_A PROC_STATE_ZOMBIE; OpSelectNext].

(** ** The effect of a successful creation, spelled out *)

(** The record [process_create] has built when it reaches
    [process_set_state]: still NEW and unlinked. *)
Definition new_pcb (cfg : Platform) (nm : string) (prio entry pid_ stk hp : Z) : Process :=
  mkProcess pid_ (strncpy nm (sizeof_name cfg - 1)) PROC_STATE_NEW prio entry
    stk (16 * KB cfg) hp (64 * KB cfg)
    ([entry; wrap32 (wrap32 (wrap32 (stk + 16 * KB cfg) - 4) - 4)] ++ replicate 14 0)
    0 0.

(** The kernel at that point: the record is in the table and counted. *)
Definition created (cfg : Platform) (nm : string) (prio entry : Z) (k : Kernel)
    (proc stk hp : Z) : Kernel :=
  mkKernel (table_insert proc (process_table k)) (wrap32 (process_count k + 1))
    (wrap32 (next_pid k + 1)) (ready_queue k) (blocked_queue k) (zombie_queue k)
    (select_last k) (current_process k)
    (<[proc := new_pcb cfg nm prio entry (next_pid k) stk hp]> (pcbs k)) (cpu k)
    (mem_log k ++ [Alloc (sizeof_Process cfg) proc; Alloc (16 * KB cfg) stk;
                   Alloc (64 * KB cfg) hp]).

(** The three answers of the allocator during one creation. *)
Definition pcb_answer (cfg : Platform) (k : Kernel) : Z :=
  memory_alloc_answer cfg (mem_log k) (sizeof_Process cfg).
Definition stack_answer (cfg : Platform) (k : Kernel) : Z :=
  memory_alloc_answer cfg
    (mem_log k ++ [Alloc (sizeof_Process cfg) (pcb_answer cfg k)]) (16 * KB cfg).
Definition heap_answer (cfg : Platform) (k : Kernel) : Z :=
  memory_alloc_answer cfg
    ((mem_log k ++ [Alloc (sizeof_Process cfg) (pcb_answer cfg k)])
       ++ [Alloc (16 * KB cfg) (stack_answer cfg k)]) (64 * KB cfg).

(** The kernel after each of the three failures. *)
Definition refused_pcb (cfg : Platform) (k : Kernel) : Kernel :=
  set_mem_log (mem_log k ++ [Alloc (sizeof_Process cfg) 0]) k.

Definition refused_stack (cfg : Platform) (k : Kernel) : Kernel :=
  mkKernel (process_table k) (process_count k) (wrap32 (next_pid k + 1))
    (ready_queue k) (blocked_queue k) (zombie_queue k) (select_last k)
    (current_process k) (delete (pcb_answer cfg k) (pcbs k)) (cpu k)
    (mem_log k ++ [Alloc (sizeof_Process cfg) (pcb_answer cfg k);
                   Alloc (16 * KB cfg) 0; Free (pcb_answer cfg k)]).

Definition refused_heap (cfg : Platform) (k : Kernel) : Kernel :=
  mkKernel (process_table k) (process_count k) (wrap32 (next_pid k + 1))
    (ready_queue k) (blocked_queue k) (zombie_queue k) (select_last k)
    (current_process k) (delete (pcb_answer cfg k) (pcbs k)) (cpu k)
    (mem_log k ++ [Alloc (sizeof_Process cfg) (pcb_answer cfg k);
                   Alloc (16 * KB cfg) (stack_answer cfg k);
                   Alloc (64 * KB cfg) 0;
                   Free (stack_answer cfg k); Free (pcb_answer cfg k)]).

(** The PCB [process_manager_init] allocates for the idle process. *)
Definition idle_of (cfg : Platform) : Z := pcb_answer cfg (boot cfg).

(** The scenario of the specification as it is worded: after idle, A
    and B are created, the calls of [scheduler_select_next] return A, B,
    A, B, ... *)
Definition alternates_A_B (cfg : Platform) : Prop :=
  ∀ e k1 ea pa k2 eb pb k3 n rs k',
    process_manager_init cfg (boot cfg) = Ok (e, k1) →
    process_create cfg "A" 1 ea k1 = Ok (pa, k2) →
    process_create cfg "B" 1 eb k2 = Ok (pb, k3) →
    select_run n k3 = Ok (rs, k') →
    ∀ i, (i < n)%nat → rs !! i = Some (if Nat.even i then pa else pb).

(** What the scheduler does instead: A, idle, B, A, idle, B, ... *)
Definition rotation_A_idle_B (pa pidle pb : Z) (i : nat) : Z :=
  match (i mod 3)%nat with
  | 0%nat => pa
  | 1%nat => pidle
  | _ => pb
  end.

(** A and B have exited and wait in the zombie queue. *)
Definition demo_zombies : Kernel :=
  after demo [OpSetState demo_A PROC_STATE_ZOMBIE; OpSetState demo_B PROC_STATE_ZOMBIE]
    demo_k3.

(** Idle alone, taken out of the ready queue. *)
Definition demo_idle_running : Kernel :=
  after demo [OpSetState demo_idle PROC_STATE_RUNNING] demo_k1.

(** ** Pids along a run *)

Definition creations (ops : list Op) : nat := length (filter (λ op, is_create op) ops).

(** Writes that leave the pid counter and every record's pid alone. *)
Definition pid_frame (k k' : Kernel) : Prop :=
  next_pid k' = next_pid k ∧
  ∀ x, pid <$> (pcbs k' !! x) = pid <$> (pcbs k !! x).

(** The pid property as the specification words it: on every run of the initialised
    manager the pids of the successful creations increase strictly. *)
Definition pids_always_increase (cfg : Platform) : Prop :=
  ∀ e k1 ops pids k',
    process_manager_init cfg (boot cfg) = Ok (e, k1) →
    run cfg ops k1 = Ok (pids, k') →
    StronglySorted Z.lt pids.

(** A platform on which the pid counter is driven round: after idle,
    the allocator refuses every stack until [2^32 - 3] creations have
    failed, each of which has consumed a pid. *)
Definition burn_count : nat := Z.to_nat (2 ^ 32 - 3).

Definition burn_end : Z := 3 * (2 ^ 32 - 3) + 4.

Definition wrap_alloc (log : list MemEvent) (size : Z) : Z :=
  let n := Z.of_nat (length log) in
  if size =? 16384 then
    if (4 <=? n) && (n <? burn_end) then 0
    else if n <? 4 then 1048576 else if n <? burn_end + 3 then 1179648 else 1310720
  else if size =? 65536 then
    if n <? 4 then 1064960 else if n <? burn_end + 3 then 1196032 else 1327104
  else
    if n =? 0 then 4096
    else if n <? burn_end - 1 then 8192
    else if n =? burn_end - 1 then 12288 else 16384.

Definition wrap_cfg : Platform := mkPlatform 8 1024 256 32 wrap_alloc.

Definition wrap_ops : list Op :=
  replicate burn_count (OpCreate "X" 1 0) ++ [OpCreate "A" 1 100; OpCreate "B" 1 200].

(** What the [i]-th refused creation finds on [wrap_cfg]: idle alone,
    the counter at [2 + i], and three calls of the allocator per
    creation so far. *)
Definition burn_inv (i : Z) (k : Kernel) : Prop :=
  process_count k = 1 ∧ next_pid k = 2 + i ∧
  Z.of_nat (length (mem_log k)) = 3 + 3 * i ∧
  ready_queue k = 4096 ∧
  (∀ x, is_Some (pcbs k !! x) ↔ x = 4096).

(** ** Doubly-linked queues *)

(** [dseg m pv h l e]: from [h], the records [l] are linked forward up to
    [e] and backward down to [pv]. *)
Fixpoint dseg (m : gmap Z Process) (pv h : Z) (l : list Z) (e : Z) : Prop :=
  match l with
  | [] => h = e
  | x :: l' =>
    h = x ∧ x ≠ 0 ∧
    from_option (λ r, prev r = pv ∧ dseg m x (next r) l' e) False (m !! x)
  end.

#[global] Instance dseg_dec m pv h l e : Decision (dseg m pv h l e).
Proof.
  revert pv h. induction l as [|x l IH]; intros pv h; simpl; [apply _|].
  destruct (m !! x); simpl; apply _.
Defined.

(** A queue: a doubly-linked list from its head to [NULL], whose first
    record has no predecessor. *)
Definition dlist (m : gmap Z Process) (h : Z) (l : list Z) : Prop := dseg m 0 h l 0.

(** The kernel is well formed for the queue contents [L]: each queue is
    the doubly-linked list [L q], and a record is in [L q] exactly when
    its state maps to [q]. *)
Definition wf (k : Kernel) (L : Queue → list Z) : Prop :=
  (dlist (pcbs k) (ready_queue k) (L ReadyQ) ∧
   dlist (pcbs k) (blocked_queue k) (L BlockedQ) ∧
   dlist (pcbs k) (zombie_queue k) (L ZombieQ)) ∧
  map_Forall (λ p r,
    (p ∈ L ReadyQ ↔ queue_of_state (state r) = Some ReadyQ) ∧
    (p ∈ L BlockedQ ↔ queue_of_state (state r) = Some BlockedQ) ∧
    (p ∈ L ZombieQ ↔ queue_of_state (state r) = Some ZombieQ)) (pcbs k).

#[global] Instance wf_dec k L : Decision (wf k L).
Proof. unfold wf, dlist. apply _. Defined.

(** The queue contents after [proc] has moved to the queue of state [s]. *)
Definition requeue (proc : Z) (s : ProcessState) (L : Queue → list Z) : Queue → list Z :=
  λ q, (if decide (queue_of_state s = Some q) then [proc] else [])
       ++ filter (λ x, x ≠ proc) (L q).

(** The queue contents after a creation, and after a reap. *)
Definition enqueue_ready (proc : Z) (L : Queue → list Z) : Queue → list Z :=
  λ q, (if decide (q = ReadyQ) then [proc] else []) ++ L q.

Definition drop_zombies (L : Queue → list Z) : Queue → list Z :=
  λ q, if decide (q = ZombieQ) then [] else L q.

Definition last_or (pv : Z) (l : list Z) : Z := default pv (last l).

(** The heap after [process_remove_from_queue] has unlinked [proc],
    whose links were [pd] and [nx]: the neighbours are spliced, the
    links of [proc] are cleared. *)
Definition unlinked (m : gmap Z Process) (proc pd nx : Z) : gmap Z Process :=
  alter (set_next 0) proc
    (alter (set_prev 0) proc
       ((if nx =? 0 then id else alter (set_prev pd) nx)
          ((if pd =? 0 then id else alter (set_next nx) pd) m))).

(** The heap after [process_add_to_queue] has linked [proc] in front of
    the head [hd]. *)
Definition linked (m : gmap Z Process) (proc hd : Z) : gmap Z Process :=
  (if hd =? 0 then id else alter (set_prev proc) hd)
    (alter (set_prev 0) proc (alter (set_next hd) proc m)).

(** ** Runs that stay within the contract of the core *)

(** What the callers owe an operation: the allocator hands out an address
    that is no live record, [process_set_state] gets a null or live
    record; [process_switch] is left out. *)
Definition op_ok (cfg : Platform) (op : Op) (k : Kernel) : Prop :=
  match op with
  | OpCreate _ _ _ => pcbs k !! pcb_answer cfg k = None
  | OpSetState proc _ => null_or_live k proc
  | OpSwitch _ _ => False
  | _ => True
  end.

Fixpoint run_ok (cfg : Platform) (ops : list Op) (k : Kernel) : Prop :=
  match ops with
  | [] => True
  | op :: ops =>
    op_ok cfg op k ∧
    match step cfg op k with
    | Ok (_, k') => run_ok cfg ops k'
    | Err _ => False
    end
  end.

(** ** The loops end when they can *)

(** [skip_path m p l e]: from [p] the scheduler's loop steps over the
    records [l], none of them READY, and arrives at [e]. *)
Fixpoint skip_path (m : gmap Z Process) (p : Z) (l : list Z) (e : Z) : Prop :=
  match l with
  | [] => p = e
  | x :: l' =>
    p = x ∧ x ≠ 0 ∧
    from_option (λ r, state r ≠ PROC_STATE_READY ∧ skip_path m (next r) l' e)
      False (m !! x)
  end.

(** Where the loop stops: at [NULL], at a READY record, or at a pointer
    that is no record. *)
Definition skip_stops (m : gmap Z Process) (e : Z) : Prop :=
  e = 0 ∨ from_option (λ r, state r = PROC_STATE_READY) True (m !! e).

(** ** Lookups in the process table *)

(** The slots before index [i] hold no record that passes [test]. *)
Definition none_before (test : Process → bool) (k : Kernel) (tbl : list Z) (i : nat) : Prop :=
  ∀ j y r, (j < i)%nat → tbl !! j = Some y → y ≠ 0 → pcbs k !! y = Some r → test r = false.

(** What a linear search of the table for [test] may answer: [NULL] when
    no occupied slot passes, else the first slot that does. *)
Definition first_match (test : Process → bool) (k : Kernel) (tbl : list Z) (x : Z) : Prop :=
  (x = 0 ∧ ∀ y r, y ∈ occupied tbl → pcbs k !! y = Some r → test r = false) ∨
  (x ≠ 0 ∧ ∃ i r, tbl !! i = Some x ∧ pcbs k !! x = Some r ∧ test r = true ∧
               none_before test k tbl i).

(** ** What the queue operations leave alone *)

(** The fields of a record other than [state], [prev] and [next]. *)
Definition payload (r : Process) : Z * string * Z * Z * Z * Z * Z * Z * list Z :=
  (pid r, name r, priority r, entry_point r, stack_base r, stack_size r,
   heap_base r, heap_size r, registers r).

(** [k'] differs from [k] at most in the queue heads and in the [state],
    [prev] and [next] fields of its records. *)
Definition queues_only (k k' : Kernel) : Prop :=
  process_table k' = process_table k ∧ process_count k' = process_count k ∧
  next_pid k' = next_pid k ∧ select_last k' = select_last k ∧
  current_process k' = current_process k ∧ cpu k' = cpu k ∧
  mem_log k' = mem_log k ∧
  ∀ x, payload <$> (pcbs k' !! x) = payload <$> (pcbs k !! x).

(** ** The table and the heap agree *)

(** The table has its size, its occupied slots hold every live record
    once and nothing else, and [process_count] counts them. *)
Definition table_inv (cfg : Platform) (k : Kernel) : Prop :=
  length (process_table k) = MAX_PROCESSES cfg ∧
  NoDup (occupied (process_table k)) ∧
  Forall (live k) (occupied (process_table k)) ∧
  map_Forall (λ p _, p ∈ occupied (process_table k)) (pcbs k) ∧
  process_count k = Z.of_nat (length (occupied (process_table k))).

#[global] Instance table_inv_dec cfg k : Decision (table_inv cfg k).
Proof. unfold table_inv. apply _. Defined.

(** The fields of a record that a context switch does not write. *)
Definition fixed_part (r : Process) : Z * string * Z * Z * Z * Z * Z * Z * Z * Z :=
  (pid r, name r, priority r, entry_point r, stack_base r, stack_size r,
   heap_base r, heap_size r, prev r, next r).

(** [k'] differs from [k] at most in the CPU, the current process and
    the [state] and [registers] of its records. *)
Definition context_only (k k' : Kernel) : Prop :=
  process_table k' = process_table k ∧ process_count k' = process_count k ∧
  next_pid k' = next_pid k ∧ select_last k' = select_last k ∧
  (∀ q, queue_head q k' = queue_head q k) ∧
  mem_log k' = mem_log k ∧
  ∀ x, fixed_part <$> (pcbs k' !! x) = fixed_part <$> (pcbs k !! x).

(** [k'] has the records of [k], each in the state it had. *)
Definition state_frame (k k' : Kernel) : Prop :=
  ∀ x, state_at (pcbs k') x = state_at (pcbs k) x.

(** Along a run, the allocator never answers a creation with the address
    of a live record. *)
Fixpoint allocator_fresh (cfg : Platform) (ops : list Op) (k : Kernel) : Prop :=
  match ops with
  | [] => True
  | op :: ops =>
    (is_create op = true → pcbs k !! pcb_answer cfg k = None) ∧
    match step cfg op k with
    | Ok (_, k') => allocator_fresh cfg ops k'
    | Err _ => True
    end
  end.

(** A process is created, dispatched, switched away from, exits and is
    reaped; then another is created. *)
Definition demo_lifecycle : list Op :=
  [OpCreate "A" 1 100; OpSelectNext; OpSwitch 0 demo_A; OpSwitch demo_A demo_idle;
   OpSetState demo_A PROC_STATE_ZOMBIE; OpReap; OpCreate "B" 1 200].

(** ** The scheduler on any ready queue *)

Definition is_ready (m : gmap Z Process) (p : Z) : Prop :=
  state_at m p = Some PROC_STATE_READY.

#[global] Instance is_ready_dec m p : Decision (is_ready m p).
Proof. unfold is_ready. apply _. Defined.

(** The first READY record of [l], if there is one. *)
Definition first_ready (m : gmap Z Process) (l : list Z) : option Z :=
  head (filter (is_ready m) l).

(** The kernel once [scheduler_select_next] has set a cursor that was
    [NULL] to the head of the ready queue. *)
Definition cursor_set (k : Kernel) : Kernel :=
  if select_last k =? 0 then set_select_last (ready_queue k) k else k.

(** ** A dispatched process *)

(** The [c]-th record of the ready queue [q] has been dispatched: it is
    current, RUNNING and under the cursor; every other record of the
    queue is READY; nothing waits to be reaped. *)
Definition dispatching (k : Kernel) (q : list Z) (c : nat) : Prop :=
  chain (pcbs k) (ready_queue k) q ∧
  q !! c = Some (current_process k) ∧
  select_last k = current_process k ∧
  zombie_queue k = 0 ∧
  Forall (λ p, state_at (pcbs k) p =
               Some (if decide (p = current_process k)
                     then PROC_STATE_RUNNING else PROC_STATE_READY)) q.

#[global] Instance dispatching_dec k q c : Decision (dispatching k q c).
Proof. unfold dispatching. apply _. Defined.

(** A has been dispatched and is recorded as the current process
    ([process_switch] itself ends before it records it). *)
Definition demo_A_current : Kernel :=
  process_set_current demo_A (after demo dispatch_A demo_k3).

(** A has been dispatched and is current, and has exited. *)
Definition demo_exited : Kernel :=
  after demo [OpSetState demo_A PROC_STATE_ZOMBIE] demo_A_current.

(** ** Allocator traffic *)

(** The addresses handed out in a stretch of the allocator log (a refused
    allocation hands out none), and the addresses handed back. *)
Definition allocated (evs : list MemEvent) : list Z :=
  evs ≫= λ e, match e with
              | Alloc _ a => if a =? 0 then [] else [a]
              | Free _ => []
              end.

Definition freed (evs : list MemEvent) : list Z :=
  evs ≫= λ e, match e with
              | Alloc _ _ => []
              | Free a => [a]
              end.

(** A has exited without having been dispatched. *)
Definition demo_A_zombie : Kernel :=
  after demo [OpSetState demo_A PROC_STATE_ZOMBIE] demo_k3.

(** The queues of [demo_k3]: idle, A and B wait in the ready queue. *)
Definition demo_queues (q : Queue) : list Z :=
  match q with
  | ReadyQ => [demo_B; demo_A; demo_idle]
  | BlockedQ | ZombieQ => []
  end.

(** ** Queues, stated on the heap alone *)

(** The three queues are doubly-linked lists from their heads to [NULL],
    and a record is in the ready queue exactly when it is READY, in the
    blocked queue exactly when BLOCKED, in the zombie queue exactly when
    ZOMBIE. *)
Definition queues_well_formed (k : Kernel) : Prop :=
  queue_consistent k ∧
  dlist (pcbs k) (ready_queue k) (queue_members ReadyQ k) ∧
  dlist (pcbs k) (blocked_queue k) (queue_members BlockedQ k) ∧
  dlist (pcbs k) (zombie_queue k) (queue_members ZombieQ k).

#[global] Instance queues_well_formed_dec k : Decision (queues_well_formed k).
Proof. unfold queues_well_formed, dlist. apply _. Defined.

(** The members of the queue of state [target] once [proc] has moved to
    state [s]: [proc] in front if [s] is that state, and the former
    members without [proc]. *)
Definition moved (proc : Z) (s target : ProcessState) (l : list Z) : list Z :=
  (if decide (s = target) then [proc] else []) ++ filter (λ x, x ≠ proc) l.

(** * Proofs *)

(** ** Stepping through the monad *)

Ltac ksimpl :=
  cbv beta iota zeta delta
    [set_process_table set_process_count set_next_pid set_ready_queue
     set_blocked_queue set_zombie_queue set_select_last set_pcbs set_cpu
     set_mem_log process_set_current memory_alloc memory_free memory_free_pcb
     set_queue_head queue_head
     process_table process_count next_pid ready_queue blocked_queue
     zombie_queue select_last current_process pcbs cpu mem_log].

Ltac ksimpl_in H :=
  cbv beta iota zeta delta
    [set_process_table set_process_count set_next_pid set_ready_queue
     set_blocked_queue set_zombie_queue set_select_last set_pcbs set_cpu
     set_mem_log process_set_current memory_alloc memory_free memory_free_pcb
     set_queue_head queue_head
     process_table process_count next_pid ready_queue blocked_queue
     zombie_queue select_last current_process pcbs cpu mem_log] in H.

(** Closed decidable facts are settled by evaluation. *)
Ltac by_decide :=
  match goal with
  | |- ?P => apply (bool_decide_unpack P); vm_compute; exact I
  end.

Ltac by_decide_not :=
  match goal with
  | |- ¬ ?P => apply (bool_decide_eq_false_1 P); vm_compute; reflexivity
  end.

Lemma bind_Ok {A B} (a : A) (f : A → Res B) : (Ok a ≫= f) = f a.
Proof. reflexivity. Qed.

Lemma bind_inv {A B} (m : Res A) (f : A → Res B) (b : B) :
  (m ≫= f) = Ok b → ∃ a, m = Ok a ∧ f a = Ok b.
Proof. destruct m as [a|e]; [by exists a | done]. Qed.

Lemma poke_insert p f r m k :
  pcbs k = <[p := r]> m →
  poke p f k = Ok (set_pcbs (<[p := f r]> m) k).
Proof.
  intros E. unfold poke. rewrite E, lookup_insert_eq. by rewrite insert_insert_eq.
Qed.

Ltac poke_now :=
  match goal with
  | |- context [poke ?p ?f ?k] =>
    erewrite (poke_insert p f _ _ k) by (ksimpl; reflexivity); rewrite bind_Ok; ksimpl
  end.

Lemma poke_inv p f k k' :
  poke p f k = Ok k' →
  ∃ r, pcbs k !! p = Some r ∧ k' = set_pcbs (<[p := f r]> (pcbs k)) k.
Proof. unfold poke. destruct (pcbs k !! p) as [r|]; [|done]. intros [= <-]. by exists r. Qed.

Lemma load_inv p k r : load p k = Ok r → pcbs k !! p = Some r.
Proof. unfold load. destruct (pcbs k !! p); [|done]. by intros [= ->]. Qed.

(** ** Field writes on a closed heap *)

Lemma links_closed_parts k :
  links_closed k →
  (∀ q, null_or_live k (queue_head q k)) ∧
  (∀ p r, pcbs k !! p = Some r → closed_rec k r).
Proof.
  intros (R & B & Z & F). split.
  - by intros [].
  - intros p r Hp. by apply (F p r).
Qed.

Lemma links_closed_intro k :
  (∀ q, null_or_live k (queue_head q k)) →
  (∀ p r, pcbs k !! p = Some r → closed_rec k r) →
  links_closed k.
Proof.
  intros HQ HR. split; [apply (HQ ReadyQ)|]. split; [apply (HQ BlockedQ)|].
  split; [apply (HQ ZombieQ)|]. intros p r Hp. by eapply HR.
Qed.

Lemma load_live k p r : pcbs k !! p = Some r → load p k = Ok r.
Proof. unfold load. by intros ->. Qed.

Lemma poke_live k p f r :
  pcbs k !! p = Some r → poke p f k = Ok (set_pcbs (<[p := f r]> (pcbs k)) k).
Proof. unfold poke. by intros ->. Qed.

Lemma evolves_refl k : evolves k k.
Proof. by split. Qed.

Lemma evolves_trans k1 k2 k3 : evolves k1 k2 → evolves k2 k3 → evolves k1 k3.
Proof.
  intros [D1 S1] [D2 S2]. split; intros x.
  - by rewrite D2.
  - by rewrite S2.
Qed.

Lemma null_or_live_evolves k k' p : evolves k k' → null_or_live k p → null_or_live k' p.
Proof. intros [D _] [->|L]; [by left | right; by apply D]. Qed.

Lemma closed_rec_evolves k k' r : evolves k k' → closed_rec k r → closed_rec k' r.
Proof. intros E [P N]. split; eapply null_or_live_evolves; eauto. Qed.

Lemma live_insert k p v x :
  live k p → is_Some (<[p := v]> (pcbs k) !! x) ↔ live k x.
Proof.
  intros L. unfold live. destruct (decide (p = x)) as [->|Hne].
  - rewrite lookup_insert_eq. split; [done | by eauto].
  - by rewrite lookup_insert_ne.
Qed.

Lemma poke_step k p f :
  links_closed k → live k p →
  (∀ r, pcbs k !! p = Some r → closed_rec k (f r) ∧ state (f r) = state r) →
  ∃ k', poke p f k = Ok k' ∧ links_closed k' ∧ evolves k k' ∧
        (∀ q, queue_head q k' = queue_head q k) ∧
        (∀ r, pcbs k !! p = Some r → pcbs k' !! p = Some (f r)).
Proof.
  intros LC [r Hr] Hf. destruct (links_closed_parts _ LC) as [HQ HR]. destruct (Hf r Hr) as [Hc Hs].
  exists (set_pcbs (<[p := f r]> (pcbs k)) k).
  assert (E : evolves k (set_pcbs (<[p := f r]> (pcbs k)) k)).
  { split; intros x; simpl.
    - apply live_insert. by exists r.
    - destruct (decide (p = x)) as [->|Hne].
      + rewrite lookup_insert_eq, Hr. simpl. by rewrite Hs.
      + by rewrite lookup_insert_ne. }
  split; [by apply poke_live|]. split; [|split; [done|split]].
  - apply links_closed_intro.
    + intros q. eapply null_or_live_evolves; [done|].
      specialize (HQ q). by destruct q.
    + intros x rx. simpl. destruct (decide (p = x)) as [->|Hne].
      * rewrite lookup_insert_eq. intros [= <-]. by eapply closed_rec_evolves.
      * rewrite lookup_insert_ne by done. intros Hx.
        eapply closed_rec_evolves; [done|]. by eapply HR.
  - by intros [].
  - intros r' Hr'. simpl. rewrite lookup_insert_eq. congruence.
Qed.

Lemma set_queue_head_step q v k :
  links_closed k → null_or_live k v →
  links_closed (set_queue_head q v k) ∧ evolves k (set_queue_head q v k) ∧
  queue_head q (set_queue_head q v k) = v ∧ pcbs (set_queue_head q v k) = pcbs k.
Proof.
  intros LC Hv. destruct (links_closed_parts _ LC) as [HQ HR].
  assert (P : pcbs (set_queue_head q v k) = pcbs k) by by destruct q.
  assert (E : evolves k (set_queue_head q v k)).
  { split; intros x; unfold live; by rewrite P. }
  split; [|split; [done|split; [by destruct q|done]]].
  apply links_closed_intro.
  - intros q'. eapply null_or_live_evolves; [done|].
    destruct (decide (q = q')) as [<-|Hne].
    + by destruct q.
    + specialize (HQ q'). by destruct q, q'.
  - intros p r. rewrite P. intros Hp. eapply closed_rec_evolves; [done|]. by eapply HR.
Qed.

Lemma closed_set_prev k r v : closed_rec k r → null_or_live k v → closed_rec k (set_prev v r).
Proof. intros [? ?] ?. by split. Qed.
Lemma closed_set_next k r v : closed_rec k r → null_or_live k v → closed_rec k (set_next v r).
Proof. intros [? ?] ?. by split. Qed.
Lemma closed_set_state k r v : closed_rec k r → closed_rec k (set_state v r).
Proof. intros [? ?]. by split. Qed.

Lemma null_live_0 k : null_or_live k 0.
Proof. by left. Qed.

Lemma remove_step proc s k :
  links_closed k → live k proc →
  ∃ k', process_remove_from_queue proc s k = Ok k' ∧ links_closed k' ∧ evolves k k'.
Proof.
  intros LC [r Hr]. unfold process_remove_from_queue.
  destruct (queue_of_state s) as [q|]; [|exists k; by auto using evolves_refl].
  assert (Cr : closed_rec k r) by (destruct (links_closed_parts _ LC) as [_ HR]; by eapply HR).
  match goal with |- ∃ k', (?m ≫= _) = _ ∧ _ =>
    assert (∃ k1, m = Ok k1 ∧ links_closed k1 ∧ evolves k k1) as (k1 & -> & LC1 & E1)
  end.
  { destruct (queue_head q k =? proc).
    - rewrite (load_live _ _ _ Hr). simpl.
      destruct (set_queue_head_step q (next r) k LC (proj2 Cr)) as (LC0 & E0 & HQ0 & HP0).
      destruct (Z.eqb_spec (queue_head q (set_queue_head q (next r) k)) 0) as [Hz|Hnz].
      + eauto.
      + rewrite HQ0 in *.
        assert (L : live (set_queue_head q (next r) k) (next r)).
        { destruct (proj2 Cr) as [?|L]; [done|]. by apply E0. }
        edestruct (poke_step _ (next r) (set_prev 0) LC0 L) as (k1 & -> & LC1 & E1 & _).
        { intros r' Hr'. split; [|done]. apply closed_set_prev; [|by left].
          destruct (links_closed_parts _ LC0) as [_ HR]. by eapply HR. }
        exists k1. eauto using evolves_trans.
    - rewrite (load_live _ _ _ Hr). simpl.
      match goal with |- ∃ k', (?m ≫= _) = _ ∧ _ =>
        assert (∃ k0, m = Ok k0 ∧ links_closed k0 ∧ evolves k k0) as (k0 & -> & LC0 & E0)
      end.
      { destruct (Z.eqb_spec (prev r) 0) as [Hz|Hnz]; [by eauto using evolves_refl|].
        assert (L : live k (prev r)) by (by destruct (proj1 Cr)).
        edestruct (poke_step _ (prev r) (set_next (next r)) LC L) as (k0 & -> & LC0 & E0 & _).
        { intros r' Hr'. split; [|done]. apply closed_set_next; [|apply Cr].
          destruct (links_closed_parts _ LC) as [_ HR]. by eapply HR. }
        eauto. }
      simpl.
      assert (L0 : live k0 proc) by (apply E0; by exists r).
      destruct L0 as [r0 Hr0]. rewrite (load_live _ _ _ Hr0). simpl.
      assert (C0 : closed_rec k0 r0) by (destruct (links_closed_parts _ LC0) as [_ HR]; by eapply HR).
      destruct (Z.eqb_spec (next r0) 0) as [Hz|Hnz]; [by eauto|].
      assert (L : live k0 (next r0)) by (by destruct (proj2 C0)).
      edestruct (poke_step _ (next r0) (set_prev (prev r0)) LC0 L) as (k1 & -> & LC1 & E1 & _).
      { intros r' Hr'. split; [|done]. apply closed_set_prev; [|apply C0].
        destruct (links_closed_parts _ LC0) as [_ HR]. by eapply HR. }
      exists k1. eauto using evolves_trans. }
  simpl.
  assert (L1 : live k1 proc) by (apply E1; by exists r).
  edestruct (poke_step _ proc (set_prev 0) LC1 L1) as (k2 & -> & LC2 & E2 & _).
  { intros r' Hr'. split; [|done]. apply closed_set_prev; [|by left].
    destruct (links_closed_parts _ LC1) as [_ HR]. by eapply HR. }
  simpl.
  assert (L2 : live k2 proc) by (by apply E2).
  edestruct (poke_step _ proc (set_next 0) LC2 L2) as (k3 & -> & LC3 & E3 & _).
  { intros r' Hr'. split; [|done]. apply closed_set_next; [|by left].
    destruct (links_closed_parts _ LC2) as [_ HR]. by eapply HR. }
  exists k3. eauto using evolves_trans.
Qed.

Lemma add_step proc s k :
  links_closed k → live k proc →
  ∃ k', process_add_to_queue proc s k = Ok k' ∧ links_closed k' ∧ evolves k k' ∧
        (∀ q, queue_of_state s = Some q → queue_head q k' = proc).
Proof.
  intros LC L. unfold process_add_to_queue.
  destruct (queue_of_state s) as [q|]; [|exists k; by auto using evolves_refl].
  edestruct (poke_step _ proc (set_next (queue_head q k)) LC L) as (k1 & -> & LC1 & E1 & Q1 & _).
  { intros r' Hr'. split; [|done]. apply closed_set_next; [|apply (links_closed_parts _ LC)].
    destruct (links_closed_parts _ LC) as [_ HR]. by eapply HR. }
  simpl.
  assert (L1 : live k1 proc) by (by apply E1).
  edestruct (poke_step _ proc (set_prev 0) LC1 L1) as (k2 & -> & LC2 & E2 & Q2 & _).
  { intros r' Hr'. split; [|done]. apply closed_set_prev; [|by left].
    destruct (links_closed_parts _ LC1) as [_ HR]. by eapply HR. }
  simpl.
  assert (L2 : live k2 proc) by (by apply E2).
  match goal with |- ∃ k', (?m ≫= _) = _ ∧ _ =>
    assert (∃ k3, m = Ok k3 ∧ links_closed k3 ∧ evolves k2 k3) as (k3 & -> & LC3 & E3)
  end.
  { destruct (Z.eqb_spec (queue_head q k2) 0) as [Hz|Hnz]; [by eauto using evolves_refl|].
    assert (Lh : live k2 (queue_head q k2)).
    { destruct (links_closed_parts _ LC2) as [HQ _]. by destruct (HQ q). }
    edestruct (poke_step _ (queue_head q k2) (set_prev proc) LC2 Lh) as (k3 & -> & LC3 & E3 & _).
    { intros r' Hr'. split; [|done]. apply closed_set_prev; [|by right].
      destruct (links_closed_parts _ LC2) as [_ HR]. by eapply HR. }
    eauto. }
  simpl.
  assert (L3 : live k3 proc) by (by apply E3).
  destruct (set_queue_head_step q proc k3 LC3 (or_intror L3)) as (LC4 & E4 & Q4 & _).
  eexists. split; [done|]. split; [done|]. split; [by eauto using evolves_trans|].
  by intros ? [= <-].
Qed.

Lemma process_set_state_step proc s k :
  links_closed k → null_or_live k proc →
  ∃ e k', process_set_state proc s k = Ok (e, k') ∧
    (e = ERR_INVALID_ARG ↔ proc = 0) ∧
    (proc = 0 → k' = k) ∧
    (proc ≠ 0 → e = ERR_SUCCESS ∧ links_closed k' ∧
       (∀ x, live k' x ↔ live k x) ∧
       (∀ x, x ≠ proc → state <$> (pcbs k' !! x) = state <$> (pcbs k !! x)) ∧
       state <$> (pcbs k' !! proc) = Some s ∧
       (∀ q, queue_of_state s = Some q → queue_head q k' = proc)).
Proof.
  intros LC NL. unfold process_set_state.
  destruct (Z.eqb_spec proc 0) as [->|Hnz].
  { exists ERR_INVALID_ARG, k. by repeat split. }
  destruct NL as [?|L]; [done|]. destruct (L) as [r Hr].
  rewrite (load_live _ _ _ Hr). simpl.
  assert (Cr : closed_rec k r) by (destruct (links_closed_parts _ LC) as [_ HR]; by eapply HR).
  unfold poke at 1. rewrite Hr. simpl.
  set (k1 := set_pcbs (<[proc:=set_state s r]> (pcbs k)) k).
  assert (D1 : ∀ x, live k1 x ↔ live k x).
  { intros x. apply live_insert. by exists r. }
  assert (LC1 : links_closed k1).
  { destruct (links_closed_parts _ LC) as [HQ HR]. apply links_closed_intro.
    - intros q. destruct (HQ q) as [?|Lq]; [left|right; apply D1]; by destruct q.
    - intros x rx. simpl. destruct (decide (proc = x)) as [->|Hne].
      + rewrite lookup_insert_eq. intros [= <-].
        destruct Cr as [[?|?] [?|?]]; split; simpl; (by left) || (right; by apply D1).
      + rewrite lookup_insert_ne by done. intros Hx.
        destruct (HR _ _ Hx) as [[?|?] [?|?]]; split; (by left) || (right; by apply D1). }
  assert (L1 : live k1 proc) by (by apply D1).
  destruct (remove_step proc (state r) k1 LC1 L1) as (k2 & -> & LC2 & E2). simpl.
  assert (L2 : live k2 proc) by (by apply E2).
  destruct (add_step proc s k2 LC2 L2) as (k3 & -> & LC3 & E3 & Q3). simpl.
  exists ERR_SUCCESS, k3. split; [done|]. split; [by split|]. split; [done|].
  intros _. split; [done|]. split; [done|].
  pose proof (evolves_trans _ _ _ E2 E3) as [D S].
  split; [intros x; by rewrite D|]. split; [|split; [|done]].
  - intros x Hx. rewrite S. simpl. by rewrite lookup_insert_ne.
  - rewrite S. simpl. by rewrite lookup_insert_eq.
Qed.

(** ** Context switch *)

(** C9: [process_switch] with a null destination returns at once: the
    whole state (registers saved in records, every [state] field, the
    current-process reference) is what it was. *)
Theorem process_switch_null_destination (from : Z) (k : Kernel) :
  process_switch from 0 k = Ok k.
Proof. reflexivity. Qed.

Lemma state_at_insert m p r x :
  state_at (<[p := r]> m) x = if decide (p = x) then Some (state r) else state_at m x.
Proof.
  unfold state_at. destruct (decide (p = x)) as [->|Hne].
  - by rewrite lookup_insert_eq.
  - by rewrite lookup_insert_ne.
Qed.

(** C2: the switch marks [from] READY unconditionally, whatever state
    the caller gave it beforehand. *)
Theorem process_switch_overwrites_from (from to : Z) (k : Kernel) :
  from ≠ 0 → to ≠ 0 → from ≠ to → live k from → live k to →
  ∃ k', process_switch from to k = Ok k' ∧
        state_at (pcbs k') from = Some PROC_STATE_READY ∧
        state_at (pcbs k') to = Some PROC_STATE_RUNNING.
Proof.
  intros Hf Ht Hne [rf Hrf] [rt Hrt]. unfold process_switch.
  destruct (Z.eqb_spec to 0); [done|]. destruct (Z.eqb_spec from 0); [done|].
  unfold process_save_context. rewrite (poke_live _ _ _ _ Hrf), bind_Ok.
  erewrite poke_live by (simpl; apply lookup_insert_eq). rewrite bind_Ok.
  erewrite poke_live
    by (simpl; rewrite lookup_insert_ne by done; rewrite lookup_insert_ne by done; done).
  rewrite bind_Ok. unfold process_restore_context.
  erewrite load_live by (simpl; apply lookup_insert_eq). simpl.
  eexists. split; [done|]. simpl. rewrite !state_at_insert.
  split; repeat case_decide; done || congruence.
Qed.

Lemma process_switch_overwrites_zombie :
  let k := after demo exit_A demo_k3 in
  state_at (pcbs k) demo_A = Some PROC_STATE_ZOMBIE ∧
  ∃ k', process_switch demo_A demo_B k = Ok k' ∧
        state_at (pcbs k') demo_A = Some PROC_STATE_READY ∧
        state_at (pcbs k') demo_B = Some PROC_STATE_RUNNING.
Proof.
  split; [by vm_compute|].
  apply process_switch_overwrites_from.
  1-3: by vm_compute.
  all: by_decide.
Defined.

(** ** Creation: rollback *)

(** C4: when the stack is allocated and the heap is refused,
    [process_create] hands the stack and then the PCB back to the memory
    module before it returns [NULL]; the table and the live count are
    what they were, and the PCB is no longer a record. *)
Theorem process_create_heap_failure_rollback
    (cfg : Platform) (nm : string) (prio entry : Z) (k : Kernel) (p s : Z) :
  process_count k < Z.of_nat (MAX_PROCESSES cfg) →
  memory_alloc_answer cfg (mem_log k) (sizeof_Process cfg) = p → p ≠ 0 →
  memory_alloc_answer cfg (mem_log k ++ [Alloc (sizeof_Process cfg) p]) (16 * KB cfg) = s →
  s ≠ 0 →
  memory_alloc_answer cfg
    ((mem_log k ++ [Alloc (sizeof_Process cfg) p]) ++ [Alloc (16 * KB cfg) s])
    (64 * KB cfg) = 0 →
  ∃ k', process_create cfg nm prio entry k = Ok (0, k') ∧
    mem_log k' = mem_log k ++ [Alloc (sizeof_Process cfg) p; Alloc (16 * KB cfg) s;
                               Alloc (64 * KB cfg) 0; Free s; Free p] ∧
    process_table k' = process_table k ∧
    process_count k' = process_count k ∧
    pcbs k' = delete p (pcbs k).
Proof.
  intros Hc Hp Hpz Hs Hsz Hh. unfold process_create.
  destruct (Z.leb_spec (Z.of_nat (MAX_PROCESSES cfg)) (process_count k)); [lia|].
  destruct k. ksimpl. ksimpl_in Hp. ksimpl_in Hs. ksimpl_in Hh. rewrite Hp.
  destruct (Z.eqb_spec p 0); [done|].
  do 6 poke_now. rewrite Hs. poke_now.
  destruct (Z.eqb_spec s 0); [done|].
  poke_now. rewrite Hh. poke_now.
  eexists. split; [reflexivity|]. ksimpl.
  rewrite <- !app_assoc. simpl. by rewrite delete_insert_eq.
Qed.

Lemma process_create_heap_failure_rollback_demo :
  ∃ k', process_create (demo_dry 5) "A" 1 100 (after_init (demo_dry 5)) = Ok (0, k') ∧
    mem_log k' = mem_log (after_init (demo_dry 5)) ++
                 [Alloc 256 86272; Alloc 16384 86528; Alloc 65536 0;
                  Free 86528; Free 86272] ∧
    process_table k' = process_table (after_init (demo_dry 5)) ∧
    process_count k' = process_count (after_init (demo_dry 5)) ∧
    pcbs k' = delete 86272 (pcbs (after_init (demo_dry 5))).
Proof.
  apply (process_create_heap_failure_rollback (demo_dry 5) "A" 1 100
           (after_init (demo_dry 5)) 86272 86528); by vm_compute.
Defined.

(** ** Chains of [next] links *)

Lemma chain_cons m p x l :
  chain m p (x :: l) ↔ p = x ∧ x ≠ 0 ∧ ∃ r, m !! x = Some r ∧ chain m (next r) l.
Proof.
  simpl. split.
  - intros (-> & Hx & H). destruct (m !! x) as [r|]; [|done]. eauto.
  - intros (-> & Hx & r & -> & H). done.
Qed.

Lemma chain_nil m p : chain m p [] ↔ p = 0.
Proof. done. Qed.

Lemma chain_det m l1 : ∀ p l2, chain m p l1 → chain m p l2 → l1 = l2.
Proof.
  induction l1 as [|x l1 IH]; intros p [|y l2] H1 H2; [done|..].
  - apply chain_cons in H2 as (-> & Hy & _). by apply chain_nil in H1.
  - apply chain_cons in H1 as (-> & Hx & _). by apply chain_nil in H2.
  - apply chain_cons in H1 as (-> & Hx & r & Hr & H1).
    apply chain_cons in H2 as (-> & _ & r' & Hr' & H2).
    assert (r' = r) as -> by congruence. f_equal. by eapply IH.
Qed.

Lemma chain_lookup m l : ∀ p i x,
  chain m p l → l !! i = Some x →
  x ≠ 0 ∧ chain m x (drop i l) ∧
  ∃ r, m !! x = Some r ∧ next r = default 0 (l !! S i) ∧ chain m (next r) (drop (S i) l).
Proof.
  induction l as [|y l IH]; intros p i x Hc Hi; [done|].
  pose proof Hc as Hc'. apply chain_cons in Hc as (-> & Hy & r & Hr & Hc).
  destruct i as [|i]; simpl in Hi.
  - injection Hi as <-. split; [done|]. split; [done|]. exists r. split; [done|].
    split; [|simpl; by rewrite ?drop_0]. destruct l as [|z l]; [by apply chain_nil in Hc|].
    by apply chain_cons in Hc as (-> & _).
  - apply (IH _ _ _ Hc Hi).
Qed.

Lemma chain_head m p l : chain m p l → p = default 0 (head l).
Proof. destruct l; [done|]. by intros (-> & _)%chain_cons. Qed.

Lemma chain_NoDup m p l : chain m p l → NoDup l.
Proof.
  intros Hc. apply NoDup_alt. intros i j x Hi Hj.
  destruct (chain_lookup _ _ _ _ _ Hc Hi) as (_ & Ci & _).
  destruct (chain_lookup _ _ _ _ _ Hc Hj) as (_ & Cj & _).
  pose proof (chain_det _ _ _ _ Ci Cj) as E.
  apply (f_equal length) in E. rewrite !length_drop in E.
  apply lookup_lt_Some in Hi, Hj. lia.
Qed.

Lemma chain_live m p l x : chain m p l → x ∈ l → is_Some (m !! x).
Proof.
  intros Hc (i & Hi)%list_elem_of_lookup.
  destruct (chain_lookup _ _ _ _ _ Hc Hi) as (_ & _ & r & Hr & _). by exists r.
Qed.

(** A chain visits each live record at most once, so it is no longer
    than the heap is large. *)
Lemma chain_length m p l : chain m p l → (length l ≤ size m)%nat.
Proof.
  intros Hc. rewrite <- length_map_to_list, <- (length_fmap fst).
  apply submseteq_length, NoDup_submseteq; [by eapply chain_NoDup|].
  intros x Hx. destruct (chain_live _ _ _ _ Hc Hx) as [r Hr].
  apply list_elem_of_fmap. exists (x, r). split; [done|].
  by apply elem_of_map_to_list.
Qed.

Lemma chain_insert_fresh m p l x r :
  x ∉ l → chain m p l → chain (<[x := r]> m) p l.
Proof.
  revert p. induction l as [|y l IH]; intros p Hx Hc; [done|].
  apply chain_cons in Hc as (-> & Hy & ry & Hry & Hc).
  apply not_elem_of_cons in Hx as [Hne Hx].
  apply chain_cons. split; [done|]. split; [done|]. exists ry.
  split; [by rewrite lookup_insert_ne|]. by apply IH.
Qed.

Lemma chain_insert_same_next m p l x r r' :
  m !! x = Some r → next r' = next r → chain m p l → chain (<[x := r']> m) p l.
Proof.
  intros Hr Hn. revert p. induction l as [|y l IH]; intros p Hc; [done|].
  apply chain_cons in Hc as (-> & Hy & ry & Hry & Hc).
  apply chain_cons. split; [done|]. split; [done|].
  destruct (decide (x = y)) as [->|Hne].
  - exists r'. rewrite lookup_insert_eq. split; [done|].
    rewrite Hn. assert (ry = r) as -> by congruence. by apply IH.
  - exists ry. rewrite lookup_insert_ne by done. split; [done|]. by apply IH.
Qed.

Lemma chain_delete m p l x :
  x ∉ l → chain m p l → chain (delete x m) p l.
Proof.
  revert p. induction l as [|y l IH]; intros p Hx Hc; [done|].
  apply chain_cons in Hc as (-> & Hy & ry & Hry & Hc).
  apply not_elem_of_cons in Hx as [Hne Hx].
  apply chain_cons. split; [done|]. split; [done|]. exists ry.
  split; [by rewrite lookup_delete_ne|]. by apply IH.
Qed.

(** ** The scheduler on a consistent ready queue *)

Lemma state_at_Some m p s :
  state_at m p = Some s ↔ ∃ r, m !! p = Some r ∧ state r = s.
Proof.
  unfold state_at. destruct (m !! p) as [r|]; simpl; split.
  - intros [= <-]. eauto.
  - intros (r' & [= <-] & <-). done.
  - done.
  - by intros (? & ? & _).
Qed.

Lemma skip_not_ready_null fuel k : skip_not_ready (S fuel) 0 k = Ok 0.
Proof. done. Qed.

Lemma skip_not_ready_ready fuel p k :
  p ≠ 0 → state_at (pcbs k) p = Some PROC_STATE_READY →
  skip_not_ready (S fuel) p k = Ok p.
Proof.
  intros Hp (r & Hr & Hs)%state_at_Some. simpl.
  destruct (Z.eqb_spec p 0); [done|]. rewrite (load_live _ _ _ Hr). simpl.
  by rewrite decide_True.
Qed.

Lemma skip_not_ready_none l : ∀ fuel p k,
  chain (pcbs k) p l → none_ready (pcbs k) l → (length l < fuel)%nat →
  skip_not_ready fuel p k = Ok 0.
Proof.
  induction l as [|x l IH]; intros fuel p k Hc Hn Hf.
  - apply chain_nil in Hc as ->. destruct fuel; [simpl in Hf; lia|done].
  - apply chain_cons in Hc as (-> & Hx & r & Hr & Hc).
    apply Forall_cons in Hn as [[_ Hs] Hn].
    destruct fuel as [|fuel]; [simpl in Hf; lia|]. simpl.
    destruct (Z.eqb_spec x 0); [done|]. rewrite (load_live _ _ _ Hr). simpl.
    rewrite decide_False.
    + apply IH; [done|done|simpl in Hf; lia].
    + intros E. apply Hs. unfold state_at. by rewrite Hr, <- E.
Qed.

Lemma rotate_nat_add_1 c n :
  (c < n)%nat → rotate_nat_add c 1 n = if decide (S c < n)%nat then S c else 0%nat.
Proof.
  intros Hc. unfold rotate_nat_add. case_decide.
  - rewrite Z.mod_small by lia. lia.
  - replace (Z.of_nat c + Z.of_nat 1) with (Z.of_nat n) by lia.
    by rewrite Z_mod_same_full.
Qed.

(** With the cursor on the [c]-th record of an all-READY queue, the
    scheduler returns the record after it, or the head when the cursor
    is on the last one. *)
Lemma select_next_in_queue k q c :
  chain (pcbs k) (ready_queue k) q → all_ready (pcbs k) q →
  q !! c = Some (select_last k) →
  ∃ y, q !! rotate_nat_add c 1 (length q) = Some y ∧
       scheduler_select_next k = Ok (y, set_select_last y k).
Proof.
  intros Hc Hr Hl.
  pose proof (lookup_lt_Some _ _ _ Hl) as Hlt.
  destruct q as [|h q']; [done|]. set (q := h :: q') in *.
  pose proof (chain_head _ _ _ Hc) as Hh. simpl in Hh.
  destruct (chain_lookup _ _ _ _ _ Hc Hl) as (Hnz & _ & r & Hlr & Hn & _).
  assert (Hh0 : h ≠ 0) by (apply chain_cons in Hc; tauto).
  assert (Hrh : state_at (pcbs k) h = Some PROC_STATE_READY).
  { eapply Forall_forall in Hr; [done|]. left. }
  unfold scheduler_select_next.
  destruct (Z.eqb_spec (ready_queue k) 0) as [E|_]; [congruence|].
  destruct (Z.eqb_spec (select_last k) 0) as [E|_]; [done|].
  rewrite (load_live _ _ _ Hlr), bind_Ok.
  rewrite rotate_nat_add_1 by done.
  destruct (q !! S c) as [y|] eqn:Hy; cbn [default from_option] in Hn; rewrite Hn.
  - pose proof (lookup_lt_Some _ _ _ Hy) as Hlt'. simpl in Hlt'.
    rewrite decide_True by (simpl; lia).
    exists y. split; [done|].
    destruct (chain_lookup _ _ _ _ _ Hc Hy) as (Hyz & _).
    assert (Hry : state_at (pcbs k) y = Some PROC_STATE_READY).
    { eapply Forall_forall in Hr; [done|]. by eapply list_elem_of_lookup_2. }
    rewrite (skip_not_ready_ready _ _ _ Hyz Hry), bind_Ok.
    destruct (Z.eqb_spec y 0); [done|]. rewrite bind_Ok.
    by destruct (Z.eqb_spec y 0).
  - apply lookup_ge_None in Hy. simpl in Hy.
    rewrite decide_False by (simpl; lia).
    exists h. split; [done|].
    change (skip_not_ready (S (size (pcbs k))) 0 k) with (Ok (A:=Z) 0).
    rewrite bind_Ok. change (0 =? 0) with true. cbv iota. rewrite Hh.
    rewrite (skip_not_ready_ready _ _ _ Hh0 Hrh), bind_Ok.
    by destruct (Z.eqb_spec h 0).
Qed.

Lemma rotate_nat_add_step c i n :
  (0 < n)%nat →
  rotate_nat_add (rotate_nat_add c 1 n) (S i) n = rotate_nat_add c (S (S i)) n.
Proof.
  intros Hn. unfold rotate_nat_add.
  rewrite Z2Nat.id by (apply Z.mod_pos; lia).
  rewrite Zplus_mod_idemp_l. f_equal. f_equal. lia.
Qed.

(** [n] calls from a cursor inside the queue walk round the queue. *)
Lemma select_run_in_queue q n : ∀ k c,
  chain (pcbs k) (ready_queue k) q → all_ready (pcbs k) q →
  q !! c = Some (select_last k) →
  ∃ rs k', select_run n k = Ok (rs, k') ∧ length rs = n ∧
    (∀ i, (i < n)%nat → rs !! i = q !! rotate_nat_add c (S i) (length q)).
Proof.
  induction n as [|n IH]; intros k c Hc Hr Hl.
  { exists [], k. split; [done|]. split; [done|]. intros i Hi. lia. }
  pose proof (lookup_lt_Some _ _ _ Hl) as Hlt.
  destruct (select_next_in_queue k q c Hc Hr Hl) as (y & Hy & Hsel).
  destruct (IH (set_select_last y k) (rotate_nat_add c 1 (length q)))
    as (rs & k' & Hrun & Hlen & Hrs); [done..|].
  exists (y :: rs), k'. simpl. rewrite Hsel, bind_Ok. simpl.
  rewrite Hrun, bind_Ok. split; [done|]. split; [simpl; by rewrite Hlen|].
  intros [|i] Hi; simpl; [done|].
  rewrite Hrs by lia. by rewrite rotate_nat_add_step by lia.
Qed.

(** Before the first dispatch the cursor is null and the walk starts
    from the head of the queue. *)
Lemma select_run_null_cursor k q n :
  chain (pcbs k) (ready_queue k) q → q ≠ [] → all_ready (pcbs k) q →
  select_last k = 0 →
  ∃ rs k', select_run n k = Ok (rs, k') ∧ length rs = n ∧
    (∀ i, (i < n)%nat → rs !! i = q !! rotate_nat_add 0 (S i) (length q)).
Proof.
  intros Hc Hne Hr Hz. destruct n as [|n].
  { exists [], k. split; [done|]. split; [done|]. intros i Hi. lia. }
  destruct q as [|h q']; [done|]. set (q := h :: q') in *.
  pose proof (chain_head _ _ _ Hc) as Hh. simpl in Hh.
  assert (Hh0 : h ≠ 0) by (apply chain_cons in Hc; tauto).
  assert (E : scheduler_select_next k
              = scheduler_select_next (set_select_last (ready_queue k) k)).
  { unfold scheduler_select_next. cbn [ready_queue select_last set_select_last].
    destruct (Z.eqb_spec (ready_queue k) 0) as [E0|_]; [congruence|].
    rewrite Hz. change (0 =? 0) with true. cbv iota.
    cbn [ready_queue select_last set_select_last].
    by destruct (Z.eqb_spec (ready_queue k) 0). }
  destruct (select_run_in_queue q (S n) (set_select_last (ready_queue k) k) 0)
    as (rs & k' & Hrun & Hlen & Hrs); [done|done|by rewrite Hh|].
  exists rs, k'. split; [|done]. simpl in *. by rewrite E.
Qed.

(** A cursor left on a record that is no longer queued: the walk from it
    finds no READY record, and the head of the queue is returned. *)
Lemma select_run_stale_cursor k q x l n :
  chain (pcbs k) (ready_queue k) q → q ≠ [] → all_ready (pcbs k) q →
  chain (pcbs k) (select_last k) (x :: l) → none_ready (pcbs k) l →
  ∃ rs k', select_run n k = Ok (rs, k') ∧ length rs = n ∧
    (∀ i, (i < n)%nat →
       rs !! i = q !! rotate_nat_add (length q - 1) (S i) (length q)).
Proof.
  intros Hc Hne Hr Hl Hnr. destruct n as [|n].
  { exists [], k. split; [done|]. split; [done|]. intros i Hi. lia. }
  destruct q as [|h q']; [done|]. set (q := h :: q') in *.
  pose proof (chain_head _ _ _ Hc) as Hh. simpl in Hh.
  assert (Hh0 : h ≠ 0) by (apply chain_cons in Hc; tauto).
  assert (Hrh : state_at (pcbs k) h = Some PROC_STATE_READY).
  { eapply Forall_forall in Hr; [done|]. left. }
  apply chain_cons in Hl as (Hx & Hx0 & r & Hlr & Hl).
  assert (Hsel : scheduler_select_next k = Ok (h, set_select_last h k)).
  { unfold scheduler_select_next.
    destruct (Z.eqb_spec (ready_queue k) 0) as [E|_]; [congruence|].
    destruct (Z.eqb_spec (select_last k) 0) as [E|_]; [congruence|].
    rewrite Hx, (load_live _ _ _ Hlr), bind_Ok.
    pose proof (chain_length _ _ _ Hl) as Hlen.
    rewrite (skip_not_ready_none l _ (next r) k Hl Hnr) by lia.
    rewrite bind_Ok. change (0 =? 0) with true. cbv iota. rewrite Hh.
    rewrite (skip_not_ready_ready _ _ _ Hh0 Hrh), bind_Ok.
    by destruct (Z.eqb_spec h 0). }
  destruct (select_run_in_queue q n (set_select_last h k) 0)
    as (rs & k' & Hrun & Hlen & Hrs); [done..|].
  exists (h :: rs), k'. simpl select_run. rewrite Hsel, bind_Ok. simpl.
  rewrite Hrun, bind_Ok. split; [done|]. split; [simpl; by rewrite Hlen|].
  assert (E0 : rotate_nat_add (length q' - 0) 1 (S (length q')) = 0%nat).
  { rewrite rotate_nat_add_1 by lia. rewrite decide_False by lia. done. }
  intros [|i] Hi; simpl.
  - by rewrite E0.
  - rewrite Hrs by lia. simpl.
    by rewrite <- (rotate_nat_add_step (length q' - 0)), E0 by lia.
Qed.

(** Whatever the cursor, the calls behave as from some index of the
    queue. *)
Lemma select_run_cursor k q :
  chain (pcbs k) (ready_queue k) q → q ≠ [] → all_ready (pcbs k) q → cursor_ok k q →
  ∃ c, (c < length q)%nat ∧ ∀ n,
    ∃ rs k', select_run n k = Ok (rs, k') ∧ length rs = n ∧
      (∀ i, (i < n)%nat → rs !! i = q !! rotate_nat_add c (S i) (length q)).
Proof.
  intros Hc Hne Hr Hcur.
  assert (Hpos : (0 < length q)%nat) by (destruct q; [done|simpl; lia]).
  destruct Hcur as [Hz|[Hin|(l & Hl & Hnr)]].
  - exists 0%nat. split; [done|]. intros n. by apply select_run_null_cursor.
  - apply list_elem_of_lookup in Hin as [c Hl]. exists c.
    split; [by eapply lookup_lt_Some|]. intros n. by apply select_run_in_queue.
  - destruct l as [|x l].
    + apply chain_nil in Hl. exists 0%nat. split; [done|]. intros n.
      by apply select_run_null_cursor.
    + exists (length q - 1)%nat. split; [lia|]. intros n.
      by eapply select_run_stale_cursor.
Qed.

Lemma rotate_Permutation {A} (n : nat) (l : list A) : rotate n l ≡ₚ l.
Proof. unfold rotate. by rewrite Permutation_app_comm, take_drop. Qed.

(** A window of [length q] consecutive results is the queue, rotated. *)
Lemma window_rotate (q rs : list Z) (c n a : nat) :
  length rs = n →
  (∀ i, (i < n)%nat → rs !! i = q !! rotate_nat_add c (S i) (length q)) →
  (a + length q ≤ n)%nat →
  take (length q) (drop a rs) = rotate (c + S a) q.
Proof.
  intros Hlen Hrs Ha. apply list_eq. intros j.
  destruct (decide (j < length q)%nat) as [Hj|Hj].
  - rewrite lookup_take_lt, lookup_drop, lookup_rotate_r by done.
    rewrite Hrs by lia. f_equal. unfold rotate_nat_add. f_equal. f_equal. lia.
  - rewrite lookup_take_ge by lia. symmetry. apply lookup_ge_None.
    rewrite length_rotate. lia.
Qed.

(** C6: on a ready queue of [N] records that all stay READY, any [N]
    consecutive calls of [scheduler_select_next] return every record of
    the queue exactly once, and the call [N] places later returns the
    same record again. *)
Theorem round_robin_fairness (k : Kernel) (q : list Z) :
  chain (pcbs k) (ready_queue k) q → q ≠ [] → all_ready (pcbs k) q →
  cursor_ok k q →
  ∀ n, ∃ rs k',
    select_run n k = Ok (rs, k') ∧ length rs = n ∧
    (∀ a, (a + length q ≤ n)%nat →
       take (length q) (drop a rs) ≡ₚ q ∧ NoDup (take (length q) (drop a rs))) ∧
    (∀ i, (i + length q < n)%nat → rs !! (i + length q)%nat = rs !! i).
Proof.
  intros Hc Hne Hr Hcur n.
  destruct (select_run_cursor k q Hc Hne Hr Hcur) as (c & Hlt & Hrun).
  destruct (Hrun n) as (rs & k' & Hsel & Hlen & Hrs).
  exists rs, k'. split; [done|]. split; [done|]. split.
  - intros a Ha. rewrite (window_rotate q rs c n a Hlen Hrs Ha).
    split; [apply rotate_Permutation|].
    rewrite rotate_Permutation. by eapply chain_NoDup.
  - intros i Hi. rewrite !Hrs by lia. f_equal. unfold rotate_nat_add. f_equal.
    replace (Z.of_nat c + Z.of_nat (S (i + length q)))
      with (Z.of_nat c + Z.of_nat (S i) + 1 * Z.of_nat (length q)) by lia.
    apply Z_mod_plus_full.
Qed.

Lemma round_robin_fairness_demo :
  ∃ rs k',
    select_run 7 demo_k3 = Ok (rs, k') ∧ length rs = 7%nat ∧
    (∀ a, (a + 3 ≤ 7)%nat →
       take 3 (drop a rs) ≡ₚ [demo_B; demo_A; demo_idle] ∧ NoDup (take 3 (drop a rs))) ∧
    (∀ i, (i + 3 < 7)%nat → rs !! (i + 3)%nat = rs !! i).
Proof.
  apply (round_robin_fairness demo_k3 [demo_B; demo_A; demo_idle]).
  - by_decide.
  - done.
  - by_decide.
  - left. by vm_compute.
Defined.

(** ** Creation, path by path *)

Lemma load_insert p r m k :
  pcbs k = <[p := r]> m → load p k = Ok r.
Proof. intros E. unfold load. by rewrite E, lookup_insert_eq. Qed.

(** The five ways through [process_create]. *)
Lemma process_create_paths cfg nm prio entry k :
  process_create cfg nm prio entry k =
  if Z.of_nat (MAX_PROCESSES cfg) <=? process_count k then Ok (0, k)
  else if pcb_answer cfg k =? 0 then Ok (0, refused_pcb cfg k)
  else if stack_answer cfg k =? 0 then Ok (0, refused_stack cfg k)
  else if heap_answer cfg k =? 0 then Ok (0, refused_heap cfg k)
  else
    '(_, k') ← process_set_state (pcb_answer cfg k) PROC_STATE_READY
                 (created cfg nm prio entry k (pcb_answer cfg k)
                    (stack_answer cfg k) (heap_answer cfg k));
    Ok (pcb_answer cfg k, k').
Proof.
  unfold process_create.
  destruct (Z.of_nat (MAX_PROCESSES cfg) <=? process_count k); [done|].
  unfold refused_pcb, refused_stack, refused_heap, created, heap_answer, stack_answer,
    pcb_answer.
  destruct k as [tbl cnt npid rq bq zq sl cur m regs log]. ksimpl.
  destruct (Z.eqb_spec (memory_alloc_answer cfg log (sizeof_Process cfg)) 0) as [->|Hp];
    [done|].
  set (p := memory_alloc_answer cfg log (sizeof_Process cfg)) in *.
  do 6 poke_now.
  set (s := memory_alloc_answer cfg (log ++ [Alloc (sizeof_Process cfg) p]) (16 * KB cfg)).
  poke_now.
  destruct (Z.eqb_spec s 0) as [Hs|Hs].
  { rewrite delete_insert_eq, <- !app_assoc. simpl. by rewrite Hs. }
  poke_now.
  set (h := memory_alloc_answer cfg
              ((log ++ [Alloc (sizeof_Process cfg) p]) ++ [Alloc (16 * KB cfg) s])
              (64 * KB cfg)).
  poke_now.
  destruct (Z.eqb_spec h 0) as [Hh|Hh].
  { rewrite delete_insert_eq, <- !app_assoc. simpl. by rewrite Hh. }
  unfold process_init_context.
  erewrite load_insert by (ksimpl; reflexivity). rewrite bind_Ok.
  do 3 poke_now. rewrite <- !app_assoc. reflexivity.
Qed.

(** [process_set_state] on a record that is in no queue and goes to the
    head of the ready queue. *)
Lemma enqueue_new k p r :
  p ≠ 0 → pcbs k !! p = Some r → queue_of_state (state r) = None →
  (ready_queue k = 0 ∨ ready_queue k ≠ p ∧ live k (ready_queue k)) →
  ∃ m,
    process_set_state p PROC_STATE_READY k
      = Ok (ERR_SUCCESS, set_ready_queue p (set_pcbs m k)) ∧
    m !! p = Some (set_prev 0 (set_next (ready_queue k) (set_state PROC_STATE_READY r))) ∧
    (∀ x, x ≠ p → next <$> (m !! x) = next <$> (pcbs k !! x)) ∧
    (∀ x, x ≠ p → state_at m x = state_at (pcbs k) x) ∧
    (∀ x, x ≠ p → pid <$> (m !! x) = pid <$> (pcbs k !! x)) ∧
    (∀ x, is_Some (m !! x) ↔ is_Some (pcbs k !! x)).
Proof.
  intros Hp Hr Hq Hrq. unfold process_set_state.
  destruct (Z.eqb_spec p 0); [done|].
  rewrite (load_live _ _ _ Hr), bind_Ok.
  rewrite (poke_live _ _ _ _ Hr), bind_Ok.
  unfold process_remove_from_queue. rewrite Hq, bind_Ok.
  unfold process_add_to_queue. cbn [queue_of_state queue_head set_queue_head].
  destruct k as [tbl cnt npid rq bq zq sl cur m regs log]. ksimpl.
  ksimpl_in Hr. ksimpl_in Hrq. unfold live in Hrq. ksimpl_in Hrq.
  do 2 poke_now.
  assert (Hsome1 : ∀ (v : Process) x, is_Some (<[p := v]> m !! x) ↔ is_Some (m !! x)).
  { intros v x. destruct (decide (p = x)) as [->|].
    - rewrite lookup_insert_eq. split; eauto.
    - by rewrite lookup_insert_ne. }
  assert (Hnull : ∀ v : Process,
    (∀ x, x ≠ p → next <$> (<[p := v]> m !! x) = next <$> (m !! x)) ∧
    (∀ x, x ≠ p → state_at (<[p := v]> m) x = state_at m x) ∧
    (∀ x, x ≠ p → pid <$> (<[p := v]> m !! x) = pid <$> (m !! x)) ∧
    (∀ x, is_Some (<[p := v]> m !! x) ↔ is_Some (m !! x))).
  { intros v. unfold state_at.
    split; [|split; [|split]]; try (intros x Hx; by rewrite lookup_insert_ne); done. }
  destruct Hrq as [->|[Hne [rh Hrh]]].
  - change (0 =? 0) with true. cbv iota. rewrite bind_Ok. ksimpl.
    eexists. split; [reflexivity|]. split; [by rewrite lookup_insert_eq|]. apply Hnull.
  - destruct (Z.eqb_spec rq 0) as [->|Hrq0].
    + rewrite bind_Ok. ksimpl.
      eexists. split; [reflexivity|]. split; [by rewrite lookup_insert_eq|]. apply Hnull.
    + erewrite poke_live by (ksimpl; rewrite lookup_insert_ne by done; exact Hrh).
      rewrite bind_Ok. ksimpl.
      eexists. split; [reflexivity|].
      split; [by rewrite lookup_insert_ne, lookup_insert_eq by done|].
      unfold state_at.
      split; [|split; [|split]].
      * intros x Hx. destruct (decide (rq = x)) as [->|].
        -- by rewrite lookup_insert_eq, Hrh.
        -- by rewrite !lookup_insert_ne.
      * intros x Hx. destruct (decide (rq = x)) as [->|].
        -- by rewrite lookup_insert_eq, Hrh.
        -- by rewrite !lookup_insert_ne.
      * intros x Hx. destruct (decide (rq = x)) as [->|].
        -- by rewrite lookup_insert_eq, Hrh.
        -- by rewrite !lookup_insert_ne.
      * intros x. destruct (decide (rq = x)) as [->|].
        -- rewrite lookup_insert_eq. split; eauto.
        -- rewrite lookup_insert_ne by done. apply Hsome1.
Qed.

(** A creation that returns a record went all the way. *)
Lemma process_create_success_inv cfg nm prio entry k p k' :
  process_create cfg nm prio entry k = Ok (p, k') → p ≠ 0 →
  p = pcb_answer cfg k ∧ stack_answer cfg k ≠ 0 ∧ heap_answer cfg k ≠ 0 ∧
  process_count k < Z.of_nat (MAX_PROCESSES cfg) ∧
  ∃ e, process_set_state p PROC_STATE_READY
         (created cfg nm prio entry k p (stack_answer cfg k) (heap_answer cfg k))
       = Ok (e, k').
Proof.
  rewrite process_create_paths. intros H Hp.
  destruct (Z.leb_spec (Z.of_nat (MAX_PROCESSES cfg)) (process_count k));
    [by injection H as <- _|].
  destruct (Z.eqb_spec (pcb_answer cfg k) 0); [by injection H as <- _|].
  destruct (Z.eqb_spec (stack_answer cfg k) 0); [by injection H as <- _|].
  destruct (Z.eqb_spec (heap_answer cfg k) 0); [by injection H as <- _|].
  apply bind_inv in H as ([e k0] & Hs & H). injection H as <- <-.
  repeat split; try done. by exists e.
Qed.

(** A successful creation at a fresh address puts the record at the head
    of the ready queue and leaves every other record's [next], [state]
    and [pid] alone. *)
Lemma process_create_enqueues cfg nm prio entry k p k' q :
  process_create cfg nm prio entry k = Ok (p, k') → p ≠ 0 →
  pcbs k !! p = None →
  chain (pcbs k) (ready_queue k) q → all_ready (pcbs k) q →
  chain (pcbs k') (ready_queue k') (p :: q) ∧ all_ready (pcbs k') (p :: q) ∧
  select_last k' = select_last k ∧
  (∀ x, is_Some (pcbs k' !! x) ↔ x = p ∨ is_Some (pcbs k !! x)).
Proof.
  intros H Hp Hfresh Hc Hr.
  destruct (process_create_success_inv _ _ _ _ _ _ _ H Hp) as (Ep & Hs & Hh & Hcnt & e & Hset).
  set (k0 := created cfg nm prio entry k p (stack_answer cfg k) (heap_answer cfg k)) in *.
  assert (Hin : p ∉ q).
  { intros Hin. destruct (chain_live _ _ _ _ Hc Hin) as [r Hr']. congruence. }
  assert (Hrq : ready_queue k0 = 0 ∨ ready_queue k0 ≠ p ∧ live k0 (ready_queue k0)).
  { destruct q as [|h q'].
    - left. by apply chain_nil in Hc.
    - right. apply chain_cons in Hc as (Eh & Hh0 & r & Hr' & _). simpl. rewrite Eh.
      split; [intros ->; congruence|]. unfold live. simpl.
      rewrite lookup_insert_ne by (intros ->; congruence). by exists r. }
  destruct (enqueue_new k0 p (new_pcb cfg nm prio entry (next_pid k) (stack_answer cfg k)
                                (heap_answer cfg k)))
    as (m & Hset' & Hmp & Hnext & Hstate & _ & Hsome); [done| |done|done|].
  { simpl. by rewrite lookup_insert_eq. }
  rewrite Hset in Hset'. injection Hset' as -> ->. simpl.
  assert (Hchain : chain m (ready_queue k) q).
  { clear Hr. revert Hc Hin. generalize (ready_queue k). induction q as [|y q IH];
      intros h Hc Hin; [done|].
    apply chain_cons in Hc as (-> & Hy & ry & Hry & Hc).
    apply not_elem_of_cons in Hin as [Hne Hin].
    apply chain_cons. split; [done|]. split; [done|].
    specialize (Hnext y (ltac:(done))). simpl in Hnext.
    rewrite lookup_insert_ne, Hry in Hnext by done.
    destruct (m !! y) as [ry'|] eqn:Hy'; [|done]. injection Hnext as Hn.
    exists ry'. split; [done|]. rewrite Hn. by apply IH. }
  split; [|split; [|split; [done|]]].
  - apply chain_cons. split; [done|]. split; [done|]. eexists. split; [exact Hmp|done].
  - apply Forall_cons. split.
    + unfold state_at. by rewrite Hmp.
    + apply Forall_forall. intros x Hx.
      pose proof (proj1 (Forall_forall _ _) Hr x Hx) as Hsx.
      rewrite Hstate by (intros ->; done). unfold state_at. simpl.
      rewrite lookup_insert_ne by (intros ->; done). exact Hsx.
  - intros x. rewrite Hsome. simpl. destruct (decide (p = x)) as [->|Hne].
    + rewrite lookup_insert_eq. split; eauto.
    + rewrite lookup_insert_ne by done. split; [by right|]. by intros [->|].
Qed.

(** ** The scenario: idle, then A, then B *)

Lemma process_manager_init_inv cfg e k1 :
  process_manager_init cfg (boot cfg) = Ok (e, k1) →
  e = ERR_SUCCESS ∧ idle_of cfg ≠ 0 ∧
  process_create cfg "idle" 0 0 (boot cfg) = Ok (idle_of cfg, k1).
Proof.
  unfold process_manager_init.
  change (set_next_pid 1 (set_process_count 0
            (set_process_table (replicate (MAX_PROCESSES cfg) 0) (boot cfg))))
    with (boot cfg).
  intros H. apply bind_inv in H as ([p k] & Hc & H).
  destruct (Z.eqb_spec p 0) as [|Hp]; [done|]. injection H as <- <-.
  destruct (process_create_success_inv _ _ _ _ _ _ _ Hc Hp) as (-> & _).
  done.
Qed.

Lemma rotate_nat_add_mod3 i :
  rotate_nat_add 0 (S i) 3 = (S i mod 3)%nat.
Proof.
  unfold rotate_nat_add. rewrite Z.add_0_l, <- Nat2Z.inj_mod. apply Nat2Z.id.
Qed.

(** C3, as the code has it: idle is created like any other process and
    sits in the ready queue, so the rotation is A, idle, B, A, idle, B,
    ... from the first call on. *)
Theorem scenario_rotation_includes_idle
    (cfg : Platform) (e : ErrorCode) (k1 k2 k3 : Kernel) (ea eb pa pb : Z) :
  process_manager_init cfg (boot cfg) = Ok (e, k1) →
  process_create cfg "A" 1 ea k1 = Ok (pa, k2) → pa ≠ 0 →
  process_create cfg "B" 1 eb k2 = Ok (pb, k3) → pb ≠ 0 →
  pa ≠ idle_of cfg → pb ≠ idle_of cfg → pb ≠ pa →
  ∀ n, ∃ rs k',
    select_run n k3 = Ok (rs, k') ∧ length rs = n ∧
    ∀ i, (i < n)%nat → rs !! i = Some (rotation_A_idle_B pa (idle_of cfg) pb i).
Proof.
  intros Hinit HA HpA HB HpB Hai Hbi Hba n.
  destruct (process_manager_init_inv _ _ _ Hinit) as (_ & Hi0 & Hidle).
  destruct (process_create_enqueues _ _ _ _ _ _ _ [] Hidle Hi0)
    as (C1 & R1 & L1 & D1); [done|done|by apply Forall_nil|].
  assert (F2 : pcbs k1 !! pa = None).
  { apply eq_None_not_Some. rewrite D1. intros [?|[? ?]]; done. }
  destruct (process_create_enqueues _ _ _ _ _ _ _ _ HA HpA F2 C1 R1)
    as (C2 & R2 & L2 & D2).
  assert (F3 : pcbs k2 !! pb = None).
  { apply eq_None_not_Some. rewrite D2, D1. intros [?|[?|[? ?]]]; done. }
  destruct (process_create_enqueues _ _ _ _ _ _ _ _ HB HpB F3 C2 R2)
    as (C3 & R3 & L3 & D3).
  destruct (select_run_null_cursor k3 [pb; pa; idle_of cfg] n C3)
    as (rs & k' & Hrun & Hlen & Hrs); [done|done|by rewrite L3, L2, L1|].
  exists rs, k'. split; [done|]. split; [done|]. intros i Hi.
  rewrite Hrs by done. cbn [length]. rewrite rotate_nat_add_mod3.
  unfold rotation_A_idle_B.
  pose proof (Nat.mod_upper_bound i 3 ltac:(lia)) as Hb.
  replace (S i) with (1 + i)%nat by lia. rewrite Nat.Div0.add_mod.
  by destruct (i mod 3)%nat as [|[|[|?]]]; [| | |lia].
Qed.

Lemma scenario_rotation_demo :
  ∃ rs k',
    select_run 6 demo_k3 = Ok (rs, k') ∧ length rs = 6%nat ∧
    ∀ i, (i < 6)%nat → rs !! i = Some (rotation_A_idle_B demo_A demo_idle demo_B i).
Proof.
  apply (scenario_rotation_includes_idle demo ERR_SUCCESS demo_k1
           (after demo [OpCreate "A" 1 100] demo_k1) demo_k3 100 200 demo_A demo_B);
    by vm_compute.
Defined.

(** C3, as it is worded, fails: the second call returns idle, not B. *)
Lemma scenario_does_not_alternate : ¬ alternates_A_B demo.
Proof.
  intros H.
  specialize (H ERR_SUCCESS demo_k1 100 demo_A
                (after demo [OpCreate "A" 1 100] demo_k1) 200 demo_B demo_k3 2%nat
                [demo_A; demo_idle]
                (set_select_last demo_idle demo_k3)).
  specialize (H ltac:(by vm_compute) ltac:(by vm_compute) ltac:(by vm_compute)
                ltac:(by vm_compute) 1%nat ltac:(lia)).
  by vm_compute in H.
Qed.

(** ** Reaping *)

Lemma released_cons m z zs :
  released m (z :: zs) =
  match m !! z with
  | Some r =>
    (if stack_base r =? 0 then [] else [Free (stack_base r)]) ++
    (if heap_base r =? 0 then [] else [Free (heap_base r)]) ++ [Free z]
  | None => []
  end ++ released m zs.
Proof. done. Qed.

Lemma released_delete m x zs : x ∉ zs → released (delete x m) zs = released m zs.
Proof.
  induction zs as [|z zs IH]; intros Hx; [done|].
  apply not_elem_of_cons in Hx as [Hne Hx].
  rewrite !released_cons, lookup_delete_ne by done. by rewrite IH.
Qed.

(** The loop of [process_reap_zombies] on a zombie queue that is a chain. *)
Lemma reap_loop_chain zs : ∀ fuel curr k,
  chain (pcbs k) curr zs → (length zs < fuel)%nat →
  reap_loop fuel curr k = Ok (reaped k zs).
Proof.
  induction zs as [|z zs IH]; intros fuel curr k Hc Hf.
  - apply chain_nil in Hc as ->. destruct fuel; [simpl in Hf; lia|].
    simpl. unfold reaped, released. simpl. rewrite app_nil_r. by destruct k.
  - pose proof (chain_NoDup _ _ _ Hc) as Hnd. apply NoDup_cons in Hnd as [Hz _].
    apply chain_cons in Hc as (-> & Hz0 & r & Hr & Hc).
    destruct fuel; [simpl in Hf; lia|]. simpl in Hf. simpl reap_loop.
    destruct (Z.eqb_spec z 0); [done|]. rewrite (load_live _ _ _ Hr), bind_Ok.
    rewrite IH.
    + f_equal. unfold reaped. rewrite released_cons, Hr.
      destruct (stack_base r =? 0), (heap_base r =? 0); ksimpl; simpl;
        rewrite released_delete by done; by rewrite <- ?app_assoc.
    + destruct (stack_base r =? 0), (heap_base r =? 0); ksimpl;
        by apply chain_delete.
    + lia.
Qed.

Lemma lookup_foldl_delete (m : gmap Z Process) zs x :
  foldl (λ m z, delete z m) m zs !! x = if decide (x ∈ zs) then None else m !! x.
Proof.
  revert m. induction zs as [|z zs IH]; intros m; simpl; [done|].
  rewrite IH. destruct (decide (x = z)) as [->|Hne].
  - rewrite lookup_delete_eq. rewrite (decide_True (P := z ∈ z :: zs)) by left.
    by case_decide.
  - rewrite lookup_delete_ne by done.
    destruct (decide (x ∈ zs)).
    + rewrite decide_True; [done|by right].
    + rewrite decide_False; [done|]. by intros [?|?]%elem_of_cons.
Qed.

(** *** The table after removals *)

Lemma occupied_cons p tbl :
  occupied (p :: tbl) = if decide (p ≠ 0) then p :: occupied tbl else occupied tbl.
Proof. unfold occupied. by rewrite filter_cons. Qed.

Lemma elem_of_occupied p tbl : p ∈ occupied tbl ↔ p ≠ 0 ∧ p ∈ tbl.
Proof. unfold occupied. by rewrite list_elem_of_filter. Qed.

Lemma filter_all (P : Z → Prop) `{!∀ x, Decision (P x)} (l : list Z) :
  (∀ x, x ∈ l → P x) → filter P l = l.
Proof.
  induction l as [|y l IH]; intros Hall; [done|].
  rewrite filter_cons_True by (apply Hall; left). f_equal. apply IH.
  intros x Hx. apply Hall. by right.
Qed.

Lemma table_remove_occupied z tbl :
  z ≠ 0 → NoDup (occupied tbl) →
  occupied (table_remove z tbl) = filter (λ p, p ≠ z) (occupied tbl).
Proof.
  intros Hz. induction tbl as [|slot tbl IH]; intros Hnd; [done|]. simpl.
  destruct (Z.eqb_spec slot z) as [->|Hne].
  - rewrite !occupied_cons, decide_False, decide_True by (done || by intros []).
    rewrite occupied_cons, decide_True in Hnd by done.
    apply NoDup_cons in Hnd as [Hnin _].
    rewrite filter_cons, decide_False by (by intros []).
    symmetry. apply filter_all. by intros x Hx ->.
  - rewrite !occupied_cons. rewrite occupied_cons in Hnd.
    destruct (decide (slot ≠ 0)).
    + apply NoDup_cons in Hnd as [_ Hnd].
      rewrite filter_cons, decide_True by done. f_equal. by apply IH.
    + by apply IH.
Qed.

Lemma foldl_table_remove_occupied zs : ∀ tbl,
  Forall (λ z, z ≠ 0) zs → NoDup (occupied tbl) →
  occupied (foldl (λ tbl z, table_remove z tbl) tbl zs)
  = filter (λ p, p ∉ zs) (occupied tbl).
Proof.
  induction zs as [|z zs IH]; intros tbl Hz Hnd; simpl.
  - symmetry. apply filter_all. intros x _. apply not_elem_of_nil.
  - apply Forall_cons in Hz as [Hz0 Hz].
    rewrite IH, table_remove_occupied by
      (done || (rewrite table_remove_occupied by done; by apply NoDup_filter)).
    rewrite list_filter_filter. apply list_filter_iff. intros x.
    rewrite not_elem_of_cons. tauto.
Qed.


Lemma chain_nonzero m p l : chain m p l → Forall (λ z, z ≠ 0) l.
Proof.
  intros Hc. apply Forall_forall. intros x (i & Hi)%list_elem_of_lookup.
  by destruct (chain_lookup _ _ _ _ _ Hc Hi) as (? & _).
Qed.




Lemma reap_zombies_chain k zs :
  chain (pcbs k) (zombie_queue k) zs →
  process_reap_zombies k = Ok (set_zombie_queue 0 (reaped k zs)).
Proof.
  intros Hc. unfold process_reap_zombies.
  by rewrite (reap_loop_chain zs) by (done || (pose proof (chain_length _ _ _ Hc); lia)).
Qed.



(** ** Idle fallback *)

(** [process_manager_init] leaves idle in the first slot, under its
    name, when the [name] array can hold it. *)
Lemma process_manager_init_idle cfg e k1 :
  process_manager_init cfg (boot cfg) = Ok (e, k1) →
  (5 ≤ sizeof_name cfg)%nat →
  idle_is k1 (idle_of cfg).
Proof.
  intros Hinit Hsz.
  destruct (process_manager_init_inv _ _ _ Hinit) as (_ & Hi0 & Hidle).
  destruct (process_create_success_inv _ _ _ _ _ _ _ Hidle Hi0)
    as (_ & _ & _ & Hcnt & e' & Hset).
  destruct (enqueue_new
              (created cfg "idle" 0 0 (boot cfg) (idle_of cfg)
                 (stack_answer cfg (boot cfg)) (heap_answer cfg (boot cfg)))
              (idle_of cfg)
              (new_pcb cfg "idle" 0 0 (next_pid (boot cfg))
                 (stack_answer cfg (boot cfg)) (heap_answer cfg (boot cfg))) Hi0)
    as (m & Hset' & Hm & _); [apply lookup_insert_eq|done|by left|].
  rewrite Hset in Hset'. injection Hset' as -> ->.
  split; [done|]. split.
  - cbn [process_table set_ready_queue set_pcbs created boot]. cbn [boot process_count] in Hcnt.
    destruct (MAX_PROCESSES cfg) as [|n]; [simpl in Hcnt; lia|]. reflexivity.
  - simpl. rewrite Hm. simpl. f_equal. unfold strncpy.
    destruct (sizeof_name cfg) as [|[|[|[|[|n]]]]]; try lia. reflexivity.
Qed.

Lemma select_next_frame k p k' :
  scheduler_select_next k = Ok (p, k') →
  k' = set_select_last (select_last k') k.
Proof.
  unfold scheduler_select_next. intros H.
  destruct (ready_queue k =? 0).
  { apply bind_inv in H as (idle & _ & [= _ <-]). by destruct k. }
  apply bind_inv in H as (r & _ & H).
  apply bind_inv in H as (n1 & _ & H).
  apply bind_inv in H as (n2 & _ & H).
  destruct (n2 =? 0).
  - apply bind_inv in H as (idle & _ & [= _ <-]).
    destruct (select_last k =? 0); by destruct k.
  - injection H as _ <-. destruct (select_last k =? 0); by destruct k.
Qed.

(** C8: with an empty ready queue [scheduler_select_next] returns the
    idle process and changes nothing; and whatever it returns, it leaves
    the records, the three queues and the table as they were (only its
    cursor moves), so it removes idle from nowhere. *)
Theorem select_next_idle_fallback (k : Kernel) (idle : Z) :
  idle_is k idle →
  (ready_queue k = 0 → scheduler_select_next k = Ok (idle, k)) ∧
  (∀ p k', scheduler_select_next k = Ok (p, k') →
     pcbs k' = pcbs k ∧ ready_queue k' = ready_queue k ∧
     blocked_queue k' = blocked_queue k ∧ zombie_queue k' = zombie_queue k ∧
     process_table k' = process_table k).
Proof.
  intros (Hnz & Hslot & Hname). split.
  - intros Hrq. unfold scheduler_select_next. rewrite Hrq.
    change (0 =? 0) with true. cbv iota.
    unfold process_find. destruct (process_table k) as [|slot tbl]; [done|].
    injection Hslot as ->. simpl.
    destruct (Z.eqb_spec idle 0); [done|].
    destruct (pcbs k !! idle) as [r|] eqn:Hr; [|done].
    rewrite (load_live _ _ _ Hr). simpl. injection Hname as ->. done.
  - intros p k' H. apply select_next_frame in H. rewrite H. done.
Qed.

Lemma select_next_idle_fallback_demo :
  (ready_queue demo_idle_running = 0 →
   scheduler_select_next demo_idle_running = Ok (demo_idle, demo_idle_running)) ∧
  (∀ p k', scheduler_select_next demo_idle_running = Ok (p, k') →
     pcbs k' = pcbs demo_idle_running ∧
     ready_queue k' = ready_queue demo_idle_running ∧
     blocked_queue k' = blocked_queue demo_idle_running ∧
     zombie_queue k' = zombie_queue demo_idle_running ∧
     process_table k' = process_table demo_idle_running).
Proof.
  apply (select_next_idle_fallback demo_idle_running demo_idle). by_decide.
Defined.

(** ** Queue consistency and the context switch *)

(** C1: dispatching A through [process_switch] leaves A RUNNING and still
    linked in the ready queue: the state-to-queue mapping, which held
    before the switch, no longer holds after it. *)
Theorem process_switch_breaks_queue_consistency :
  let k := after demo [OpSelectNext] demo_k3 in
  let k' := after demo dispatch_A demo_k3 in
  queue_consistent k ∧
  process_switch 0 demo_A k = Ok k' ∧
  state_at (pcbs k') demo_A = Some PROC_STATE_RUNNING ∧
  demo_A ∈ queue_members ReadyQ k' ∧
  ¬ queue_consistent k'.
Proof.
  split; [by_decide|]. split; [by vm_compute|].
  split; [by vm_compute|]. split; [by_decide|].
  by_decide_not.
Qed.

(** What the stale link costs: when A then exits, [process_set_state]
    takes it for unqueued (it is RUNNING), links it into the zombie queue
    and so cuts the ready queue behind it: idle is READY and no longer
    reachable from the head, and A is on both lists. *)
Lemma switch_then_exit_cuts_ready_queue :
  let k := after demo (dispatch_A ++ [OpSetState demo_A PROC_STATE_ZOMBIE]) demo_k3 in
  state_at (pcbs k) demo_idle = Some PROC_STATE_READY ∧
  (demo_idle ∉ queue_members ReadyQ k) ∧
  demo_A ∈ queue_members ReadyQ k ∧
  demo_A ∈ queue_members ZombieQ k.
Proof.
  split; [by vm_compute|]. split; [by_decide_not|]. split; by_decide.
Qed.

(** ** Pids *)

Lemma pid_frame_refl k : pid_frame k k.
Proof. by split. Qed.

Lemma pid_frame_trans k1 k2 k3 : pid_frame k1 k2 → pid_frame k2 k3 → pid_frame k1 k3.
Proof.
  intros [N1 P1] [N2 P2]. split; [congruence|]. intros x. by rewrite P2.
Qed.

Lemma poke_pid_frame p f k k' :
  (∀ r, pid (f r) = pid r) → poke p f k = Ok k' → pid_frame k k'.
Proof.
  intros Hf (r & Hr & ->)%poke_inv. split; [done|]. intros x. simpl.
  destruct (decide (p = x)) as [->|Hne].
  - rewrite lookup_insert_eq, Hr. simpl. by rewrite Hf.
  - by rewrite lookup_insert_ne.
Qed.

Lemma set_queue_head_pid_frame q v k : pid_frame k (set_queue_head q v k).
Proof. by destruct q. Qed.

Ltac poke_frame := eapply poke_pid_frame; [|eassumption]; by intros [].

Lemma remove_pid_frame proc s k k' :
  process_remove_from_queue proc s k = Ok k' → pid_frame k k'.
Proof.
  unfold process_remove_from_queue. intros H.
  destruct (queue_of_state s) as [q|]; [|injection H as <-; apply pid_frame_refl].
  apply bind_inv in H as (k1 & H1 & H).
  apply bind_inv in H as (k2 & H2 & H3).
  assert (F1 : pid_frame k k1).
  { destruct (queue_head q k =? proc).
    - apply bind_inv in H1 as (r & _ & H1).
      destruct (queue_head q (set_queue_head q (next r) k) =? 0).
      + injection H1 as <-. apply set_queue_head_pid_frame.
      + eapply pid_frame_trans; [apply set_queue_head_pid_frame|].
        poke_frame.
    - apply bind_inv in H1 as (r & _ & H1).
      apply bind_inv in H1 as (k0 & H0 & H1).
      apply bind_inv in H1 as (r0 & _ & H1).
      assert (F0 : pid_frame k k0).
      { destruct (prev r =? 0); [injection H0 as <-; apply pid_frame_refl|].
        poke_frame. }
      eapply pid_frame_trans; [exact F0|].
      destruct (next r0 =? 0); [injection H1 as <-; apply pid_frame_refl|].
      poke_frame. }
  eapply pid_frame_trans; [exact F1|].
  eapply pid_frame_trans; [poke_frame|poke_frame].
Qed.

Lemma add_pid_frame proc s k k' :
  process_add_to_queue proc s k = Ok k' → pid_frame k k'.
Proof.
  unfold process_add_to_queue. intros H.
  destruct (queue_of_state s) as [q|]; [|injection H as <-; apply pid_frame_refl].
  apply bind_inv in H as (k1 & H1 & H).
  apply bind_inv in H as (k2 & H2 & H).
  apply bind_inv in H as (k3 & H3 & H). injection H as <-.
  eapply pid_frame_trans; [poke_frame|].
  eapply pid_frame_trans; [poke_frame|].
  eapply pid_frame_trans; [|apply set_queue_head_pid_frame].
  destruct (queue_head q k2 =? 0); [injection H3 as <-; apply pid_frame_refl|].
  poke_frame.
Qed.

Lemma process_set_state_pid_frame proc s k e k' :
  process_set_state proc s k = Ok (e, k') → pid_frame k k'.
Proof.
  unfold process_set_state. intros H.
  destruct (proc =? 0); [injection H as _ <-; apply pid_frame_refl|].
  apply bind_inv in H as (r & _ & H).
  apply bind_inv in H as (k1 & H1 & H).
  apply bind_inv in H as (k2 & H2 & H).
  apply bind_inv in H as (k3 & H3 & H). injection H as _ <-.
  eapply pid_frame_trans; [poke_frame|].
  eapply pid_frame_trans; [by eapply remove_pid_frame|].
  by eapply add_pid_frame.
Qed.

Lemma process_switch_next_pid from to k k' :
  process_switch from to k = Ok k' → next_pid k' = next_pid k.
Proof.
  unfold process_switch. intros H.
  destruct (to =? 0); [by injection H as <-|].
  apply bind_inv in H as (k1 & H1 & H).
  apply bind_inv in H as (k2 & H2 & H).
  unfold process_restore_context in H. apply bind_inv in H as (r & _ & [= <-]).
  apply poke_inv in H2 as (r2 & _ & ->). simpl.
  destruct (from =? 0); [by injection H1 as <-|].
  apply bind_inv in H1 as (k0 & H0 & H1).
  apply poke_inv in H1 as (r1 & _ & ->). apply poke_inv in H0 as (r0 & _ & ->). done.
Qed.

Lemma reap_loop_next_pid fuel : ∀ curr k k',
  reap_loop fuel curr k = Ok k' → next_pid k' = next_pid k.
Proof.
  induction fuel as [|fuel IH]; intros curr k k' H; [done|]. simpl in H.
  destruct (curr =? 0); [by injection H as <-|].
  apply bind_inv in H as (r & _ & H). apply IH in H. rewrite H.
  by destruct (stack_base r =? 0), (heap_base r =? 0).
Qed.

(** What one operation does to the pid counter, and the pid it reports. *)
Lemma step_next_pid cfg op k o k' :
  step cfg op k = Ok (o, k') →
  (o = None ∧ (next_pid k' = next_pid k ∨
               is_create op = true ∧ next_pid k' = wrap32 (next_pid k + 1))) ∨
  (o = Some (next_pid k) ∧ is_create op = true ∧ next_pid k' = wrap32 (next_pid k + 1)).
Proof.
  destruct op as [nm prio entry|proc s| |from to|]; simpl; intros H.
  - apply bind_inv in H as ([p k1] & Hc & H).
    destruct (Z.eqb_spec p 0) as [->|Hp].
    + injection H as <- <-. left. split; [done|].
      rewrite process_create_paths in Hc.
      destruct (Z.of_nat (MAX_PROCESSES cfg) <=? process_count k);
        [injection Hc as <-; by left|].
      destruct (pcb_answer cfg k =? 0); [injection Hc as <-; by left|].
      destruct (stack_answer cfg k =? 0); [injection Hc as <-; by right|].
      destruct (heap_answer cfg k =? 0); [injection Hc as <-; by right|].
      apply bind_inv in Hc as ([e k2] & Hs & Hc). injection Hc as _ <-.
      apply process_set_state_pid_frame in Hs as [Hn _]. right. by rewrite Hn.
    + apply bind_inv in H as (r & Hr%load_inv & H). injection H as <- <-.
      destruct (process_create_success_inv _ _ _ _ _ _ _ Hc Hp)
        as (_ & _ & _ & _ & e & Hs).
      apply process_set_state_pid_frame in Hs as [Hn Hpid].
      right. specialize (Hpid p). rewrite Hr in Hpid. simpl in Hpid.
      rewrite lookup_insert_eq in Hpid. injection Hpid as ->. by rewrite Hn.
  - apply bind_inv in H as ([e k1] & Hs & H). injection H as <- <-.
    apply process_set_state_pid_frame in Hs as [Hn _]. left. by auto.
  - apply bind_inv in H as ([p k1] & Hs & H). injection H as <- <-.
    apply select_next_frame in Hs. rewrite Hs. left. by auto.
  - apply bind_inv in H as (k1 & Hs & H). injection H as <- <-.
    apply process_switch_next_pid in Hs. left. by auto.
  - apply bind_inv in H as (k1 & Hs & H). injection H as <- <-.
    unfold process_reap_zombies in Hs. apply bind_inv in Hs as (k2 & Hs & [= <-]).
    apply reap_loop_next_pid in Hs. left. by auto.
Qed.

Lemma run_pids cfg ops : ∀ k pids k',
  run cfg ops k = Ok (pids, k') →
  0 ≤ next_pid k → next_pid k + Z.of_nat (creations ops) < 2 ^ 32 →
  next_pid k ≤ next_pid k' ≤ next_pid k + Z.of_nat (creations ops) ∧
  Forall (λ p, next_pid k ≤ p < next_pid k') pids ∧
  StronglySorted Z.lt pids.
Proof.
  induction ops as [|op ops IH]; intros k pids k' H H0 Hb.
  { injection H as <- <-. unfold creations. simpl. split; [lia|].
    split; constructor. }
  simpl in H. apply bind_inv in H as ([o k1] & Hstep & H).
  apply bind_inv in H as ([ps k2] & Hrun & H). injection H as <- <-.
  assert (Hcr : creations (op :: ops)
                = ((if is_create op then 1 else 0) + creations ops)%nat).
  { unfold creations. rewrite filter_cons. by destruct (is_create op). }
  rewrite Hcr in *.
  assert (Hw : is_create op = true → wrap32 (next_pid k + 1) = next_pid k + 1).
  { intros E. rewrite E in Hb. unfold wrap32. apply Z.mod_small. lia. }
  apply step_next_pid in Hstep as [[-> Hn]|(-> & Hc & Hn)].
  - assert (Hk1 : next_pid k ≤ next_pid k1 ≤ next_pid k + (if is_create op then 1 else 0)).
    { destruct Hn as [->|[Hc ->]]; [destruct (is_create op); lia|].
      rewrite Hw, Hc by done. lia. }
    destruct (IH _ _ _ Hrun) as (Hr & Hf & Hs); [lia|destruct (is_create op); lia|].
    simpl. split; [destruct (is_create op); lia|]. split; [|done].
    eapply Forall_impl; [exact Hf|]. simpl. intros; lia.
  - rewrite Hw in Hn by done. rewrite Hc in *.
    destruct (IH _ _ _ Hrun) as (Hr & Hf & Hs); [lia|lia|].
    simpl. split; [lia|]. split.
    + constructor; [lia|]. eapply Forall_impl; [exact Hf|]. simpl. intros; lia.
    + constructor; [done|]. eapply Forall_impl; [exact Hf|]. simpl. intros; lia.
Qed.

(** C5, as the code has it: along any run of the core, the pids of the
    successful creations increase strictly, and none occurs twice, as
    long as the 32-bit counter [next_pid] has not come round. *)
Theorem pids_increase_until_wrap
    (cfg : Platform) (ops : list Op) (k k' : Kernel) (pids : list Z) :
  run cfg ops k = Ok (pids, k') →
  0 ≤ next_pid k → next_pid k + Z.of_nat (creations ops) < 2 ^ 32 →
  StronglySorted Z.lt pids ∧ NoDup pids.
Proof.
  intros H H0 Hb. destruct (run_pids cfg ops k pids k' H H0 Hb) as (_ & _ & Hs).
  split; [done|]. clear -Hs. induction Hs as [|p ps Hs IH Hall]; constructor; [|done].
  intros Hin. pose proof (proj1 (Forall_forall _ _) Hall p Hin). lia.
Qed.

Lemma pids_increase_until_wrap_demo :
  run demo [OpCreate "A" 1 100; OpSelectNext; OpCreate "B" 1 200] demo_k1
  = Ok ([2; 3], after demo [OpCreate "A" 1 100; OpSelectNext; OpCreate "B" 1 200] demo_k1) ∧
  StronglySorted Z.lt [2; 3] ∧ NoDup [2; 3].
Proof.
  split; [by vm_compute|].
  apply (pids_increase_until_wrap demo
           [OpCreate "A" 1 100; OpSelectNext; OpCreate "B" 1 200] demo_k1
           (after demo [OpCreate "A" 1 100; OpSelectNext; OpCreate "B" 1 200] demo_k1)
           [2; 3]); by vm_compute.
Defined.

(** ** The pid counter comes round *)

Lemma step_create_refused_stack cfg nm prio entry k :
  process_count k < Z.of_nat (MAX_PROCESSES cfg) →
  pcb_answer cfg k ≠ 0 → stack_answer cfg k = 0 →
  step cfg (OpCreate nm prio entry) k = Ok (None, refused_stack cfg k).
Proof.
  intros Hc Hp Hs. simpl. rewrite process_create_paths.
  destruct (Z.leb_spec (Z.of_nat (MAX_PROCESSES cfg)) (process_count k)); [lia|].
  destruct (Z.eqb_spec (pcb_answer cfg k) 0); [done|].
  rewrite Hs. done.
Qed.

Lemma step_create_success cfg nm prio entry k :
  process_count k < Z.of_nat (MAX_PROCESSES cfg) →
  pcb_answer cfg k ≠ 0 → stack_answer cfg k ≠ 0 → heap_answer cfg k ≠ 0 →
  pcbs k !! pcb_answer cfg k = None →
  null_or_live k (ready_queue k) →
  ∃ k', step cfg (OpCreate nm prio entry) k = Ok (Some (next_pid k), k') ∧
    process_count k' = wrap32 (process_count k + 1) ∧
    next_pid k' = wrap32 (next_pid k + 1) ∧
    length (mem_log k') = (length (mem_log k) + 3)%nat ∧
    ready_queue k' = pcb_answer cfg k ∧
    (∀ x, is_Some (pcbs k' !! x) ↔ x = pcb_answer cfg k ∨ is_Some (pcbs k !! x)).
Proof.
  intros Hc Hp Hs Hh Hfresh Hrq. simpl. rewrite process_create_paths.
  destruct (Z.leb_spec (Z.of_nat (MAX_PROCESSES cfg)) (process_count k)); [lia|].
  destruct (Z.eqb_spec (pcb_answer cfg k) 0); [done|].
  destruct (Z.eqb_spec (stack_answer cfg k) 0); [done|].
  destruct (Z.eqb_spec (heap_answer cfg k) 0); [done|].
  set (p := pcb_answer cfg k) in *.
  set (k0 := created cfg nm prio entry k p (stack_answer cfg k) (heap_answer cfg k)).
  destruct (enqueue_new k0 p
              (new_pcb cfg nm prio entry (next_pid k) (stack_answer cfg k)
                 (heap_answer cfg k)))
    as (m & Hset & Hm & _ & _ & _ & Hsome); [done|apply lookup_insert_eq|done| |].
  { destruct Hrq as [?|[r Hr]]; [by left|right]. simpl.
    split; [intros E; rewrite E in Hr; congruence|].
    unfold live. simpl. rewrite lookup_insert_ne by (intros E; rewrite <- E in Hr; congruence).
    by exists r. }
  rewrite Hset. simpl. destruct (Z.eqb_spec p 0); [done|].
  unfold load. simpl. rewrite Hm. simpl.
  eexists. split; [reflexivity|]. simpl.
  split; [done|]. split; [done|]. split; [rewrite length_app; simpl; lia|].
  split; [done|]. intros x. rewrite Hsome. simpl.
  destruct (decide (p = x)) as [->|Hne].
  - rewrite lookup_insert_eq. split; eauto.
  - rewrite lookup_insert_ne by done. split; [by right|]. by intros [->|].
Qed.

Lemma burn_count_Z : Z.of_nat burn_count = 2 ^ 32 - 3.
Proof. unfold burn_count. apply Z2Nat.id. lia. Qed.

Lemma burn_end_eq : burn_end = 3 * (2 ^ 32 - 3) + 4.
Proof. reflexivity. Qed.

Lemma wrap_cfg_answers k n :
  Z.of_nat (length (mem_log k)) = n →
  pcb_answer wrap_cfg k =
    (if n =? 0 then 4096 else if n <? burn_end - 1 then 8192
     else if n =? burn_end - 1 then 12288 else 16384) ∧
  stack_answer wrap_cfg k =
    (if (4 <=? n + 1) && (n + 1 <? burn_end) then 0
     else if n + 1 <? 4 then 1048576
     else if n + 1 <? burn_end + 3 then 1179648 else 1310720) ∧
  heap_answer wrap_cfg k =
    (if n + 2 <? 4 then 1064960
     else if n + 2 <? burn_end + 3 then 1196032 else 1327104).
Proof.
  intros Hn. unfold heap_answer, stack_answer, pcb_answer.
  cbn [wrap_cfg memory_alloc_answer sizeof_Process KB].
  unfold wrap_alloc. rewrite !length_app. cbn [length].
  change (16 * 1024) with 16384. change (64 * 1024) with 65536.
  change (256 =? 16384) with false. change (256 =? 65536) with false.
  change (16384 =? 16384) with true. change (65536 =? 16384) with false.
  change (65536 =? 65536) with true. cbv iota.
  replace (Z.of_nat (length (mem_log k) + 1)) with (n + 1) by lia.
  replace (Z.of_nat (length (mem_log k) + 1 + 1)) with (n + 2) by lia.
  by rewrite Hn.
Qed.

Opaque burn_count.

(** Every refused creation consumes a pid and nothing else. *)
Lemma burn_run (n : nat) : ∀ i k,
  burn_inv i k → 0 ≤ i → i + Z.of_nat n ≤ 2 ^ 32 - 3 →
  ∃ k', run wrap_cfg (replicate n (OpCreate "X" 1 0)) k = Ok ([], k') ∧
        burn_inv (i + Z.of_nat n) k'.
Proof.
  induction n as [|n IH]; intros i k Hinv H0 Hb.
  { exists k. split; [done|]. by replace (i + Z.of_nat 0) with i by lia. }
  destruct Hinv as (Hcnt & Hpid & Hlen & Hrq & Hdom).
  destruct (wrap_cfg_answers k _ Hlen) as (Hp & Hs & _).
  rewrite burn_end_eq in *.
  assert (Hp' : pcb_answer wrap_cfg k = 8192).
  { rewrite Hp. destruct (Z.eqb_spec (3 + 3 * i) 0); [lia|].
    destruct (Z.ltb_spec (3 + 3 * i) (3 * (2 ^ 32 - 3) + 4 - 1)); [done|lia]. }
  assert (Hs' : stack_answer wrap_cfg k = 0).
  { rewrite Hs. destruct (Z.leb_spec 4 (3 + 3 * i + 1)); [|lia].
    destruct (Z.ltb_spec (3 + 3 * i + 1) (3 * (2 ^ 32 - 3) + 4)); [done|lia]. }
  assert (Hstep : step wrap_cfg (OpCreate "X" 1 0) k = Ok (None, refused_stack wrap_cfg k)).
  { apply step_create_refused_stack; [rewrite Hcnt; by cbn|by rewrite Hp'|done]. }
  destruct (IH (i + 1) (refused_stack wrap_cfg k)) as (k' & Hrun & Hinv'); [|lia|lia|].
  { unfold burn_inv. cbn [refused_stack process_count next_pid mem_log ready_queue pcbs].
    split; [done|]. split; [rewrite Hpid; unfold wrap32; rewrite Z.mod_small; lia|].
    split; [rewrite length_app; cbn [length]; lia|]. split; [done|].
    intros x. rewrite Hp'. destruct (decide (x = 8192)) as [->|Hne].
    - rewrite lookup_delete_eq. split; [by intros [? ?]|done].
    - rewrite lookup_delete_ne by done. apply Hdom. }
  exists k'. split.
  - cbn [replicate run]. rewrite Hstep, bind_Ok. cbn beta iota. rewrite Hrun. done.
  - by replace (i + Z.of_nat (S n)) with (i + 1 + Z.of_nat n) by lia.
Qed.

Lemma run_app cfg ops1 : ∀ ops2 k,
  run cfg (ops1 ++ ops2) k =
  '(p1, k1) ← run cfg ops1 k; '(p2, k2) ← run cfg ops2 k1; Ok (p1 ++ p2, k2).
Proof.
  induction ops1 as [|op ops1 IH]; intros ops2 k.
  { simpl. destruct (run cfg ops2 k) as [[p2 k2]|]; done. }
  simpl. destruct (step cfg op k) as [[o k1]|]; [|done]. simpl.
  rewrite IH. destruct (run cfg ops1 k1) as [[p1 k1']|]; [|done]. simpl.
  destruct (run cfg ops2 k1') as [[p2 k2]|]; [|done]. simpl.
  by rewrite app_assoc.
Qed.

(** After the refused creations the counter stands at [2^32 - 1]: A
    receives that pid, and B receives pid 0. *)
Lemma wrap_run_pids :
  ∃ k', run wrap_cfg wrap_ops (after_init wrap_cfg) = Ok ([4294967295; 0], k').
Proof.
  assert (Hinit : process_manager_init wrap_cfg (boot wrap_cfg)
                  = Ok (ERR_SUCCESS, after_init wrap_cfg)) by (by vm_compute).
  assert (Hinv : burn_inv 0 (after_init wrap_cfg)).
  { destruct (process_manager_init_inv _ _ _ Hinit) as (_ & Hi0 & Hidle).
    destruct (process_create_enqueues _ _ _ _ _ _ _ [] Hidle Hi0)
      as (_ & _ & _ & D1); [done|done|by apply Forall_nil|].
    split; [by vm_compute|]. split; [by vm_compute|]. split; [by vm_compute|].
    split; [by vm_compute|]. intros x. rewrite D1.
    change (idle_of wrap_cfg) with 4096.
    change (pcbs (boot wrap_cfg)) with (∅ : gmap Z Process). rewrite lookup_empty.
    split; [by intros [?|[? ?]]|by left]. }
  destruct (burn_run burn_count 0 _ Hinv) as (k & Hburn & Hk); [done|rewrite burn_count_Z; lia|].
  rewrite Z.add_0_l, burn_count_Z in Hk.
  destruct Hk as (Hcnt & Hpid & Hlen & Hrq & Hdom).
  (* A *)
  destruct (wrap_cfg_answers k _ Hlen) as (Hp & Hs & Hh). rewrite burn_end_eq in *.
  assert (Hp' : pcb_answer wrap_cfg k = 12288) by (rewrite Hp; done).
  assert (Hs' : stack_answer wrap_cfg k = 1179648) by (rewrite Hs; done).
  assert (Hh' : heap_answer wrap_cfg k = 1196032) by (rewrite Hh; done).
  destruct (step_create_success wrap_cfg "A" 1 100 k)
    as (kA & HstepA & HcntA & HpidA & HlenA & HrqA & HdomA).
  { rewrite Hcnt. by cbn. }
  { by rewrite Hp'. } { by rewrite Hs'. } { by rewrite Hh'. }
  { rewrite Hp'. apply eq_None_not_Some. rewrite Hdom. done. }
  { right. rewrite Hrq. by apply Hdom. }
  rewrite Hpid in HstepA, HpidA. rewrite Hcnt in HcntA. rewrite Hp' in HrqA, HdomA.
  (* B *)
  assert (HlenA' : Z.of_nat (length (mem_log kA)) = 3 + 3 * (2 ^ 32 - 3) + 3) by lia.
  destruct (wrap_cfg_answers kA _ HlenA') as (HpB & HsB & HhB). rewrite burn_end_eq in *.
  assert (HpB' : pcb_answer wrap_cfg kA = 16384) by (rewrite HpB; done).
  assert (HsB' : stack_answer wrap_cfg kA = 1310720) by (rewrite HsB; done).
  assert (HhB' : heap_answer wrap_cfg kA = 1327104) by (rewrite HhB; done).
  destruct (step_create_success wrap_cfg "B" 1 200 kA)
    as (kB & HstepB & _).
  { rewrite HcntA. by cbn. }
  { by rewrite HpB'. } { by rewrite HsB'. } { by rewrite HhB'. }
  { rewrite HpB'. apply eq_None_not_Some. rewrite HdomA, Hdom. by intros [?|?]. }
  { right. rewrite HrqA. apply HdomA. by left. }
  rewrite HpidA in HstepB.
  exists kB. unfold wrap_ops. rewrite run_app, Hburn, bind_Ok. cbn beta iota.
  cbn [run]. rewrite HstepA, bind_Ok. cbn beta iota.
  rewrite HstepB, bind_Ok. cbn beta iota. done.
Qed.

(** C5, as it is worded, fails once the counter has come round. *)
Lemma pids_repeat_after_wrap : ¬ pids_always_increase wrap_cfg.
Proof.
  intros H. destruct wrap_run_pids as (k' & Hrun).
  specialize (H ERR_SUCCESS (after_init wrap_cfg) wrap_ops [4294967295; 0] k').
  specialize (H ltac:(by vm_compute) Hrun).
  apply StronglySorted_inv in H as [_ H]. apply Forall_inv in H. lia.
Qed.

(** ** Doubly-linked lists *)

Lemma dseg_cons m pv h x l e :
  dseg m pv h (x :: l) e ↔
  h = x ∧ x ≠ 0 ∧ ∃ r, m !! x = Some r ∧ prev r = pv ∧ dseg m x (next r) l e.
Proof.
  simpl. split.
  - intros (-> & Hx & H). destruct (m !! x) as [r|]; [|done]. destruct H.
    split; [done|]. split; [done|]. by exists r.
  - intros (-> & Hx & r & -> & Hp & H). done.
Qed.

Lemma dseg_chain m l : ∀ pv h, dseg m pv h l 0 → chain m h l.
Proof.
  induction l as [|x l IH]; intros pv h H; [done|].
  apply dseg_cons in H as (-> & Hx & r & Hr & _ & H).
  apply chain_cons. split; [done|]. split; [done|]. exists r. split; [done|]. by eapply IH.
Qed.

(** Only the links of the records of the list matter. *)
Lemma dseg_ext m m' l : ∀ pv h e,
  (∀ x, x ∈ l → prev <$> (m' !! x) = prev <$> (m !! x) ∧
                next <$> (m' !! x) = next <$> (m !! x)) →
  dseg m pv h l e → dseg m' pv h l e.
Proof.
  induction l as [|x l IH]; intros pv h e Hext H; [done|].
  apply dseg_cons in H as (-> & Hx & r & Hr & Hp & H).
  destruct (Hext x) as [Ep En]; [left|]. rewrite Hr in Ep, En.
  destruct (m' !! x) as [r'|] eqn:Hr'; [|done]. simpl in Ep, En.
  injection Ep as Ep. injection En as En.
  apply dseg_cons. split; [done|]. split; [done|]. exists r'. split; [done|].
  split; [congruence|]. rewrite En. apply IH; [|done].
  intros y Hy. apply Hext. by right.
Qed.

Lemma dseg_frame m m' l pv h e :
  (∀ x, x ∈ l → m' !! x = m !! x) → dseg m pv h l e → dseg m' pv h l e.
Proof. intros Hf. apply dseg_ext. intros x Hx. by rewrite Hf. Qed.

Lemma last_or_cons pv x l : last_or pv (x :: l) = last_or x l.
Proof.
  unfold last_or. destruct l as [|y l]; [done|].
  rewrite last_cons_cons. destruct (last (y :: l)) eqn:E; [done|].
  by apply last_None in E.
Qed.

Lemma last_or_snoc pv l x : last_or pv (l ++ [x]) = x.
Proof. unfold last_or. by rewrite last_snoc. Qed.

Lemma dseg_app m l1 : ∀ l2 pv h e,
  dseg m pv h (l1 ++ l2) e ↔
  ∃ mid, dseg m pv h l1 mid ∧ dseg m (last_or pv l1) mid l2 e.
Proof.
  induction l1 as [|x l1 IH]; intros l2 pv h e.
  - simpl. split; [intros H; exists h; by split|intros (mid & -> & H); exact H].
  - rewrite <- app_comm_cons, dseg_cons. split.
    + intros (-> & Hx & r & Hr & Hp & H). apply IH in H as (mid & H1 & H2).
      exists mid. rewrite last_or_cons. split; [|done].
      apply dseg_cons. eauto 10.
    + intros (mid & H1 & H2). apply dseg_cons in H1 as (-> & Hx & r & Hr & Hp & H1).
      rewrite last_or_cons in H2. split; [done|]. split; [done|].
      exists r. split; [done|]. split; [done|]. apply IH. eauto.
Qed.

Lemma dseg_elem_live m pv h l e x : dseg m pv h l e → x ∈ l → x ≠ 0 ∧ is_Some (m !! x).
Proof.
  revert pv h. induction l as [|y l IH]; intros pv h H Hx; [by apply elem_of_nil in Hx|].
  apply dseg_cons in H as (-> & Hy & r & Hr & _ & H).
  apply elem_of_cons in Hx as [->|Hx]; [by eauto|]. by eapply IH.
Qed.

(** The last record of a segment points to where the segment ends;
    redirecting it redirects the segment. *)
Lemma dseg_snoc_redirect m pv h l p rp e e' :
  dseg m pv h (l ++ [p]) e → m !! p = Some rp → p ∉ l →
  dseg (<[p := set_next e' rp]> m) pv h (l ++ [p]) e'.
Proof.
  intros H Hp Hnin. apply dseg_app in H as (mid & H1 & H2).
  apply dseg_cons in H2 as (-> & Hp0 & r & Hr & Hpv & _).
  assert (r = rp) as -> by congruence.
  apply dseg_app. exists p. split.
  - eapply dseg_frame; [|exact H1]. intros x Hx.
    rewrite lookup_insert_ne; [done|]. by intros ->.
  - apply dseg_cons. split; [done|]. split; [done|].
    exists (set_next e' rp). rewrite lookup_insert_eq. done.
Qed.

(** *** Field writes as [alter] *)

Lemma poke_alter p f k :
  is_Some (pcbs k !! p) → poke p f k = Ok (set_pcbs (alter f p (pcbs k)) k).
Proof.
  intros [r Hr]. rewrite (poke_live _ _ _ _ Hr). do 2 f_equal.
  apply map_eq. intros x. destruct (decide (p = x)) as [->|Hne].
  - by rewrite lookup_insert_eq, lookup_alter_eq, Hr.
  - by rewrite lookup_insert_ne, lookup_alter_ne.
Qed.

Lemma is_Some_alter (f : Process → Process) p (m : gmap Z Process) x :
  is_Some (alter f p m !! x) ↔ is_Some (m !! x).
Proof.
  destruct (decide (p = x)) as [->|Hne].
  - rewrite lookup_alter_eq. by rewrite fmap_is_Some.
  - by rewrite lookup_alter_ne.
Qed.

Lemma state_at_alter (f : Process → Process) p (m : gmap Z Process) x :
  (∀ r, state (f r) = state r) → state_at (alter f p m) x = state_at m x.
Proof.
  intros Hf. unfold state_at. destruct (decide (p = x)) as [->|Hne].
  - rewrite lookup_alter_eq. destruct (m !! x); simpl; by rewrite ?Hf.
  - by rewrite lookup_alter_ne.
Qed.

Lemma queue_head_set_pcbs q m k : queue_head q (set_pcbs m k) = queue_head q k.
Proof. by destruct q. Qed.

Lemma queue_head_set_same q v k : queue_head q (set_queue_head q v k) = v.
Proof. by destruct q. Qed.

Lemma queue_head_set_other q q' v k :
  q' ≠ q → queue_head q' (set_queue_head q v k) = queue_head q' k.
Proof. by destruct q, q'. Qed.

Lemma pcbs_set_queue_head q v k : pcbs (set_queue_head q v k) = pcbs k.
Proof. by destruct q. Qed.

(** The part of a queue after an unlinked record: its first record, if
    any, now points back to [pd]. *)
Lemma dseg_relink_tail m m' proc pd nx l2 :
  dseg m proc nx l2 0 → proc ∉ l2 → NoDup l2 →
  (nx ≠ 0 → m' !! nx = set_prev pd <$> (m !! nx)) →
  (∀ x, x ∈ l2 → x ≠ nx → m' !! x = m !! x) →
  dseg m' pd nx l2 0.
Proof.
  intros H Hnin Hnd Hnx Hf. destruct l2 as [|y l2]; [done|].
  apply dseg_cons in H as (-> & Hy & ry & Hry & Hp & H).
  apply NoDup_cons in Hnd as [Hy' _].
  apply dseg_cons. split; [done|]. split; [done|].
  exists (set_prev pd ry). split; [by rewrite Hnx, Hry|]. split; [done|].
  simpl. eapply dseg_frame; [|exact H].
  intros x Hx. apply Hf; [by right|]. by intros ->.
Qed.

(** The part of a queue before an unlinked record: its last record, if
    any, now points forward to [nx]. *)
Lemma dseg_relink_init m m' h l1 proc nx :
  dseg m 0 h l1 proc → proc ∉ l1 → NoDup l1 →
  (last_or 0 l1 ≠ 0 → m' !! last_or 0 l1 = set_next nx <$> (m !! last_or 0 l1)) →
  (∀ x, x ∈ l1 → x ≠ last_or 0 l1 → m' !! x = m !! x) →
  dseg m' 0 (if decide (l1 = []) then nx else h) l1 nx.
Proof.
  intros H Hnin Hnd Hl Hf.
  destruct l1 as [|x l1 _] using rev_ind; [done|].
  rewrite decide_False by (by destruct l1).
  rewrite last_or_snoc in Hl, Hf.
  apply NoDup_app in Hnd as (_ & Hx & _).
  pose proof (dseg_elem_live _ _ _ _ _ x H) as [Hx0 [rx Hrx]]; [set_solver|].
  eapply dseg_frame; [|eapply (dseg_snoc_redirect _ _ _ _ _ _ _ nx H Hrx)].
  - intros y Hy. destruct (decide (y = x)) as [->|Hne].
    + rewrite lookup_insert_eq, Hl, Hrx by done. done.
    + rewrite lookup_insert_ne by done. apply Hf; [done|done].
  - intros Hin. by apply (Hx x); [|left].
Qed.

(** *** Unlinking *)

Lemma unlinked_lookup_ne m proc pd nx x :
  x ≠ proc → (pd = 0 ∨ x ≠ pd) → (nx = 0 ∨ x ≠ nx) →
  unlinked m proc pd nx !! x = m !! x.
Proof.
  intros Hp Hpd Hnx. unfold unlinked. rewrite !lookup_alter_ne by done.
  destruct (Z.eqb_spec nx 0), (Z.eqb_spec pd 0); simpl;
    rewrite ?lookup_alter_ne; try done; try (by destruct Hnx); by destruct Hpd.
Qed.

Lemma unlinked_state_at m proc pd nx x :
  state_at (unlinked m proc pd nx) x = state_at m x.
Proof.
  unfold unlinked. rewrite !state_at_alter by done.
  destruct (nx =? 0), (pd =? 0); simpl; by rewrite ?state_at_alter.
Qed.

Lemma unlinked_is_Some m proc pd nx x :
  is_Some (unlinked m proc pd nx !! x) ↔ is_Some (m !! x).
Proof.
  unfold unlinked. rewrite !is_Some_alter.
  destruct (nx =? 0), (pd =? 0); simpl; by rewrite ?is_Some_alter.
Qed.

Lemma unlinked_proc m proc pd nx r :
  m !! proc = Some r → proc ≠ pd → proc ≠ nx →
  unlinked m proc pd nx !! proc = Some (set_next 0 (set_prev 0 r)).
Proof.
  intros Hr Hpd Hnx. unfold unlinked. rewrite !lookup_alter_eq.
  destruct (nx =? 0), (pd =? 0); simpl; rewrite ?lookup_alter_ne by done;
    by rewrite Hr.
Qed.

(** A queue with [proc] unlinked is the queue without [proc]. *)
Lemma unlinked_dlist m h l1 proc l2 r :
  dlist m h (l1 ++ proc :: l2) → m !! proc = Some r →
  prev r = last_or 0 l1 ∧
  (l1 = [] ↔ h = proc) ∧
  (next r = 0 ∨ is_Some (m !! next r)) ∧
  (prev r = 0 ∨ is_Some (m !! prev r)) ∧
  proc ≠ prev r ∧ proc ≠ next r ∧
  dlist (unlinked m proc (prev r) (next r))
        (if decide (l1 = []) then next r else h) (l1 ++ l2).
Proof.
  intros Hd Hr. unfold dlist in *.
  pose proof (chain_NoDup _ _ _ (dseg_chain _ _ _ _ Hd)) as Hnd.
  apply NoDup_app in Hnd as (Hnd1 & Hdisj & Hnd2).
  apply NoDup_cons in Hnd2 as [Hp2 Hnd2].
  assert (Hp1 : proc ∉ l1) by (intros Hin; apply (Hdisj _ Hin); left).
  pose proof Hd as Hd'.
  apply dseg_app in Hd as (mid & H1 & H2).
  apply dseg_cons in H2 as (-> & Hp0 & r' & Hr' & Hpv & H2).
  assert (r' = r) as -> by congruence.
  assert (Hpd : last_or 0 l1 = 0 ∨ last_or 0 l1 ∈ l1).
  { destruct l1 as [|x l1 _] using rev_ind; [by left|right].
    rewrite last_or_snoc. set_solver. }
  assert (Hnx : next r = 0 ∨ next r ∈ l2).
  { destruct l2 as [|y l2]; [by left|right].
    apply dseg_cons in H2 as (-> & _). left. }
  assert (Hpne : proc ≠ prev r).
  { rewrite Hpv. destruct Hpd as [->|Hin]; [done|]. by intros ->. }
  assert (Hnne : proc ≠ next r).
  { destruct Hnx as [->|Hin]; [done|]. by intros ->. }
  split; [done|]. split.
  { split; [intros ->; by simpl in H1|].
    intros ->. destruct l1 as [|x l1]; [done|].
    apply dseg_cons in H1 as (-> & _). exfalso. apply Hp1. left. }
  split.
  { destruct Hnx as [->|Hin]; [by left|right].
    eapply dseg_elem_live; [exact H2|done]. }
  split.
  { rewrite Hpv. destruct Hpd as [->|Hin]; [by left|right].
    eapply dseg_elem_live; [exact H1|done]. }
  split; [done|]. split; [done|].
  apply dseg_app. exists (next r). split.
  - apply (dseg_relink_init m _ h l1 proc (next r) H1 Hp1 Hnd1).
    + intros Hl0. unfold unlinked. rewrite Hpv.
      assert (Hin : last_or 0 l1 ∈ l1) by (by destruct Hpd).
      rewrite !lookup_alter_ne by (by intros ->).
      destruct (Z.eqb_spec (last_or 0 l1) 0); [done|].
      destruct (Z.eqb_spec (next r) 0); simpl.
      * by rewrite lookup_alter_eq.
      * rewrite lookup_alter_ne, lookup_alter_eq; [done|].
        destruct Hnx as [?|Hin2]; [done|]. intros E. rewrite E in Hin2.
        apply (Hdisj _ Hin). by right.
    + intros x Hx Hxl. apply unlinked_lookup_ne.
      * by intros ->.
      * right. by rewrite Hpv.
      * destruct Hnx as [?|Hin2]; [by left|right]. intros ->.
        apply (Hdisj _ Hx). by right.
  - apply (dseg_relink_tail m _ proc (last_or 0 l1) (next r) l2 H2 Hp2 Hnd2).
    + intros Hn0. unfold unlinked. rewrite Hpv.
      assert (Hin : next r ∈ l2) by (by destruct Hnx).
      rewrite !lookup_alter_ne by (by intros ->).
      destruct (Z.eqb_spec (next r) 0); [done|]. simpl.
      rewrite lookup_alter_eq.
      destruct (Z.eqb_spec (last_or 0 l1) 0); simpl; [done|].
      rewrite lookup_alter_ne; [done|].
      destruct Hpd as [?|Hin1]; [done|]. intros E. rewrite E in Hin1.
      apply (Hdisj _ Hin1). by right.
    + intros x Hx Hxn. apply unlinked_lookup_ne.
      * by intros ->.
      * destruct Hpd as [?|Hin1]; [left; congruence|right]. rewrite Hpv. intros ->.
        apply (Hdisj _ Hin1). by right.
      * by right.
Qed.

(** [process_remove_from_queue] computes [unlinked]. *)
Lemma remove_eval q proc s k r :
  queue_of_state s = Some q → pcbs k !! proc = Some r →
  (queue_head q k = proc → prev r = 0) →
  (next r = 0 ∨ is_Some (pcbs k !! next r)) →
  (prev r = 0 ∨ is_Some (pcbs k !! prev r)) →
  proc ≠ prev r → proc ≠ next r →
  ∃ k', process_remove_from_queue proc s k = Ok k' ∧
    pcbs k' = unlinked (pcbs k) proc (prev r) (next r) ∧
    queue_head q k' = (if decide (queue_head q k = proc) then next r else queue_head q k) ∧
    (∀ q', q' ≠ q → queue_head q' k' = queue_head q' k).
Proof.
  intros Hq Hr Hhead Hnx Hpv Hpne Hnne. unfold process_remove_from_queue, unlinked.
  rewrite Hq.
  destruct (Z.eqb_spec (queue_head q k) proc) as [Hh|Hh].
  - rewrite decide_True by done. rewrite (Hhead Hh).
    change (0 =? 0) with true. cbv iota.
    rewrite (load_live _ _ _ Hr), bind_Ok. cbv zeta.
    rewrite queue_head_set_same.
    destruct (Z.eqb_spec (next r) 0) as [Hn|Hn].
    + rewrite bind_Ok.
      rewrite poke_alter by (rewrite pcbs_set_queue_head; by exists r).
      rewrite bind_Ok.
      rewrite poke_alter by (simpl; rewrite is_Some_alter, pcbs_set_queue_head; by exists r).
      eexists. split; [reflexivity|]. simpl. rewrite pcbs_set_queue_head.
      split; [done|]. rewrite !queue_head_set_pcbs, queue_head_set_same.
      split; [done|]. intros q' Hq'.
      by rewrite !queue_head_set_pcbs, queue_head_set_other.
    + rewrite poke_alter by (rewrite pcbs_set_queue_head; by destruct Hnx).
      rewrite bind_Ok.
      rewrite poke_alter
        by (simpl; rewrite is_Some_alter, pcbs_set_queue_head; by exists r).
      rewrite bind_Ok.
      rewrite poke_alter
        by (simpl; rewrite !is_Some_alter, pcbs_set_queue_head; by exists r).
      eexists. split; [reflexivity|]. simpl. rewrite pcbs_set_queue_head.
      split; [done|]. rewrite !queue_head_set_pcbs, queue_head_set_same.
      split; [done|]. intros q' Hq'.
      by rewrite !queue_head_set_pcbs, queue_head_set_other.
  - rewrite decide_False by done.
    rewrite (load_live _ _ _ Hr), bind_Ok.
    destruct (Z.eqb_spec (prev r) 0) as [Hp|Hp].
    + rewrite bind_Ok, (load_live _ _ _ Hr), bind_Ok.
      destruct (Z.eqb_spec (next r) 0) as [Hn|Hn].
      * rewrite bind_Ok. rewrite poke_alter by (by exists r). rewrite bind_Ok.
        rewrite poke_alter by (simpl; rewrite is_Some_alter; by exists r).
        eexists. split; [reflexivity|]. simpl. split; [done|].
        rewrite !queue_head_set_pcbs. split; [done|]. intros q' _.
        by rewrite !queue_head_set_pcbs.
      * rewrite poke_alter by (by destruct Hnx). rewrite bind_Ok.
        rewrite poke_alter by (simpl; rewrite is_Some_alter; by exists r).
        rewrite bind_Ok.
        rewrite poke_alter by (simpl; rewrite !is_Some_alter; by exists r).
        eexists. split; [reflexivity|]. simpl. split; [done|].
        rewrite !queue_head_set_pcbs. split; [done|]. intros q' _.
        by rewrite !queue_head_set_pcbs.
    + rewrite poke_alter by (by destruct Hpv). rewrite bind_Ok.
      erewrite load_live by (simpl; rewrite lookup_alter_ne by done; exact Hr).
      rewrite bind_Ok.
      destruct (Z.eqb_spec (next r) 0) as [Hn|Hn].
      * rewrite bind_Ok.
        rewrite poke_alter by (simpl; rewrite is_Some_alter; by exists r).
        rewrite bind_Ok.
        rewrite poke_alter by (simpl; rewrite !is_Some_alter; by exists r).
        eexists. split; [reflexivity|]. simpl. split; [done|].
        rewrite !queue_head_set_pcbs. split; [done|]. intros q' _.
        by rewrite !queue_head_set_pcbs.
      * rewrite poke_alter by (simpl; rewrite is_Some_alter; by destruct Hnx).
        rewrite bind_Ok.
        rewrite poke_alter by (simpl; rewrite !is_Some_alter; by exists r).
        rewrite bind_Ok.
        rewrite poke_alter by (simpl; rewrite !is_Some_alter; by exists r).
        eexists. split; [reflexivity|]. simpl. split; [done|].
        rewrite !queue_head_set_pcbs. split; [done|]. intros q' _.
        by rewrite !queue_head_set_pcbs.
Qed.

(** *** Linking *)

Lemma linked_lookup_ne m proc hd x :
  x ≠ proc → (hd = 0 ∨ x ≠ hd) → linked m proc hd !! x = m !! x.
Proof.
  intros Hp Hh. unfold linked.
  destruct (Z.eqb_spec hd 0); simpl.
  - by rewrite !lookup_alter_ne.
  - rewrite !lookup_alter_ne; try done. by destruct Hh.
Qed.

Lemma linked_state_at m proc hd x : state_at (linked m proc hd) x = state_at m x.
Proof.
  unfold linked. destruct (hd =? 0); simpl; by rewrite !state_at_alter.
Qed.

Lemma linked_is_Some m proc hd x : is_Some (linked m proc hd !! x) ↔ is_Some (m !! x).
Proof.
  unfold linked. destruct (hd =? 0); simpl; by rewrite !is_Some_alter.
Qed.

Lemma linked_dlist m hd l proc :
  dlist m hd l → proc ∉ l → proc ≠ 0 → is_Some (m !! proc) →
  dlist (linked m proc hd) proc (proc :: l).
Proof.
  unfold dlist. intros Hd Hnin Hp0 [r Hr].
  pose proof (chain_NoDup _ _ _ (dseg_chain _ _ _ _ Hd)) as Hnd.
  apply dseg_cons. split; [done|]. split; [done|].
  destruct l as [|y l].
  - simpl in Hd. subst hd. unfold linked. change (0 =? 0) with true. simpl.
    rewrite !lookup_alter_eq, Hr. simpl. eexists. split; [done|]. done.
  - apply dseg_cons in Hd as (-> & Hy & ry & Hry & Hpy & Hd).
    apply not_elem_of_cons in Hnin as [Hne Hnin].
    apply NoDup_cons in Hnd as [Hyl _].
    assert (El : linked m proc y
                 = alter (set_prev proc) y
                     (alter (set_prev 0) proc (alter (set_next y) proc m))).
    { unfold linked. by destruct (Z.eqb_spec y 0). }
    rewrite El. rewrite lookup_alter_ne, !lookup_alter_eq, Hr by done.
    eexists. split; [reflexivity|]. split; [done|]. cbn [next set_prev set_next].
    apply dseg_cons. split; [done|]. split; [done|].
    exists (set_prev proc ry).
    rewrite lookup_alter_eq, !lookup_alter_ne, Hry by done.
    split; [done|]. split; [done|]. cbn [next set_prev set_next].
    eapply dseg_frame; [|exact Hd]. intros x Hx.
    rewrite !lookup_alter_ne; [done|by intros ->..].
Qed.

(** [process_add_to_queue] computes [linked]. *)
Lemma add_eval q proc s k :
  queue_of_state s = Some q → is_Some (pcbs k !! proc) →
  (queue_head q k = 0 ∨ is_Some (pcbs k !! queue_head q k)) →
  ∃ k', process_add_to_queue proc s k = Ok k' ∧
    pcbs k' = linked (pcbs k) proc (queue_head q k) ∧
    queue_head q k' = proc ∧
    (∀ q', q' ≠ q → queue_head q' k' = queue_head q' k).
Proof.
  intros Hq Hp Hh. unfold process_add_to_queue, linked. rewrite Hq.
  rewrite poke_alter by done. rewrite bind_Ok.
  rewrite poke_alter by (simpl; by rewrite is_Some_alter). rewrite bind_Ok.
  rewrite !queue_head_set_pcbs.
  destruct (Z.eqb_spec (queue_head q k) 0) as [Hz|Hz].
  - rewrite bind_Ok. eexists. split; [reflexivity|].
    rewrite pcbs_set_queue_head, queue_head_set_same. simpl.
    split; [done|]. split; [done|]. intros q' Hq'.
    by rewrite queue_head_set_other, !queue_head_set_pcbs.
  - rewrite poke_alter by (simpl; rewrite !is_Some_alter; by destruct Hh).
    rewrite bind_Ok. eexists. split; [reflexivity|].
    rewrite pcbs_set_queue_head, queue_head_set_same. simpl.
    split; [done|]. split; [done|]. intros q' Hq'.
    by rewrite queue_head_set_other, !queue_head_set_pcbs.
Qed.

(** *** The two halves of a state change *)

Lemma filter_remove_elem (proc : Z) l1 l2 :
  NoDup (l1 ++ proc :: l2) → filter (λ x, x ≠ proc) (l1 ++ proc :: l2) = l1 ++ l2.
Proof.
  intros Hnd. apply NoDup_app in Hnd as (_ & Hdisj & Hnd2).
  apply NoDup_cons in Hnd2 as [Hp2 _].
  rewrite filter_app, filter_cons_False by (by intros []).
  rewrite !filter_all; [done|..].
  - intros x Hx ->. done.
  - intros x Hx ->. apply (Hdisj _ Hx). left.
Qed.

Lemma dlist_head_live m h l : dlist m h l → h = 0 ∨ is_Some (m !! h).
Proof.
  destruct l as [|x l]; [by left|]. intros (-> & _ & r & Hr & _)%dseg_cons. by right; exists r.
Qed.

Lemma remove_phase k proc old (Lf : Queue → list Z) r :
  (∀ q, dlist (pcbs k) (queue_head q k) (Lf q)) →
  (∀ q q' x, x ∈ Lf q → x ∈ Lf q' → q = q') →
  pcbs k !! proc = Some r →
  (∀ q, proc ∈ Lf q ↔ queue_of_state old = Some q) →
  ∃ k', process_remove_from_queue proc old k = Ok k' ∧
    (∀ q, dlist (pcbs k') (queue_head q k') (filter (λ x, x ≠ proc) (Lf q))) ∧
    (∀ x, state_at (pcbs k') x = state_at (pcbs k) x) ∧
    (∀ x, is_Some (pcbs k' !! x) ↔ is_Some (pcbs k !! x)).
Proof.
  intros HD Hdisj Hr Hmem.
  destruct (queue_of_state old) as [qo|] eqn:Hq.
  2:{ exists k. unfold process_remove_from_queue. rewrite Hq. split; [done|].
      split; [|done]. intros q. rewrite filter_all; [done|].
      intros x Hx ->. by apply Hmem in Hx. }
  assert (Hin : proc ∈ Lf qo) by (by apply Hmem).
  apply list_elem_of_split in Hin as (l1 & l2 & El).
  pose proof (HD qo) as Hd. rewrite El in Hd.
  pose proof (chain_NoDup _ _ _ (dseg_chain _ _ _ _ Hd)) as Hnd.
  destruct (unlinked_dlist _ _ _ _ _ _ Hd Hr)
    as (Hpv & Hl1 & Hnx & Hpd & Hpne & Hnne & Hd').
  destruct (remove_eval qo proc old k r Hq Hr
              (λ Hhd, eq_trans Hpv (f_equal (last_or 0) (proj2 Hl1 Hhd)))
              Hnx Hpd Hpne Hnne) as (k' & Hrem & Hm & Hh & Hho).
  exists k'. split; [done|]. rewrite Hm. split; [|split].
  - intros q. destruct (decide (q = qo)) as [->|Hne].
    + rewrite El, filter_remove_elem, Hh by done.
      destruct (decide (l1 = [])) as [E|E].
      * rewrite decide_True by (by apply Hl1). done.
      * rewrite decide_False by (by rewrite <- Hl1). done.
    + rewrite Hho by done. rewrite filter_all.
      2:{ intros x Hx ->. apply Hne. eapply Hdisj; [exact Hx|]. rewrite El.
          apply elem_of_app. right. left. }
      eapply dseg_frame; [|exact (HD q)]. intros x Hx.
      assert (Hx' : x ∉ Lf qo) by (intros Hx'; apply Hne; by eapply Hdisj).
      rewrite El in Hx'. apply unlinked_lookup_ne.
      * intros ->. apply Hx'. apply elem_of_app. right. left.
      * rewrite Hpv. destruct l1 as [|y l1 _] using rev_ind; [by left|right].
        rewrite last_or_snoc. intros ->. apply Hx'.
        apply elem_of_app. left. apply elem_of_app. right. left.
      * destruct l2 as [|y l2].
        -- left. apply dseg_app in Hd as (mid & _ & Hd2).
           apply dseg_cons in Hd2 as (_ & _ & r' & Hr' & _ & Hd2).
           assert (r' = r) as -> by congruence. done.
        -- right. apply dseg_app in Hd as (mid & _ & Hd2).
           apply dseg_cons in Hd2 as (_ & _ & r' & Hr' & _ & Hd2).
           assert (r' = r) as -> by congruence.
           apply dseg_cons in Hd2 as (-> & _). intros ->. apply Hx'.
           apply elem_of_app. right. right. left.
  - intros x. apply unlinked_state_at.
  - intros x. apply unlinked_is_Some.
Qed.

Lemma add_phase k proc s (Lf : Queue → list Z) :
  (∀ q, dlist (pcbs k) (queue_head q k) (Lf q)) →
  (∀ q q' x, x ∈ Lf q → x ∈ Lf q' → q = q') →
  proc ≠ 0 → is_Some (pcbs k !! proc) → (∀ q, proc ∉ Lf q) →
  ∃ k', process_add_to_queue proc s k = Ok k' ∧
    (∀ q, dlist (pcbs k') (queue_head q k')
            ((if decide (queue_of_state s = Some q) then [proc] else []) ++ Lf q)) ∧
    (∀ x, state_at (pcbs k') x = state_at (pcbs k) x) ∧
    (∀ x, is_Some (pcbs k' !! x) ↔ is_Some (pcbs k !! x)).
Proof.
  intros HD Hdisj Hp0 Hp Hnin.
  destruct (queue_of_state s) as [qn|] eqn:Hq.
  2:{ exists k. unfold process_add_to_queue. rewrite Hq. split; [done|].
      split; [|done]. intros q. by rewrite decide_False. }
  destruct (add_eval qn proc s k Hq Hp) as (k' & Hadd & Hm & Hh & Hho).
  { by eapply dlist_head_live. }
  exists k'. split; [done|]. rewrite Hm. split; [|split].
  - intros q. destruct (decide (q = qn)) as [->|Hne].
    + rewrite decide_True, Hh by done. simpl. by apply linked_dlist.
    + rewrite decide_False by congruence. rewrite Hho by done. simpl.
      eapply dseg_frame; [|exact (HD q)]. intros x Hx.
      apply linked_lookup_ne.
      * intros ->. by apply (Hnin q).
      * pose proof (HD qn) as Hd. destruct (Lf qn) as [|y l] eqn:El; [by left|right].
        apply dseg_cons in Hd as (-> & _). intros ->.
        apply Hne. eapply Hdisj; [exact Hx|]. rewrite El. left.
  - intros x. apply linked_state_at.
  - intros x. apply linked_is_Some.
Qed.

(** ** Well-formed kernels *)

Lemma wf_parts k L :
  wf k L ↔
  (∀ q, dlist (pcbs k) (queue_head q k) (L q)) ∧
  (∀ p r, pcbs k !! p = Some r → ∀ q, p ∈ L q ↔ queue_of_state (state r) = Some q).
Proof.
  unfold wf. split.
  - intros [(R & B & Z) M]. split; [by intros []|].
    intros p r Hp q. destruct (M p r Hp) as (? & ? & ?). by destruct q.
  - intros [D M]. split; [split; [apply (D ReadyQ)|split; [apply (D BlockedQ)|apply (D ZombieQ)]]|].
    intros p r Hp. split; [|split]; by apply M.
Qed.

Lemma wf_ext k L L' : (∀ q, L q = L' q) → wf k L → wf k L'.
Proof. intros E. unfold wf. by rewrite !E. Qed.

Lemma wf_disjoint k L q q' x : wf k L → x ∈ L q → x ∈ L q' → q = q'.
Proof.
  intros [D M]%wf_parts Hq Hq'.
  destruct (dseg_elem_live _ _ _ _ _ x (D q) Hq) as [_ [r Hr]].
  apply (M _ _ Hr) in Hq, Hq'. congruence.
Qed.

Lemma walk_chain m l : ∀ fuel p,
  chain m p l → (length l ≤ fuel)%nat → walk fuel m p = l.
Proof.
  induction l as [|x l IH]; intros fuel p Hc Hf.
  - apply chain_nil in Hc as ->. by destruct fuel.
  - apply chain_cons in Hc as (-> & Hx & r & Hr & Hc).
    destruct fuel as [|fuel]; [simpl in Hf; lia|]. simpl.
    destruct (Z.eqb_spec x 0); [done|]. rewrite Hr. f_equal.
    apply IH; [done|simpl in Hf; lia].
Qed.

(** A well-formed kernel satisfies the state-to-queue mapping. *)
Lemma wf_queue_consistent k L : wf k L → queue_consistent k.
Proof.
  intros [D M]%wf_parts.
  assert (E : ∀ q, queue_members q k = L q).
  { intros q. unfold queue_members. pose proof (dseg_chain _ _ _ _ (D q)) as Hc.
    apply walk_chain; [done|]. by eapply chain_length. }
  intros p r Hp. rewrite !E.
  split; [|split].
  - rewrite (M p r Hp ReadyQ). destruct (state r); simpl; split; congruence.
  - rewrite (M p r Hp BlockedQ). destruct (state r); simpl; split; congruence.
  - rewrite (M p r Hp ZombieQ). destruct (state r); simpl; split; congruence.
Qed.

Lemma boot_wf cfg : wf (boot cfg) (λ _, []).
Proof.
  apply wf_parts. split; [by intros []|]. intros p r Hp. done.
Qed.

Lemma link_alter_state (s : ProcessState) p (m : gmap Z Process) x :
  prev <$> (alter (set_state s) p m !! x) = prev <$> (m !! x) ∧
  next <$> (alter (set_state s) p m !! x) = next <$> (m !! x).
Proof.
  destruct (decide (p = x)) as [->|Hne].
  - rewrite lookup_alter_eq. by destruct (m !! x).
  - by rewrite lookup_alter_ne.
Qed.

(** [process_set_state] keeps the kernel well formed and moves the record
    to the front of the queue of its new state. *)
Lemma process_set_state_wf proc s k L :
  wf k L → proc ≠ 0 → is_Some (pcbs k !! proc) →
  ∃ k', process_set_state proc s k = Ok (ERR_SUCCESS, k') ∧ wf k' (requeue proc s L).
Proof.
  intros Hwf Hp0 [r Hr]. pose proof Hwf as [D M]%wf_parts.
  unfold process_set_state. destruct (Z.eqb_spec proc 0); [done|].
  rewrite (load_live _ _ _ Hr), bind_Ok.
  rewrite poke_alter by (by exists r). rewrite bind_Ok.
  set (k1 := set_pcbs (alter (set_state s) proc (pcbs k)) k).
  assert (D1 : ∀ q, dlist (pcbs k1) (queue_head q k1) (L q)).
  { intros q. unfold k1. rewrite queue_head_set_pcbs. simpl.
    eapply dseg_ext; [|exact (D q)]. intros x _. apply link_alter_state. }
  assert (Hr1 : pcbs k1 !! proc = Some (set_state s r)).
  { simpl. by rewrite lookup_alter_eq, Hr. }
  destruct (remove_phase k1 proc (state r) L (set_state s r) D1) as (k2 & -> & D2 & S2 & I2);
    [intros ???; by eapply wf_disjoint|exact Hr1|by apply M|].
  rewrite bind_Ok.
  destruct (add_phase k2 proc s (λ q, filter (λ x, x ≠ proc) (L q)) D2)
    as (k3 & -> & D3 & S3 & I3).
  { intros q q' x [_ Hx]%list_elem_of_filter [_ Hx']%list_elem_of_filter.
    by eapply wf_disjoint. }
  { done. }
  { apply I2. by rewrite Hr1. }
  { intros q [Hne _]%list_elem_of_filter. done. }
  rewrite bind_Ok. exists k3. split; [done|].
  apply wf_parts. split; [exact D3|].
  intros p rp Hp q.
  assert (Hst : state_at (pcbs k3) p = Some (state rp)) by (unfold state_at; by rewrite Hp).
  rewrite S3, S2 in Hst. unfold k1 in Hst. simpl in Hst.
  unfold requeue. rewrite elem_of_app, list_elem_of_filter.
  destruct (decide (p = proc)) as [->|Hne].
  - unfold state_at in Hst. rewrite lookup_alter_eq, Hr in Hst. injection Hst as Hst.
    rewrite <- Hst. simpl. split.
    + intros [Hin|[? _]]; [|done]. case_decide; [done|by apply elem_of_nil in Hin].
    + intros Hq. left. rewrite decide_True by done. left.
  - unfold state_at in Hst. rewrite lookup_alter_ne in Hst by done.
    destruct (pcbs k !! p) as [r0|] eqn:Hr0; [|done]. injection Hst as Hst.
    rewrite <- Hst, <- (M p r0 Hr0 q). split.
    + intros [Hin|[_ ?]]; [|done]. case_decide; [|by apply elem_of_nil in Hin].
      by apply list_elem_of_singleton in Hin.
    + intros Hin. by right.
Qed.

Lemma wf_frame k k' L :
  pcbs k' = pcbs k → (∀ q, queue_head q k' = queue_head q k) → wf k L → wf k' L.
Proof.
  intros Hm Hh [D M]%wf_parts. apply wf_parts. rewrite Hm. split; [|done].
  intros q. rewrite Hh. apply D.
Qed.

Lemma wf_not_live k L p q : wf k L → pcbs k !! p = None → p ∉ L q.
Proof.
  intros [D _]%wf_parts Hp Hin.
  destruct (dseg_elem_live _ _ _ _ _ p (D q) Hin) as [_ [r Hr]]. congruence.
Qed.

(** [scheduler_select_next] only moves its cursor. *)
Lemma scheduler_select_next_wf k L p k' :
  wf k L → scheduler_select_next k = Ok (p, k') → wf k' L.
Proof.
  intros Hwf H. apply select_next_frame in H. rewrite H.
  eapply wf_frame; [| |exact Hwf]; [done|by intros []].
Qed.

(** [process_create], at an address that is no live record, keeps the
    kernel well formed; when it succeeds the new record heads the ready
    queue. *)
Lemma process_create_wf cfg nm prio entry k L :
  wf k L → pcbs k !! pcb_answer cfg k = None →
  ∃ p k', process_create cfg nm prio entry k = Ok (p, k') ∧
          wf k' (if decide (p = 0) then L else enqueue_ready p L).
Proof.
  intros Hwf Hfresh. rewrite process_create_paths.
  destruct (Z.of_nat (MAX_PROCESSES cfg) <=? process_count k).
  { exists 0, k. by rewrite decide_True. }
  destruct (Z.eqb_spec (pcb_answer cfg k) 0) as [Hp|Hp].
  { exists 0, (refused_pcb cfg k). rewrite decide_True by done. split; [done|].
    eapply wf_frame; [| |exact Hwf]; [done|by intros []]. }
  destruct (stack_answer cfg k =? 0).
  { exists 0, (refused_stack cfg k). rewrite decide_True by done. split; [done|].
    eapply wf_frame; [| |exact Hwf]; [|by intros []].
    simpl. by apply delete_id. }
  destruct (heap_answer cfg k =? 0).
  { exists 0, (refused_heap cfg k). rewrite decide_True by done. split; [done|].
    eapply wf_frame; [| |exact Hwf]; [|by intros []].
    simpl. by apply delete_id. }
  set (p := pcb_answer cfg k) in *.
  set (k0 := created cfg nm prio entry k p (stack_answer cfg k) (heap_answer cfg k)).
  assert (Hwf0 : wf k0 L).
  { pose proof Hwf as [D M]%wf_parts. apply wf_parts. split.
    - intros q. replace (queue_head q k0) with (queue_head q k) by (by destruct q).
      simpl. eapply dseg_frame; [|exact (D q)]. intros x Hx.
      rewrite lookup_insert_ne; [done|]. intros <-.
      exact (wf_not_live k L p q Hwf Hfresh Hx).
    - intros x rx. simpl. destruct (decide (p = x)) as [<-|Hne].
      + rewrite lookup_insert_eq. intros [= <-] q. simpl. split; [|done].
        intros Hin. destruct (wf_not_live k L p q Hwf Hfresh Hin).
      + rewrite lookup_insert_ne by done. apply M. }
  destruct (process_set_state_wf p PROC_STATE_READY k0 L Hwf0 Hp)
    as (k' & Hset & Hwf'); [simpl; by rewrite lookup_insert_eq|].
  exists p, k'. rewrite Hset, bind_Ok. split; [done|].
  rewrite decide_False by done.
  eapply wf_ext; [|exact Hwf']. intros q. unfold requeue, enqueue_ready.
  rewrite filter_all by (intros x Hx ->; exact (wf_not_live k L p q Hwf Hfresh Hx)).
  f_equal. by destruct q.
Qed.

(** [process_reap_zombies] destroys the zombies and nothing else. *)
Lemma process_reap_zombies_wf k L :
  wf k L →
  ∃ k', process_reap_zombies k = Ok k' ∧ wf k' (drop_zombies L).
Proof.
  intros Hwf. pose proof Hwf as [D M]%wf_parts.
  pose proof (dseg_chain _ _ _ _ (D ZombieQ)) as Hc. simpl in Hc.
  rewrite (reap_zombies_chain k (L ZombieQ) Hc). eexists. split; [done|].
  apply wf_parts. simpl. split.
  - intros q. unfold drop_zombies. destruct (decide (q = ZombieQ)) as [->|Hne]; [done|].
    replace (queue_head q (set_zombie_queue 0 (reaped k (L ZombieQ))))
      with (queue_head q k) by (by destruct q).
    eapply dseg_frame; [|exact (D q)]. intros x Hx.
    rewrite lookup_foldl_delete, decide_False; [done|].
    intros Hz. apply Hne. by eapply wf_disjoint.
  - intros p r. rewrite lookup_foldl_delete. case_decide as Hz; [done|].
    intros Hp q. unfold drop_zombies. destruct (decide (q = ZombieQ)) as [->|Hne].
    + rewrite <- (M p r Hp ZombieQ). split; [by intros ?%elem_of_nil|done].
    + by apply M.
Qed.
(** ** State changes *)

Lemma wf_queue_members k L q : wf k L → queue_members q k = L q.
Proof.
  intros [D _]%wf_parts. unfold queue_members.
  pose proof (dseg_chain _ _ _ _ (D q)) as Hc.
  apply walk_chain; [done|]. by eapply chain_length.
Qed.

Lemma queues_well_formed_wf k : queues_well_formed k → wf k (λ q, queue_members q k).
Proof.
  intros (Hqc & Dr & Db & Dz). apply wf_parts. split.
  - by intros [].
  - intros p r Hp q. destruct (Hqc p r Hp) as (Hr & Hb & Hz).
    destruct q; [rewrite Hr|rewrite Hb|rewrite Hz];
      destruct (state r); simpl; split; congruence.
Qed.

Lemma wf_queues_well_formed k L : wf k L → queues_well_formed k.
Proof.
  intros Hwf. split; [by eapply wf_queue_consistent|].
  pose proof Hwf as [D _]%wf_parts. rewrite !(wf_queue_members k L) by done.
  split; [apply (D ReadyQ)|]. split; [apply (D BlockedQ)|apply (D ZombieQ)].
Qed.

Lemma requeue_moved proc s L :
  requeue proc s L ReadyQ = moved proc s PROC_STATE_READY (L ReadyQ) ∧
  requeue proc s L BlockedQ = moved proc s PROC_STATE_BLOCKED (L BlockedQ) ∧
  requeue proc s L ZombieQ = moved proc s PROC_STATE_ZOMBIE (L ZombieQ).
Proof. unfold requeue, moved. by destruct s. Qed.

(** C10: [process_set_state] fails exactly on a null record, and then
    changes nothing; on a record it succeeds for every target state,
    whatever the current one, and writes the state.  It requeues by the
    new state: a record made READY is the head of the ready queue, one
    made BLOCKED the head of the blocked queue, one made ZOMBIE the head
    of the zombie queue.  On a kernel whose queues are well formed (each
    a doubly-linked list that holds exactly the records in its state)
    the record leaves the queue it was in, the members of each queue are
    the former members without the record, with the record in front of
    the queue of the new state, a record moved to any other state is in
    no queue, and the queues are well formed again. *)
Theorem process_set_state_no_validation (proc : Z) (s : ProcessState) (k : Kernel) :
  links_closed k → null_or_live k proc →
  ∃ e k', process_set_state proc s k = Ok (e, k') ∧
    (e ≠ ERR_SUCCESS ↔ proc = 0) ∧
    (proc = 0 → e = ERR_INVALID_ARG ∧ k' = k) ∧
    (proc ≠ 0 →
       state_at (pcbs k') proc = Some s ∧
       (∀ x, x ≠ proc → state_at (pcbs k') x = state_at (pcbs k) x) ∧
       (∀ q, queue_of_state s = Some q → queue_head q k' = proc) ∧
       (∀ L, wf k L → wf k' (requeue proc s L)) ∧
       (s = PROC_STATE_READY → ready_queue k' = proc) ∧
       (s = PROC_STATE_BLOCKED → blocked_queue k' = proc) ∧
       (s = PROC_STATE_ZOMBIE → zombie_queue k' = proc) ∧
       (queues_well_formed k →
          queues_well_formed k' ∧
          queue_members ReadyQ k'
            = moved proc s PROC_STATE_READY (queue_members ReadyQ k) ∧
          queue_members BlockedQ k'
            = moved proc s PROC_STATE_BLOCKED (queue_members BlockedQ k) ∧
          queue_members ZombieQ k'
            = moved proc s PROC_STATE_ZOMBIE (queue_members ZombieQ k))).
Proof.
  intros LC NL.
  destruct (process_set_state_step proc s k LC NL) as (e & k' & H & He & H0 & H1).
  exists e, k'. split; [done|]. split; [|split].
  - split.
    + intros Hne. destruct (decide (proc = 0)) as [|Hp]; [done|].
      by destruct (H1 Hp) as (-> & _).
    + intros Hp. apply He in Hp. by rewrite Hp.
  - intros Hp. split; [by apply He|by apply H0].
  - intros Hp. destruct (H1 Hp) as (_ & _ & Hlive & Hst & Hs & Hq).
    assert (Hwf : ∀ L, wf k L → wf k' (requeue proc s L)).
    { intros L Hwf.
      destruct (process_set_state_wf proc s k L Hwf Hp) as (k2 & H2 & Hwf2).
      { destruct NL as [?|?]; done. }
      rewrite H in H2. by injection H2 as _ ->. }
    split; [done|]. split; [done|]. split; [done|]. split; [done|].
    split; [intros ->; by apply (Hq ReadyQ)|].
    split; [intros ->; by apply (Hq BlockedQ)|].
    split; [intros ->; by apply (Hq ZombieQ)|].
    intros Hqwf. pose proof (Hwf _ (queues_well_formed_wf k Hqwf)) as Hwf'.
    split; [by eapply wf_queues_well_formed|].
    rewrite !(wf_queue_members k' _ _ Hwf').
    apply requeue_moved.
Qed.

Lemma process_set_state_no_validation_demo :
  queues_well_formed demo_zombies ∧
  ∃ e k', process_set_state demo_A PROC_STATE_READY demo_zombies = Ok (e, k') ∧
    (e ≠ ERR_SUCCESS ↔ demo_A = 0) ∧
    (demo_A = 0 → e = ERR_INVALID_ARG ∧ k' = demo_zombies) ∧
    (demo_A ≠ 0 →
       state_at (pcbs k') demo_A = Some PROC_STATE_READY ∧
       (∀ x, x ≠ demo_A → state_at (pcbs k') x = state_at (pcbs demo_zombies) x) ∧
       (∀ q, queue_of_state PROC_STATE_READY = Some q → queue_head q k' = demo_A) ∧
       (∀ L, wf demo_zombies L → wf k' (requeue demo_A PROC_STATE_READY L)) ∧
       (PROC_STATE_READY = PROC_STATE_READY → ready_queue k' = demo_A) ∧
       (PROC_STATE_READY = PROC_STATE_BLOCKED → blocked_queue k' = demo_A) ∧
       (PROC_STATE_READY = PROC_STATE_ZOMBIE → zombie_queue k' = demo_A) ∧
       (queues_well_formed demo_zombies →
          queues_well_formed k' ∧
          queue_members ReadyQ k'
            = moved demo_A PROC_STATE_READY PROC_STATE_READY
                (queue_members ReadyQ demo_zombies) ∧
          queue_members BlockedQ k'
            = moved demo_A PROC_STATE_READY PROC_STATE_BLOCKED
                (queue_members BlockedQ demo_zombies) ∧
          queue_members ZombieQ k'
            = moved demo_A PROC_STATE_READY PROC_STATE_ZOMBIE
                (queue_members ZombieQ demo_zombies))).
Proof.
  split; [by_decide|].
  apply (process_set_state_no_validation demo_A PROC_STATE_READY demo_zombies);
    by_decide.
Defined.

(** ** The state-to-queue mapping along runs without a switch *)

(** Creation, state change, selection and reaping keep a well-formed
    kernel well formed, hence the state-to-queue mapping holds after
    every run that does not call [process_switch]. *)
Lemma run_without_switch_wf cfg ops : ∀ k L,
  wf k L → run_ok cfg ops k →
  ∃ pids k' L', run cfg ops k = Ok (pids, k') ∧ wf k' L' ∧ queue_consistent k'.
Proof.
  induction ops as [|op ops IH]; intros k L Hwf Hok.
  { exists [], k, L. split; [done|]. split; [done|]. by eapply wf_queue_consistent. }
  destruct Hok as [Hop Hok]. simpl.
  assert (∃ o k1 L1, step cfg op k = Ok (o, k1) ∧ wf k1 L1) as (o & k1 & L1 & Hstep & Hwf1).
  { destruct op as [nm prio entry|proc s| |from to|]; simpl in Hop |- *.
    - destruct (process_create_wf cfg nm prio entry k L Hwf Hop) as (p & k1 & Hc & Hwf1).
      rewrite Hc, bind_Ok.
      destruct (Z.eqb_spec p 0) as [->|Hp].
      + rewrite decide_True in Hwf1 by done. by eauto.
      + rewrite decide_False in Hwf1 by done.
        pose proof Hwf1 as [D _]%wf_parts.
        destruct (dseg_elem_live _ _ _ _ _ p (D ReadyQ)) as [_ [r Hr]].
        { unfold enqueue_ready. rewrite decide_True by done. left. }
        rewrite (load_live _ _ _ Hr), bind_Ok. by eauto.
    - destruct (Z.eqb_spec proc 0) as [->|Hp].
      + exists None, k, L. by split.
      + destruct (process_set_state_wf proc s k L Hwf Hp) as (k1 & Hs & Hwf1).
        { by destruct Hop. }
        rewrite Hs, bind_Ok. by eauto.
    - simpl in Hok. destruct (scheduler_select_next k) as [[p k1]|] eqn:Hs; [|done].
      rewrite bind_Ok. exists None, k1, L. split; [done|].
      by eapply scheduler_select_next_wf.
    - done.
    - destruct (process_reap_zombies_wf k L Hwf) as (k1 & Hr & Hwf1).
      rewrite Hr, bind_Ok. by eauto. }
  rewrite Hstep in Hok |- *. rewrite bind_Ok.
  destruct (IH k1 L1 Hwf1 Hok) as (pids & k' & L' & Hrun & Hwf' & Hqc).
  rewrite Hrun, bind_Ok. by eauto 10.
Qed.

(** ** The fuel of the two loops is enough *)

(** The reaper's loop destroys a record at every iteration: it never
    runs out of fuel. *)
Lemma reap_loop_fuel fuel : ∀ curr k,
  (size (pcbs k) < fuel)%nat → reap_loop fuel curr k ≠ Err Diverges.
Proof.
  induction fuel as [|fuel IH]; intros curr k Hf; [lia|]. simpl.
  destruct (curr =? 0); [done|]. unfold load.
  destruct (pcbs k !! curr) as [r|] eqn:Hr; [|done]. simpl.
  apply IH.
  assert (size (pcbs k) ≠ 0%nat) by (eapply map_size_ne_0_lookup_2; by exists r).
  destruct (stack_base r =? 0), (heap_base r =? 0); simpl;
    rewrite map_size_delete_Some by (by exists r); lia.
Qed.

Lemma process_reap_zombies_ends k : process_reap_zombies k ≠ Err Diverges.
Proof.
  unfold process_reap_zombies.
  pose proof (reap_loop_fuel (S (size (pcbs k))) (zombie_queue k) k ltac:(lia)) as H.
  destruct (reap_loop (S (size (pcbs k))) (zombie_queue k) k) as [k'|f]; [done|].
  simpl. congruence.
Qed.

Lemma skip_path_cons m p x l e :
  skip_path m p (x :: l) e ↔
  p = x ∧ x ≠ 0 ∧
  ∃ r, m !! x = Some r ∧ state r ≠ PROC_STATE_READY ∧ skip_path m (next r) l e.
Proof.
  simpl. split.
  - intros (-> & Hx & H). destruct (m !! x) as [r|]; [|done]. destruct H.
    split; [done|]. split; [done|]. by exists r.
  - intros (-> & Hx & r & -> & Hs & H). done.
Qed.

(** A loop that ends with some fuel has gone along a path. *)
Lemma skip_ends_path fuel : ∀ p k,
  skip_not_ready fuel p k ≠ Err Diverges →
  ∃ l e, skip_path (pcbs k) p l e ∧ skip_stops (pcbs k) e ∧ (length l < fuel)%nat.
Proof.
  induction fuel as [|fuel IH]; intros p k H; [done|]. simpl in H.
  destruct (Z.eqb_spec p 0) as [->|Hp].
  { exists [], 0. split; [done|]. split; [by left|simpl; lia]. }
  unfold load in H. destruct (pcbs k !! p) as [r|] eqn:Hr.
  2:{ exists [], p. split; [done|]. split; [right; by rewrite Hr|simpl; lia]. }
  simpl in H. destruct (decide (state r = PROC_STATE_READY)) as [Hs|Hs].
  { exists [], p. split; [done|]. split; [right; by rewrite Hr|simpl; lia]. }
  destruct (IH _ _ H) as (l & e & Hl & He & Hlen).
  exists (p :: l), e. split; [|split; [done|simpl; lia]].
  apply skip_path_cons. split; [done|]. split; [done|]. by exists r.
Qed.

(** Along a path, with more fuel than the path is long, the loop ends. *)
Lemma skip_path_ends l : ∀ fuel p k e,
  skip_path (pcbs k) p l e → skip_stops (pcbs k) e → (length l < fuel)%nat →
  skip_not_ready fuel p k ≠ Err Diverges.
Proof.
  induction l as [|x l IH]; intros fuel p k e Hl He Hf.
  - simpl in Hl. subst p. destruct fuel as [|fuel]; [simpl in Hf; lia|]. simpl.
    destruct (Z.eqb_spec e 0); [done|]. unfold load.
    destruct He as [?|He]; [done|].
    destruct (pcbs k !! e) as [r|]; [|done]. simpl in *. by rewrite decide_True.
  - apply skip_path_cons in Hl as (-> & Hx & r & Hr & Hs & Hl).
    destruct fuel as [|fuel]; [simpl in Hf; lia|]. simpl.
    destruct (Z.eqb_spec x 0); [done|]. rewrite (load_live _ _ _ Hr). simpl.
    rewrite decide_False by done. eapply IH; [done|done|simpl in Hf; lia].
Qed.

Lemma skip_path_det m l : ∀ p e l' e',
  skip_path m p l e → skip_stops m e →
  skip_path m p l' e' → skip_stops m e' → l = l'.
Proof.
  induction l as [|x l IH]; intros p e [|y l'] e' Hl He Hl' He'; [done|..].
  - simpl in Hl. subst p. apply skip_path_cons in Hl' as (-> & Hy & r & Hr & Hs & _).
    destruct He as [?|He]; [done|]. by rewrite Hr in He.
  - simpl in Hl'. subst p. apply skip_path_cons in Hl as (-> & Hx & r & Hr & Hs & _).
    destruct He' as [?|He']; [done|]. by rewrite Hr in He'.
  - apply skip_path_cons in Hl as (-> & Hx & r & Hr & Hs & Hl).
    apply skip_path_cons in Hl' as (-> & _ & r' & Hr' & _ & Hl').
    assert (r' = r) as -> by congruence. f_equal. by eapply IH.
Qed.

Lemma skip_path_lookup m l : ∀ p e i x,
  skip_path m p l e → l !! i = Some x →
  is_Some (m !! x) ∧ skip_path m x (drop i l) e.
Proof.
  induction l as [|y l IH]; intros p e i x Hl Hi; [done|].
  pose proof Hl as Hl'. apply skip_path_cons in Hl as (-> & Hy & r & Hr & Hs & Hl).
  destruct i as [|i]; simpl in Hi.
  - injection Hi as <-. split; [by exists r|done].
  - apply (IH _ _ _ _ Hl Hi).
Qed.

Lemma skip_path_length m p l e :
  skip_path m p l e → skip_stops m e → (length l ≤ size m)%nat.
Proof.
  intros Hl He.
  assert (Hnd : NoDup l).
  { apply NoDup_alt. intros i j x Hi Hj.
    destruct (skip_path_lookup _ _ _ _ _ _ Hl Hi) as [_ Pi].
    destruct (skip_path_lookup _ _ _ _ _ _ Hl Hj) as [_ Pj].
    pose proof (skip_path_det _ _ _ _ _ _ Pi He Pj He) as E.
    apply (f_equal length) in E. rewrite !length_drop in E.
    apply lookup_lt_Some in Hi, Hj. lia. }
  rewrite <- length_map_to_list, <- (length_fmap fst).
  apply submseteq_length, NoDup_submseteq; [done|].
  intros x (i & Hi)%list_elem_of_lookup.
  destruct (skip_path_lookup _ _ _ _ _ _ Hl Hi) as [[r Hr] _].
  apply list_elem_of_fmap. exists (x, r). split; [done|].
  by apply elem_of_map_to_list.
Qed.

(** A walk that ends with any amount of fuel ends with the fuel the
    scheduler is given: only a walk round a cycle runs out. *)
Lemma skip_not_ready_fuel fuel p k :
  skip_not_ready fuel p k ≠ Err Diverges →
  skip_not_ready (S (size (pcbs k))) p k ≠ Err Diverges.
Proof.
  intros (l & e & Hl & He & _)%skip_ends_path.
  eapply skip_path_ends; [done|done|].
  pose proof (skip_path_length _ _ _ _ Hl He). lia.
Qed.

(** ** Lookups in the process table *)

Lemma table_find_first test tbl k :
  Forall (live k) (occupied tbl) →
  ∃ x, table_find test tbl k = Ok x ∧ first_match test k tbl x.
Proof.
  induction tbl as [|slot tbl IH]; intros Hlive.
  - exists 0. split; [done|]. left. split; [done|]. intros y r Hy. by apply elem_of_nil in Hy.
  - simpl. rewrite occupied_cons in Hlive. destruct (Z.eqb_spec slot 0) as [->|Hne].
    + rewrite decide_False in Hlive by (by intros []).
      destruct (IH Hlive) as (x & Hx & Hm). exists x. split; [done|].
      destruct Hm as [[-> Hno]|(Hx0 & i & r & Hi & Hr & Ht & Hb)].
      * left. split; [done|]. intros y r. rewrite occupied_cons, decide_False by (by intros []).
        apply Hno.
      * right. split; [done|]. exists (S i), r. repeat split; try done.
        intros [|j] y r' Hj Hy Hy0 Hr'; simpl in Hy.
        -- by injection Hy as <-.
        -- eapply (Hb j); eauto. lia.
    + rewrite decide_True in Hlive by done. apply Forall_cons in Hlive as [[r Hr] Hlive].
      rewrite (load_live _ _ _ Hr), bind_Ok. destruct (test r) eqn:Ht.
      * exists slot. split; [done|]. right. split; [done|]. exists 0%nat, r.
        repeat split; try done. intros j ?????. lia.
      * destruct (IH Hlive) as (x & Hx & Hm). exists x. split; [done|].
        destruct Hm as [[-> Hno]|(Hx0 & i & r' & Hi & Hr' & Ht' & Hb)].
        -- left. split; [done|]. intros y ry. rewrite occupied_cons, decide_True by done.
           intros [->|Hy]%elem_of_cons Hry; [congruence|by eapply Hno].
        -- right. split; [done|]. exists (S i), r'. repeat split; try done.
           intros [|j] y ry Hj Hy Hy0 Hry; simpl in Hy.
           ++ injection Hy as <-. congruence.
           ++ eapply (Hb j); eauto. lia.
Qed.

(** X1 ([process_find]).  When every occupied slot holds a live record,
    [process_find] returns and does not fault; it answers [NULL] exactly
    when no record of the table bears the name (read as a C string), and
    otherwise the record of the lowest slot that bears it. *)
Theorem process_find_lowest_slot (nm : string) (k : Kernel) :
  Forall (live k) (occupied (process_table k)) →
  ∃ x, process_find nm k = Ok x ∧
    ((x = 0 ∧ ∀ y, y ∈ occupied (process_table k) →
                 name <$> (pcbs k !! y) ≠ Some (c_str nm)) ∨
     (x ≠ 0 ∧ ∃ i, process_table k !! i = Some x ∧
        name <$> (pcbs k !! x) = Some (c_str nm) ∧
        ∀ j y, (j < i)%nat → process_table k !! j = Some y → y ≠ 0 →
               name <$> (pcbs k !! y) ≠ Some (c_str nm))).
Proof.
  intros Hlive.
  destruct (table_find_first (λ r, strcmp_eq (name r) nm) _ k Hlive) as (x & Hx & Hm).
  exists x. split; [done|].
  destruct Hm as [[-> Hno]|(Hx0 & i & r & Hi & Hr & Ht & Hb)].
  - left. split; [done|]. intros y Hy.
    pose proof (proj1 (Forall_forall _ _) Hlive y Hy) as [r Hr]. rewrite Hr. simpl.
    intros [= E]. specialize (Hno y r Hy Hr). unfold strcmp_eq in Hno.
    apply String.eqb_neq in Hno. done.
  - right. split; [done|]. exists i. split; [done|]. split.
    + rewrite Hr. simpl. f_equal. by apply String.eqb_eq.
    + intros j y Hj Hy Hy0.
      assert (Hyo : y ∈ occupied (process_table k)).
      { apply elem_of_occupied. split; [done|]. by eapply list_elem_of_lookup_2. }
      pose proof (proj1 (Forall_forall _ _) Hlive y Hyo) as [ry Hry]. rewrite Hry. simpl.
      intros [= E]. specialize (Hb j y ry Hj Hy Hy0 Hry). unfold strcmp_eq in Hb.
      by apply String.eqb_neq in Hb.
Qed.

Lemma process_find_lowest_slot_demo :
  Forall (live demo_k3) (occupied (process_table demo_k3)) ∧
  ∃ x, process_find "A" demo_k3 = Ok x ∧
    ((x = 0 ∧ ∀ y, y ∈ occupied (process_table demo_k3) →
                 name <$> (pcbs demo_k3 !! y) ≠ Some (c_str "A")) ∨
     (x ≠ 0 ∧ ∃ i, process_table demo_k3 !! i = Some x ∧
        name <$> (pcbs demo_k3 !! x) = Some (c_str "A") ∧
        ∀ j y, (j < i)%nat → process_table demo_k3 !! j = Some y → y ≠ 0 →
               name <$> (pcbs demo_k3 !! y) ≠ Some (c_str "A"))).
Proof.
  assert (H : Forall (live demo_k3) (occupied (process_table demo_k3))) by by_decide.
  split; [exact H|]. exact (process_find_lowest_slot "A" demo_k3 H).
Defined.

(** X2 ([process_find_by_pid]).  On a table whose occupied slots hold
    distinct live records with distinct pids, [process_find_by_pid]
    returns the one record with that pid, and [NULL] exactly when the
    table has none. *)
Theorem process_find_by_pid_unique (p : Z) (k : Kernel) :
  table_ok k →
  ∃ x, process_find_by_pid p k = Ok x ∧
    (x ≠ 0 → x ∈ process_table k ∧ pid <$> (pcbs k !! x) = Some p) ∧
    (∀ y, y ∈ occupied (process_table k) → pid <$> (pcbs k !! y) = Some p → x = y) ∧
    (x = 0 ↔ ∀ y, y ∈ occupied (process_table k) → pid <$> (pcbs k !! y) ≠ Some p).
Proof.
  intros (Hnd & Hlive & Hpids).
  destruct (table_find_first (λ r, pid r =? p) _ k Hlive) as (x & Hx & Hm).
  exists x. split; [done|].
  assert (Hfound : x ≠ 0 → x ∈ occupied (process_table k) ∧ pid <$> (pcbs k !! x) = Some p).
  { intros Hx0. destruct Hm as [[-> _]|(_ & i & r & Hi & Hr & Ht & _)]; [done|].
    split.
    - apply elem_of_occupied. split; [done|]. by eapply list_elem_of_lookup_2.
    - rewrite Hr. simpl. f_equal. by apply Z.eqb_eq. }
  assert (Hnone : x = 0 → ∀ y, y ∈ occupied (process_table k) →
                          pid <$> (pcbs k !! y) ≠ Some p).
  { intros -> y Hy. destruct Hm as [[_ Hno]|(? & _)]; [|done].
    pose proof (proj1 (Forall_forall _ _) Hlive y Hy) as [r Hr]. rewrite Hr. simpl.
    intros [= E]. specialize (Hno y r Hy Hr). by apply Z.eqb_neq in Hno. }
  split; [|split; [|split]].
  - intros Hx0. destruct (Hfound Hx0) as [Hxo Hp]. split; [|done].
    by apply elem_of_occupied in Hxo as [_ ?].
  - intros y Hy Hp. destruct (decide (x = 0)) as [E|Hx0].
    + by destruct (Hnone E y Hy).
    + destruct (Hfound Hx0) as [Hxo Hxp].
      pose proof (proj1 (Forall_forall _ _) Hpids x Hxo) as Hx'.
      apply (proj1 (Forall_forall _ _) Hx' y Hy). by rewrite Hxp, Hp.
  - done.
  - intros Hall. destruct (decide (x = 0)) as [E|Hx0]; [done|].
    destruct (Hfound Hx0) as [Hxo Hxp]. by destruct (Hall x Hxo).
Qed.

Lemma process_find_by_pid_unique_demo :
  table_ok demo_k3 ∧
  ∃ x, process_find_by_pid 2 demo_k3 = Ok x ∧
    (x ≠ 0 → x ∈ process_table demo_k3 ∧ pid <$> (pcbs demo_k3 !! x) = Some 2) ∧
    (∀ y, y ∈ occupied (process_table demo_k3) →
          pid <$> (pcbs demo_k3 !! y) = Some 2 → x = y) ∧
    (x = 0 ↔ ∀ y, y ∈ occupied (process_table demo_k3) →
                  pid <$> (pcbs demo_k3 !! y) ≠ Some 2).
Proof.
  assert (H : table_ok demo_k3) by by_decide.
  split; [exact H|]. exact (process_find_by_pid_unique 2 demo_k3 H).
Defined.

(** ** What the queue operations leave alone *)

Lemma queues_only_refl k : queues_only k k.
Proof. unfold queues_only. by split_and!. Qed.

Lemma queues_only_trans k1 k2 k3 : queues_only k1 k2 → queues_only k2 k3 → queues_only k1 k3.
Proof.
  intros (A1 & A2 & A3 & A4 & A5 & A6 & A7 & A8) (B1 & B2 & B3 & B4 & B5 & B6 & B7 & B8).
  unfold queues_only. split_and!; first [congruence | intros x; by rewrite B8].
Qed.

Lemma queues_only_live k k' x : queues_only k k' → live k' x ↔ live k x.
Proof.
  intros (_ & _ & _ & _ & _ & _ & _ & H). unfold live. specialize (H x).
  destruct (pcbs k' !! x), (pcbs k !! x); simpl in H; try done; split; by intros [].
Qed.

Lemma poke_queues_only p f k k' :
  (∀ r, payload (f r) = payload r) → poke p f k = Ok k' → queues_only k k'.
Proof.
  intros Hf (r & Hr & ->)%poke_inv. unfold queues_only. split_and!; try done. intros x. simpl.
  destruct (decide (p = x)) as [->|Hne].
  - rewrite lookup_insert_eq, Hr. simpl. by rewrite Hf.
  - by rewrite lookup_insert_ne.
Qed.

Lemma set_queue_head_queues_only q v k : queues_only k (set_queue_head q v k).
Proof. by destruct q. Qed.

Ltac poke_links := eapply poke_queues_only; [|eassumption]; by intros [].

Lemma remove_queues_only proc s k k' :
  process_remove_from_queue proc s k = Ok k' → queues_only k k'.
Proof.
  unfold process_remove_from_queue. intros H.
  destruct (queue_of_state s) as [q|]; [|injection H as <-; apply queues_only_refl].
  apply bind_inv in H as (k1 & H1 & H).
  apply bind_inv in H as (k2 & H2 & H3).
  assert (F1 : queues_only k k1).
  { destruct (queue_head q k =? proc).
    - apply bind_inv in H1 as (r & _ & H1).
      destruct (queue_head q (set_queue_head q (next r) k) =? 0).
      + injection H1 as <-. apply set_queue_head_queues_only.
      + eapply queues_only_trans; [apply set_queue_head_queues_only|].
        poke_links.
    - apply bind_inv in H1 as (r & _ & H1).
      apply bind_inv in H1 as (k0 & H0 & H1).
      apply bind_inv in H1 as (r0 & _ & H1).
      assert (F0 : queues_only k k0).
      { destruct (prev r =? 0); [injection H0 as <-; apply queues_only_refl|].
        poke_links. }
      eapply queues_only_trans; [exact F0|].
      destruct (next r0 =? 0); [injection H1 as <-; apply queues_only_refl|].
      poke_links. }
  eapply queues_only_trans; [exact F1|].
  eapply queues_only_trans; [poke_links|poke_links].
Qed.

Lemma add_queues_only proc s k k' :
  process_add_to_queue proc s k = Ok k' → queues_only k k'.
Proof.
  unfold process_add_to_queue. intros H.
  destruct (queue_of_state s) as [q|]; [|injection H as <-; apply queues_only_refl].
  apply bind_inv in H as (k1 & H1 & H).
  apply bind_inv in H as (k2 & H2 & H).
  apply bind_inv in H as (k3 & H3 & H). injection H as <-.
  eapply queues_only_trans; [poke_links|].
  eapply queues_only_trans; [poke_links|].
  eapply queues_only_trans; [|apply set_queue_head_queues_only].
  destruct (queue_head q k2 =? 0); [injection H3 as <-; apply queues_only_refl|].
  poke_links.
Qed.

Lemma process_set_state_queues_only proc s k e k' :
  process_set_state proc s k = Ok (e, k') → queues_only k k'.
Proof.
  unfold process_set_state. intros H.
  destruct (proc =? 0); [injection H as _ <-; apply queues_only_refl|].
  apply bind_inv in H as (r & _ & H).
  apply bind_inv in H as (k1 & H1 & H).
  apply bind_inv in H as (k2 & H2 & H).
  apply bind_inv in H as (k3 & H3 & H). injection H as _ <-.
  eapply queues_only_trans; [poke_links|].
  eapply queues_only_trans; [by eapply remove_queues_only|].
  by eapply add_queues_only.
Qed.

Lemma context_only_refl k : context_only k k.
Proof. unfold context_only. by split_and!. Qed.

Lemma context_only_trans k1 k2 k3 :
  context_only k1 k2 → context_only k2 k3 → context_only k1 k3.
Proof.
  intros (A1 & A2 & A3 & A4 & A5 & A6 & A7) (B1 & B2 & B3 & B4 & B5 & B6 & B7).
  unfold context_only.
  split_and!; first [congruence | intros x; by rewrite ?B5, ?B7].
Qed.

Lemma context_only_live k k' x : context_only k k' → live k' x ↔ live k x.
Proof.
  intros (_ & _ & _ & _ & _ & _ & H). unfold live. specialize (H x).
  destruct (pcbs k' !! x), (pcbs k !! x); simpl in H; try done; split; by intros [].
Qed.

Lemma poke_context_only p f k k' :
  (∀ r, fixed_part (f r) = fixed_part r) → poke p f k = Ok k' → context_only k k'.
Proof.
  intros Hf (r & Hr & ->)%poke_inv. unfold context_only.
  split_and!; try done; try (by intros []). intros x. simpl.
  destruct (decide (p = x)) as [->|Hne].
  - rewrite lookup_insert_eq, Hr. simpl. by rewrite Hf.
  - by rewrite lookup_insert_ne.
Qed.

(** [process_switch] writes no link and no queue head. *)
Lemma process_switch_context_only from to k k' :
  process_switch from to k = Ok k' → context_only k k'.
Proof.
  unfold process_switch. intros H.
  destruct (to =? 0); [injection H as <-; apply context_only_refl|].
  apply bind_inv in H as (k1 & H1 & H).
  apply bind_inv in H as (k2 & H2 & H).
  unfold process_restore_context in H. apply bind_inv in H as (r & _ & [= <-]).
  assert (F1 : context_only k k1).
  { destruct (from =? 0); [injection H1 as <-; apply context_only_refl|].
    apply bind_inv in H1 as (k0 & H0 & H1).
    eapply context_only_trans; (eapply poke_context_only; [|eassumption]); by intros []. }
  assert (F2 : context_only k1 k2).
  { eapply poke_context_only; [|eassumption]. by intros []. }
  eapply context_only_trans; [exact F1|]. eapply context_only_trans; [exact F2|].
  unfold context_only. split_and!; try done; by intros [].
Qed.

(** ** The table and the heap agree *)

Lemma chain_undelete m x l : ∀ p, chain (delete x m) p l → chain m p l ∧ x ∉ l.
Proof.
  induction l as [|y l IH]; intros p Hc.
  - split; [done|]. apply not_elem_of_nil.
  - apply chain_cons in Hc as (-> & Hy & r & Hr & Hc).
    destruct (decide (x = y)) as [->|Hne]; [by rewrite lookup_delete_eq in Hr|].
    rewrite lookup_delete_ne in Hr by done. destruct (IH _ Hc) as [Hc' Hx]. split.
    + apply chain_cons. split; [done|]. split; [done|]. by exists r.
    + by intros [?|?]%elem_of_cons.
Qed.

(** A reap that returns has walked a chain: a cyclic or dangling zombie
    queue makes the loop read a record it has released. *)
Lemma reap_loop_inv fuel : ∀ curr k k',
  reap_loop fuel curr k = Ok k' →
  ∃ zs, chain (pcbs k) curr zs ∧ k' = reaped k zs.
Proof.
  induction fuel as [|fuel IH]; intros curr k k' H; [done|]. simpl in H.
  destruct (Z.eqb_spec curr 0) as [->|Hne].
  - injection H as <-. exists []. split; [done|].
    unfold reaped, released. simpl. rewrite app_nil_r. by destruct k.
  - apply bind_inv in H as (r & Hr%load_inv & H).
    apply IH in H as (zs & Hc & ->).
    assert (Hc' : chain (delete curr (pcbs k)) (next r) zs).
    { by destruct (stack_base r =? 0), (heap_base r =? 0). }
    apply chain_undelete in Hc' as [Hc' Hnin].
    exists (curr :: zs). split.
    + apply chain_cons. split; [done|]. split; [done|]. by exists r.
    + unfold reaped. rewrite released_cons, Hr.
      destruct (stack_base r =? 0), (heap_base r =? 0); ksimpl; simpl;
        rewrite released_delete by done; by rewrite <- ?app_assoc.
Qed.

Lemma process_reap_zombies_inv k k' :
  process_reap_zombies k = Ok k' →
  ∃ zs, chain (pcbs k) (zombie_queue k) zs ∧ k' = set_zombie_queue 0 (reaped k zs).
Proof.
  unfold process_reap_zombies. intros H. apply bind_inv in H as (k1 & H1 & [= <-]).
  apply reap_loop_inv in H1 as (zs & Hc & ->). by exists zs.
Qed.

Lemma table_inv_same cfg k k' :
  process_table k' = process_table k → process_count k' = process_count k →
  (∀ x, live k' x ↔ live k x) →
  table_inv cfg k → table_inv cfg k'.
Proof.
  intros Ht Hc Hl (H1 & H2 & H3 & H4 & H5). unfold table_inv. rewrite Ht, Hc.
  split_and!; try done.
  - eapply Forall_impl; [exact H3|]. intros x Hx. by apply Hl.
  - intros p r Hp. assert (Hlp : live k p) by (apply Hl; by exists r).
    destruct Hlp as [r0 Hr0]. by apply (H4 p r0).
Qed.

Lemma table_inv_queues_only cfg k k' : queues_only k k' → table_inv cfg k → table_inv cfg k'.
Proof.
  intros Hq. pose proof Hq as (Ht & Hc & _). apply table_inv_same; try done.
  intros x. by apply queues_only_live.
Qed.

Lemma table_inv_bound cfg k :
  table_inv cfg k → 0 ≤ process_count k ≤ Z.of_nat (MAX_PROCESSES cfg).
Proof.
  intros (H1 & _ & _ & _ & H5). rewrite H5, <- H1.
  pose proof (length_filter (λ p : Z, p ≠ 0) (process_table k)). unfold occupied. lia.
Qed.

(** *** Insertion *)

Lemma length_table_insert proc tbl : length (table_insert proc tbl) = length tbl.
Proof.
  induction tbl as [|slot tbl IH]; [done|]. simpl.
  destruct (slot =? 0); simpl; by rewrite ?IH.
Qed.

Lemma table_insert_occupied proc tbl :
  proc ≠ 0 → 0 ∈ tbl → occupied (table_insert proc tbl) ≡ₚ proc :: occupied tbl.
Proof.
  intros Hp. induction tbl as [|slot tbl IH]; intros H0; [by apply elem_of_nil in H0|].
  simpl. destruct (Z.eqb_spec slot 0) as [->|Hne].
  - by rewrite !occupied_cons, decide_True, decide_False by (done || by intros []).
  - apply elem_of_cons in H0 as [?|H0]; [done|].
    rewrite !occupied_cons, !decide_True by done. rewrite IH by done. apply perm_swap.
Qed.

Lemma table_free_slot tbl : (length (occupied tbl) < length tbl)%nat → 0 ∈ tbl.
Proof.
  intros Hlt. destruct (decide (0 ∈ tbl)) as [|Hnin]; [done|]. exfalso.
  unfold occupied in Hlt. rewrite filter_all in Hlt; [lia|]. intros x Hx ->. done.
Qed.

(** A successful creation finds its free slot. *)
Lemma table_insert_found proc tbl :
  proc ≠ 0 → 0 ∈ tbl → proc ∈ table_insert proc tbl.
Proof.
  intros Hp H0.
  assert (H : proc ∈ occupied (table_insert proc tbl)).
  { rewrite table_insert_occupied by done. left. }
  by apply elem_of_occupied in H as [_ ?].
Qed.

(** *** Removal *)

Lemma length_table_remove z tbl : length (table_remove z tbl) = length tbl.
Proof.
  induction tbl as [|slot tbl IH]; [done|]. simpl.
  destruct (slot =? z); simpl; by rewrite ?IH.
Qed.

Lemma length_foldl_table_remove zs : ∀ tbl,
  length (foldl (λ tbl z, table_remove z tbl) tbl zs) = length tbl.
Proof.
  induction zs as [|z zs IH]; intros tbl; [done|]. simpl.
  by rewrite IH, length_table_remove.
Qed.

Lemma length_filter_out (zs l : list Z) :
  NoDup zs → NoDup l → zs ⊆ l →
  (length (filter (λ p, p ∉ zs) l) + length zs = length l)%nat.
Proof.
  intros Hzs Hl Hsub.
  pose proof (filter_app_complement (λ p, p ∉ zs) l) as Hperm.
  apply Permutation_length in Hperm. rewrite length_app in Hperm.
  assert (E : filter (λ x : Z, ¬ (x ∉ zs)) l ≡ₚ zs).
  { apply NoDup_Permutation; [by apply NoDup_filter|done|].
    intros x. rewrite list_elem_of_filter. split.
    - intros [Hx _]. by apply dec_stable.
    - intros Hx. split; [by intros ?|by apply Hsub]. }
  apply Permutation_length in E. lia.
Qed.

Lemma foldl_count_down (zs : list Z) : ∀ c,
  Z.of_nat (length zs) ≤ c < 2 ^ 32 →
  foldl (λ c _, wrap32 (c - 1)) c zs = c - Z.of_nat (length zs).
Proof.
  induction zs as [|z zs IH]; intros c Hc; simpl in *; [lia|].
  rewrite IH.
  - unfold wrap32. rewrite Z.mod_small by lia. lia.
  - unfold wrap32. rewrite Z.mod_small by lia. lia.
Qed.

(** *** Each operation *)

Lemma table_inv_created cfg nm prio entry k proc stk hp :
  Z.of_nat (MAX_PROCESSES cfg) < 2 ^ 32 →
  table_inv cfg k → process_count k < Z.of_nat (MAX_PROCESSES cfg) →
  proc ≠ 0 → pcbs k !! proc = None →
  table_inv cfg (created cfg nm prio entry k proc stk hp).
Proof.
  intros Hmax (H1 & H2 & H3 & H4 & H5) Hlt Hp Hfresh.
  assert (H0 : 0 ∈ process_table k) by (apply table_free_slot; lia).
  pose proof (table_insert_occupied proc _ Hp H0) as Hperm.
  unfold table_inv, created. simpl. split_and!.
  - by rewrite length_table_insert.
  - rewrite Hperm. apply NoDup_cons. split; [|done]. intros Hin.
    pose proof (proj1 (Forall_forall _ _) H3 _ Hin) as [r Hr]. congruence.
  - rewrite Hperm. apply Forall_cons. split.
    + unfold live. simpl. rewrite lookup_insert_eq. by eexists.
    + eapply Forall_impl; [exact H3|]. intros x [r Hr]. unfold live. simpl.
      destruct (decide (proc = x)) as [->|Hne]; [congruence|].
      rewrite lookup_insert_ne by done. by exists r.
  - intros x r. rewrite Hperm. destruct (decide (proc = x)) as [->|Hne]; [left|].
    rewrite lookup_insert_ne by done. intros Hx. right. by apply (H4 x r).
  - rewrite Hperm. simpl. unfold wrap32. rewrite Z.mod_small by lia. lia.
Qed.

Lemma table_inv_create cfg nm prio entry k p k' :
  Z.of_nat (MAX_PROCESSES cfg) < 2 ^ 32 →
  table_inv cfg k → pcbs k !! pcb_answer cfg k = None →
  process_create cfg nm prio entry k = Ok (p, k') →
  table_inv cfg k'.
Proof.
  intros Hmax Hinv Hfresh. rewrite process_create_paths.
  destruct (Z.leb_spec (Z.of_nat (MAX_PROCESSES cfg)) (process_count k)) as [Hfull|Hroom].
  { by intros [= _ <-]. }
  assert (Hdel : ∀ x, is_Some (delete (pcb_answer cfg k) (pcbs k) !! x) ↔ live k x).
  { intros x. unfold live. destruct (decide (x = pcb_answer cfg k)) as [->|Hne].
    - rewrite lookup_delete_eq, Hfresh. split; by intros [].
    - by rewrite lookup_delete_ne. }
  destruct (Z.eqb_spec (pcb_answer cfg k) 0) as [E|Hp].
  { intros [= _ <-]. by apply (table_inv_same cfg k). }
  destruct (stack_answer cfg k =? 0).
  { intros [= _ <-]. by apply (table_inv_same cfg k). }
  destruct (heap_answer cfg k =? 0).
  { intros [= _ <-]. by apply (table_inv_same cfg k). }
  intros H. apply bind_inv in H as ([e k1] & Hs & [= _ <-]).
  apply process_set_state_queues_only in Hs.
  eapply table_inv_queues_only; [exact Hs|]. by apply table_inv_created.
Qed.

Lemma table_inv_reaped cfg k zs :
  Z.of_nat (MAX_PROCESSES cfg) < 2 ^ 32 →
  table_inv cfg k → chain (pcbs k) (zombie_queue k) zs →
  table_inv cfg (set_zombie_queue 0 (reaped k zs)).
Proof.
  intros Hmax Hinv Hc. pose proof (table_inv_bound _ _ Hinv) as Hb.
  destruct Hinv as (H1 & H2 & H3 & H4 & H5).
  pose proof (chain_NoDup _ _ _ Hc) as Hnd.
  pose proof (chain_nonzero _ _ _ Hc) as Hnz.
  assert (Hsub : zs ⊆ occupied (process_table k)).
  { intros z Hz. destruct (chain_live _ _ _ _ Hc Hz) as [r Hr]. by apply (H4 z r). }
  pose proof (length_filter_out zs _ Hnd H2 Hsub) as Hlen.
  unfold table_inv, reaped. simpl.
  rewrite foldl_table_remove_occupied by done. split_and!.
  - by rewrite length_foldl_table_remove.
  - by apply NoDup_filter.
  - apply Forall_forall. intros x [Hx Hxo]%list_elem_of_filter.
    pose proof (proj1 (Forall_forall _ _) H3 _ Hxo) as Hl. unfold live. simpl.
    by rewrite lookup_foldl_delete, decide_False.
  - intros x r. rewrite lookup_foldl_delete. destruct (decide (x ∈ zs)); [done|].
    intros Hx. apply list_elem_of_filter. split; [done|]. by apply (H4 x r).
  - rewrite foldl_count_down by lia. lia.
Qed.

Lemma scheduler_select_next_statics k p k' :
  scheduler_select_next k = Ok (p, k') →
  process_table k' = process_table k ∧ process_count k' = process_count k ∧
  pcbs k' = pcbs k.
Proof. intros H. apply select_next_frame in H. rewrite H. done. Qed.

Lemma step_table_inv cfg op k o k' :
  Z.of_nat (MAX_PROCESSES cfg) < 2 ^ 32 →
  table_inv cfg k →
  (is_create op = true → pcbs k !! pcb_answer cfg k = None) →
  step cfg op k = Ok (o, k') →
  table_inv cfg k'.
Proof.
  intros Hmax Hinv Hfresh H. destruct op as [nm prio entry|proc s| |from to|]; simpl in H.
  - apply bind_inv in H as ([p k1] & Hc & H).
    assert (k' = k1) as ->.
    { destruct (p =? 0); [by injection H as _ <-|].
      by apply bind_inv in H as (r & _ & [= _ <-]). }
    eapply table_inv_create; eauto.
  - apply bind_inv in H as ([e k1] & Hs & [= _ <-]).
    eapply table_inv_queues_only; [|done]. by eapply process_set_state_queues_only.
  - apply bind_inv in H as ([p k1] & Hs & [= _ <-]).
    apply scheduler_select_next_statics in Hs as (Ht & Hc & Hp).
    apply (table_inv_same cfg k); try done. intros x. unfold live. by rewrite Hp.
  - apply bind_inv in H as (k1 & Hs & [= _ <-]).
    apply process_switch_context_only in Hs.
    pose proof Hs as (Ht & Hc & _).
    apply (table_inv_same cfg k); try done. intros x. by apply context_only_live.
  - apply bind_inv in H as (k1 & Hs & [= _ <-]).
    apply process_reap_zombies_inv in Hs as (zs & Hc & ->).
    by apply table_inv_reaped.
Qed.

(** X3 (the process table along a run).  Take a kernel in which the
    table agrees with the heap: the occupied slots hold every live record
    once and nothing else, and [process_count] is their number.  After
    any sequence of creations, state changes, selections, switches and
    reaps that returns, on a platform whose allocator never answers a
    creation with the address of a live record, the table still agrees
    with the heap, and [process_count] is at most [MAX_PROCESSES]. *)
Theorem table_agrees_with_heap (cfg : Platform) (ops : list Op) :
  ∀ (k k' : Kernel) (pids : list Z),
  Z.of_nat (MAX_PROCESSES cfg) < 2 ^ 32 →
  table_inv cfg k → allocator_fresh cfg ops k →
  run cfg ops k = Ok (pids, k') →
  table_inv cfg k' ∧ 0 ≤ process_count k' ≤ Z.of_nat (MAX_PROCESSES cfg).
Proof.
  induction ops as [|op ops IH]; intros k k' pids Hmax Hinv Hfresh H.
  { injection H as _ <-. split; [done|]. by eapply table_inv_bound. }
  simpl in H. destruct Hfresh as [Hf Hrest].
  apply bind_inv in H as ([o k1] & Hs & H). rewrite Hs in Hrest.
  apply bind_inv in H as ([ps k2] & Hr & [= _ <-]).
  apply (IH k1 k2 ps); try done. by eapply step_table_inv.
Qed.

Lemma table_agrees_with_heap_demo :
  table_inv demo (after demo demo_lifecycle demo_k1) ∧
  0 ≤ process_count (after demo demo_lifecycle demo_k1) ≤ Z.of_nat (MAX_PROCESSES demo).
Proof.
  apply (table_agrees_with_heap demo demo_lifecycle demo_k1 _ [2; 3]).
  - by vm_compute.
  - by_decide.
  - vm_compute. repeat split; done.
  - by vm_compute.
Defined.

(** ** The listing *)

Lemma list_rows_occupied tbl k :
  Forall (live k) (occupied tbl) →
  ∃ rows, list_rows tbl k = Ok rows ∧
    Forall2 (λ p row, row_of <$> (pcbs k !! p) = Some row) (occupied tbl) rows.
Proof.
  induction tbl as [|slot tbl IH]; intros Hlive.
  - exists []. split; [done|]. constructor.
  - simpl. rewrite occupied_cons in *. destruct (Z.eqb_spec slot 0) as [->|Hne].
    + rewrite decide_False in * by (by intros []). by apply IH.
    + rewrite decide_True in * by done. apply Forall_cons in Hlive as [[r Hr] Hlive].
      destruct (IH Hlive) as (rows & Hrows & Hall).
      exists (row_of r :: rows). rewrite (load_live _ _ _ Hr), bind_Ok, Hrows, bind_Ok.
      split; [done|]. constructor; [by rewrite Hr|done].
Qed.

(** X4 ([process_list_all]).  When the table agrees with the heap, the
    listing does not fault and shows one row for each occupied slot, in
    table order, and so one for every live process.  The row of a record
    shows the name of its state and its name; its pid and its priority
    are shown as they are below [2^31], and less [2^32] from there on,
    since [%d] reads the unsigned field as an [int]; and the count in the
    header, shown the same way, is the number of rows. *)
Theorem process_list_all_complete (cfg : Platform) (k : Kernel) :
  table_inv cfg k →
  ∃ header rows, process_list_all k = Ok (header, rows) ∧
    process_count k = Z.of_nat (length rows) ∧
    (process_count k < 2 ^ 31 → header = process_count k) ∧
    (2 ^ 31 ≤ process_count k → header = process_count k - 2 ^ 32) ∧
    length rows = length (occupied (process_table k)) ∧
    (∀ i p, occupied (process_table k) !! i = Some p →
       ∃ r row, pcbs k !! p = Some r ∧ rows !! i = Some row ∧
         row_state row = process_state_to_string (state r) ∧
         row_name row = name r ∧
         (pid r < 2 ^ 31 → row_pid row = pid r) ∧
         (2 ^ 31 ≤ pid r → row_pid row = pid r - 2 ^ 32) ∧
         (priority r < 2 ^ 31 → row_priority row = priority r) ∧
         (2 ^ 31 ≤ priority r → row_priority row = priority r - 2 ^ 32)) ∧
    (∀ p, live k p → ∃ i, occupied (process_table k) !! i = Some p).
Proof.
  intros (H1 & H2 & H3 & H4 & H5).
  destruct (list_rows_occupied _ k H3) as (rows & Hrows & Hall).
  exists (kprintf_d (process_count k)), rows.
  unfold process_list_all. rewrite Hrows, bind_Ok.
  pose proof (Forall2_length _ _ _ Hall) as Hlen.
  split; [done|]. split; [by rewrite H5, Hlen|].
  split; [unfold kprintf_d; destruct (Z.ltb_spec (process_count k) (2 ^ 31)); lia|].
  split; [unfold kprintf_d; destruct (Z.ltb_spec (process_count k) (2 ^ 31)); lia|].
  split; [done|]. split.
  - intros i p Hi.
    destruct (Forall2_lookup_l _ _ _ _ _ Hall Hi) as (row & Hrow & Hp).
    destruct (pcbs k !! p) as [r|] eqn:Hr; [|done]. injection Hp as <-.
    exists r, (row_of r). split; [done|]. split; [done|].
    unfold row_of, kprintf_d. cbn [row_pid row_state row_priority row_name].
    split; [done|]. split; [done|].
    destruct (Z.ltb_spec (pid r) (2 ^ 31)), (Z.ltb_spec (priority r) (2 ^ 31));
      split_and!; lia.
  - intros p [r Hr]. apply list_elem_of_lookup. by eapply H4.
Qed.

Lemma process_list_all_complete_demo :
  ∃ header rows, process_list_all demo_k3 = Ok (header, rows) ∧
    process_count demo_k3 = Z.of_nat (length rows) ∧
    (process_count demo_k3 < 2 ^ 31 → header = process_count demo_k3) ∧
    (2 ^ 31 ≤ process_count demo_k3 → header = process_count demo_k3 - 2 ^ 32) ∧
    length rows = length (occupied (process_table demo_k3)) ∧
    (∀ i p, occupied (process_table demo_k3) !! i = Some p →
       ∃ r row, pcbs demo_k3 !! p = Some r ∧ rows !! i = Some row ∧
         row_state row = process_state_to_string (state r) ∧
         row_name row = name r ∧
         (pid r < 2 ^ 31 → row_pid row = pid r) ∧
         (2 ^ 31 ≤ pid r → row_pid row = pid r - 2 ^ 32) ∧
         (priority r < 2 ^ 31 → row_priority row = priority r) ∧
         (2 ^ 31 ≤ priority r → row_priority row = priority r - 2 ^ 32)) ∧
    (∀ p, live demo_k3 p → ∃ i, occupied (process_table demo_k3) !! i = Some p).
Proof. apply (process_list_all_complete demo demo_k3). by_decide. Defined.

(** ** Creation: the record it returns *)

Lemma process_create_record cfg nm prio entry k proc k' :
  process_create cfg nm prio entry k = Ok (proc, k') → proc ≠ 0 →
  pcbs k !! proc = None → null_or_live k (ready_queue k) →
  proc = pcb_answer cfg k ∧ stack_answer cfg k ≠ 0 ∧ heap_answer cfg k ≠ 0 ∧
  process_count k < Z.of_nat (MAX_PROCESSES cfg) ∧
  ∃ m,
    k' = set_ready_queue proc
           (set_pcbs m (created cfg nm prio entry k proc (stack_answer cfg k)
                          (heap_answer cfg k))) ∧
    m !! proc = Some (set_prev 0 (set_next (ready_queue k) (set_state PROC_STATE_READY
                   (new_pcb cfg nm prio entry (next_pid k) (stack_answer cfg k)
                      (heap_answer cfg k))))) ∧
    (∀ x, x ≠ proc → next <$> (m !! x) = next <$> (pcbs k !! x)) ∧
    (∀ x, x ≠ proc → state_at m x = state_at (pcbs k) x) ∧
    (∀ x, x ≠ proc → pid <$> (m !! x) = pid <$> (pcbs k !! x)) ∧
    (∀ x, is_Some (m !! x) ↔ x = proc ∨ is_Some (pcbs k !! x)).
Proof.
  intros Hc Hp Hfresh Hhead.
  destruct (process_create_success_inv _ _ _ _ _ _ _ Hc Hp) as (E & Hs & Hh & Hlt & e & Hset).
  split; [done|]. split; [done|]. split; [done|]. split; [done|].
  set (kc := created cfg nm prio entry k proc (stack_answer cfg k) (heap_answer cfg k))
    in *.
  destruct (enqueue_new kc proc
              (new_pcb cfg nm prio entry (next_pid k) (stack_answer cfg k)
                 (heap_answer cfg k)))
    as (m & Hm & Hmp & Hnext & Hstate & Hpid & Hlive).
  - done.
  - unfold kc, created. simpl. apply lookup_insert_eq.
  - done.
  - unfold kc, created, live. simpl. destruct Hhead as [->|[r Hr]]; [by left|]. right.
    assert (ready_queue k ≠ proc) by congruence. split; [done|].
    rewrite lookup_insert_ne by done. by exists r.
  - exists m. rewrite Hset in Hm. injection Hm as _ ->. split; [done|]. split; [done|].
    unfold kc, created in Hnext, Hstate, Hpid, Hlive. simpl in *. split_and!.
    + intros x Hx. rewrite Hnext by done. by rewrite lookup_insert_ne.
    + intros x Hx. rewrite Hstate by done. unfold state_at. by rewrite lookup_insert_ne.
    + intros x Hx. rewrite Hpid by done. by rewrite lookup_insert_ne.
    + intros x. rewrite Hlive. destruct (decide (proc = x)) as [->|Hne].
      * rewrite lookup_insert_eq. split; [by left|by eexists].
      * rewrite lookup_insert_ne by done. split; [by right|by intros [?|?]].
Qed.

(** X6 ([process_create], [process_init_context]).  The record a
    successful creation returns: it carries the pid the counter held, the
    name cut to the size of the field, the priority and entry point
    asked for, a stack of 16 KB and a heap of 64 KB; its saved context is
    the entry point, the stack top less two words, and fourteen zeros; it
    is READY and at the head of the ready queue, in front of the former
    head; the counters have advanced by one and the allocator was asked
    three times.  The record is written into the free slot of lowest
    index and no other slot changes; when the count is below the limit
    and yet no slot is free, the creation succeeds all the same and the
    record is in no slot. *)
Theorem process_create_result
    (cfg : Platform) (nm : string) (prio entry : Z) (k k' : Kernel) (proc : Z) :
  process_create cfg nm prio entry k = Ok (proc, k') → proc ≠ 0 →
  pcbs k !! proc = None → null_or_live k (ready_queue k) →
  ∃ stk hp,
    stk ≠ 0 ∧ hp ≠ 0 ∧
    pcbs k' !! proc =
      Some (mkProcess (next_pid k) (strncpy nm (sizeof_name cfg - 1)) PROC_STATE_READY
              prio entry stk (16 * KB cfg) hp (64 * KB cfg)
              ([entry; wrap32 (wrap32 (wrap32 (stk + 16 * KB cfg) - 4) - 4)]
                 ++ replicate 14 0)
              0 (ready_queue k)) ∧
    ready_queue k' = proc ∧
    next_pid k' = wrap32 (next_pid k + 1) ∧
    process_count k' = wrap32 (process_count k + 1) ∧
    (∀ i, process_table k !! i = Some 0 →
          (∀ j y, (j < i)%nat → process_table k !! j = Some y → y ≠ 0) →
          process_table k' !! i = Some proc ∧
          ∀ j, j ≠ i → process_table k' !! j = process_table k !! j) ∧
    (0 ∉ process_table k → process_table k' = process_table k) ∧
    mem_log k' = mem_log k ++ [Alloc (sizeof_Process cfg) proc; Alloc (16 * KB cfg) stk;
                               Alloc (64 * KB cfg) hp].
Proof.
  intros Hc Hp Hfresh Hhead.
  destruct (process_create_record _ _ _ _ _ _ _ Hc Hp Hfresh Hhead)
    as (E & Hs & Hh & Hlt & m & -> & Hm & _).
  exists (stack_answer cfg k), (heap_answer cfg k). split; [done|]. split; [done|].
  simpl. rewrite Hm. split; [done|]. split; [done|]. split; [done|]. split; [done|].
  split; [|split; [|done]].
  - generalize (process_table k) as tbl. clear.
    induction tbl as [|slot tbl IH]; intros i Hi Hbefore; [done|].
    destruct i as [|i]; simpl in *.
    + injection Hi as ->. split; [done|]. by intros [|j].
    + destruct (Z.eqb_spec slot 0) as [->|Hne].
      { by destruct (Hbefore 0%nat 0 ltac:(lia) eq_refl). }
      destruct (IH i Hi) as [Hi' Hother].
      { intros j y Hj Hy. apply (Hbefore (S j) y); [lia|done]. }
      split; [done|]. intros [|j] Hj; [done|]. simpl. apply Hother. lia.
  - generalize (process_table k) as tbl. clear.
    induction tbl as [|slot tbl IH]; intros Hnin; [done|]. simpl.
    apply not_elem_of_cons in Hnin as [Hne Hnin].
    destruct (Z.eqb_spec slot 0) as [->|_]; [done|]. by rewrite IH.
Qed.

Lemma process_create_result_demo :
  ∃ stk hp,
    stk ≠ 0 ∧ hp ≠ 0 ∧
    pcbs (after demo [OpCreate "A" 1 100] demo_k1) !! demo_A =
      Some (mkProcess (next_pid demo_k1) (strncpy "A" (sizeof_name demo - 1))
              PROC_STATE_READY 1 100 stk (16 * KB demo) hp (64 * KB demo)
              ([100; wrap32 (wrap32 (wrap32 (stk + 16 * KB demo) - 4) - 4)]
                 ++ replicate 14 0)
              0 (ready_queue demo_k1)) ∧
    ready_queue (after demo [OpCreate "A" 1 100] demo_k1) = demo_A ∧
    next_pid (after demo [OpCreate "A" 1 100] demo_k1) = wrap32 (next_pid demo_k1 + 1) ∧
    process_count (after demo [OpCreate "A" 1 100] demo_k1)
      = wrap32 (process_count demo_k1 + 1) ∧
    (∀ i, process_table demo_k1 !! i = Some 0 →
          (∀ j y, (j < i)%nat → process_table demo_k1 !! j = Some y → y ≠ 0) →
          process_table (after demo [OpCreate "A" 1 100] demo_k1) !! i = Some demo_A ∧
          ∀ j, j ≠ i → process_table (after demo [OpCreate "A" 1 100] demo_k1) !! j
                       = process_table demo_k1 !! j) ∧
    (0 ∉ process_table demo_k1 →
     process_table (after demo [OpCreate "A" 1 100] demo_k1) = process_table demo_k1) ∧
    mem_log (after demo [OpCreate "A" 1 100] demo_k1)
      = mem_log demo_k1 ++ [Alloc (sizeof_Process demo) demo_A; Alloc (16 * KB demo) stk;
                            Alloc (64 * KB demo) hp].
Proof.
  apply (process_create_result demo "A" 1 100 demo_k1).
  - by vm_compute.
  - by vm_compute.
  - by vm_compute.
  - by_decide.
Defined.

(** *** Finding the new record *)

Lemma string_take_all n : ∀ s, (String.length s ≤ n)%nat → string_take n s = s.
Proof.
  induction n as [|n IH]; intros [|c s] Hlen; simpl in *; try done; [lia|].
  f_equal. apply IH. lia.
Qed.

Lemma string_take_length n : ∀ s, String.length (string_take n s) = (n `min` String.length s)%nat.
Proof.
  induction n as [|n IH]; intros [|c s]; simpl; try done. by rewrite IH.
Qed.

Lemma c_str_take n : ∀ s, c_str (string_take n (c_str s)) = string_take n (c_str s).
Proof.
  induction n as [|n IH]; intros [|c s]; simpl; try done.
  - by destruct (Ascii.eqb c Ascii.zero).
  - destruct (Ascii.eqb c Ascii.zero) eqn:E; simpl; [done|]. by rewrite E, IH.
Qed.

Lemma c_str_idem s : c_str (c_str s) = c_str s.
Proof.
  induction s as [|c s IH]; simpl; [done|].
  destruct (Ascii.eqb c Ascii.zero) eqn:E; simpl; [done|]. by rewrite E, IH.
Qed.

Lemma process_create_payload cfg nm prio entry k proc k' :
  process_create cfg nm prio entry k = Ok (proc, k') → proc ≠ 0 →
  process_table k' = table_insert proc (process_table k) ∧
  ∀ x, payload <$> (pcbs k' !! x) =
       if decide (x = proc)
       then Some (payload (new_pcb cfg nm prio entry (next_pid k) (stack_answer cfg k)
                             (heap_answer cfg k)))
       else payload <$> (pcbs k !! x).
Proof.
  intros Hc Hp.
  destruct (process_create_success_inv _ _ _ _ _ _ _ Hc Hp) as (E & Hs & Hh & Hlt & e & Hset).
  apply process_set_state_queues_only in Hset as (Ht & _ & _ & _ & _ & _ & _ & Hpay).
  split; [by rewrite Ht|]. intros x. rewrite Hpay. unfold created. simpl.
  destruct (decide (x = proc)) as [->|Hne].
  - by rewrite lookup_insert_eq.
  - by rewrite lookup_insert_ne.
Qed.

(** The search for a test that reads the payload only, after a creation:
    the new record is found when it passes and no older record does; no
    record is found when none passes. *)
Lemma table_find_created (test : Process → bool) cfg nm prio entry k proc k' :
  (∀ r r', payload r = payload r' → test r = test r') →
  Z.of_nat (MAX_PROCESSES cfg) < 2 ^ 32 → table_inv cfg k →
  pcbs k !! pcb_answer cfg k = None →
  process_create cfg nm prio entry k = Ok (proc, k') → proc ≠ 0 →
  (∀ y r, y ∈ occupied (process_table k) → pcbs k !! y = Some r → test r = false) →
  table_find test (process_table k') k' =
  Ok (if test (new_pcb cfg nm prio entry (next_pid k) (stack_answer cfg k)
                 (heap_answer cfg k))
      then proc else 0).
Proof.
  intros Htest Hmax Hinv Hfresh Hc Hp Hold.
  pose proof (table_inv_create _ _ _ _ _ _ _ Hmax Hinv Hfresh Hc) as Hinv'.
  destruct (process_create_payload _ _ _ _ _ _ _ Hc Hp) as [Htbl Hpay].
  destruct (process_create_success_inv _ _ _ _ _ _ _ Hc Hp) as (E & _ & _ & Hlt & _).
  set (new := new_pcb cfg nm prio entry (next_pid k) (stack_answer cfg k)
                (heap_answer cfg k)) in *.
  assert (Hnew : ∀ r, pcbs k' !! proc = Some r → test r = test new).
  { intros r Hr. apply Htest. specialize (Hpay proc). rewrite Hr, decide_True in Hpay by done.
    simpl in Hpay. by apply (inj Some) in Hpay. }
  assert (Hothers : ∀ y r, y ∈ occupied (process_table k') → y ≠ proc →
                           pcbs k' !! y = Some r → test r = false).
  { intros y r Hy Hne Hr. specialize (Hpay y). rewrite Hr, decide_False in Hpay by done.
    destruct (pcbs k !! y) as [r0|] eqn:Hr0; [|done]. simpl in Hpay.
    apply (inj Some) in Hpay.
    rewrite (Htest r r0) by done. apply (Hold y r0); [|done].
    destruct Hinv as (_ & _ & _ & H4 & _). by apply (H4 y r0). }
  destruct Hinv as (H1 & H2 & H3 & H4 & H5).
  assert (Hin : proc ∈ occupied (process_table k')).
  { rewrite Htbl, table_insert_occupied; [left|done|]. apply table_free_slot. lia. }
  destruct Hinv' as (_ & _ & H3' & _).
  destruct (table_find_first test _ k' H3') as (x & Hx & Hm). rewrite Hx. f_equal.
  pose proof (proj1 (Forall_forall _ _) H3' _ Hin) as [rp Hrp].
  destruct Hm as [[-> Hno]|(Hx0 & i & r & Hi & Hr & Ht & _)].
  - rewrite <- (Hnew rp Hrp), (Hno proc rp Hin Hrp). done.
  - destruct (decide (x = proc)) as [->|Hne].
    + by rewrite <- (Hnew r Hr), Ht.
    + rewrite (Hothers x r) in Ht; [done| |done|done].
      apply elem_of_occupied. split; [done|]. by eapply list_elem_of_lookup_2.
Qed.

(** X7 ([process_create] then [process_find_by_pid]).  A record that has
    just been created is the one [process_find_by_pid] returns for its
    pid, as long as no older record of the table holds that pid. *)
Theorem process_create_find_by_pid
    (cfg : Platform) (nm : string) (prio entry : Z) (k k' : Kernel) (proc : Z) :
  Z.of_nat (MAX_PROCESSES cfg) < 2 ^ 32 → table_inv cfg k →
  pcbs k !! pcb_answer cfg k = None →
  Forall (λ y, pid <$> (pcbs k !! y) ≠ Some (next_pid k)) (occupied (process_table k)) →
  process_create cfg nm prio entry k = Ok (proc, k') → proc ≠ 0 →
  pid <$> (pcbs k' !! proc) = Some (next_pid k) ∧
  process_find_by_pid (next_pid k) k' = Ok proc.
Proof.
  intros Hmax Hinv Hfresh Hold Hc Hp. split.
  - destruct (process_create_payload _ _ _ _ _ _ _ Hc Hp) as [_ Hpay].
    specialize (Hpay proc). rewrite decide_True in Hpay by done.
    destruct (pcbs k' !! proc) as [r|]; [|done]. simpl in *. by injection Hpay as ->.
  - unfold process_find_by_pid.
    rewrite (table_find_created (λ r, pid r =? next_pid k) cfg nm prio entry k proc k');
      try done.
    + simpl. by rewrite Z.eqb_refl.
    + intros r r' [= E _]. by rewrite E.
    + intros y r Hy Hr. apply Z.eqb_neq. intros E.
      apply (proj1 (Forall_forall _ _) Hold y Hy). rewrite Hr. simpl. by rewrite E.
Qed.

Lemma process_create_find_by_pid_demo :
  pid <$> (pcbs (after demo [OpCreate "A" 1 100] demo_k1) !! demo_A)
    = Some (next_pid demo_k1) ∧
  process_find_by_pid (next_pid demo_k1) (after demo [OpCreate "A" 1 100] demo_k1)
    = Ok demo_A.
Proof.
  apply (process_create_find_by_pid demo "A" 1 100 demo_k1).
  - by vm_compute.
  - by_decide.
  - by vm_compute.
  - by_decide.
  - by vm_compute.
  - by vm_compute.
Defined.

Lemma string_take_fits n s :
  String.eqb (string_take n s) s = bool_decide (String.length s ≤ n)%nat.
Proof.
  case_bool_decide as Hlen.
  - rewrite string_take_all by done. apply String.eqb_refl.
  - apply String.eqb_neq. intros E.
    pose proof (string_take_length n s) as Hl. rewrite E in Hl. lia.
Qed.

(** X8 ([process_create] then [process_find]).  The name of a new record
    is the name asked for, cut to one character less than the size of the
    [name] field.  When no older record bears the name, [process_find]
    returns the new record for it if the name fits the field, and [NULL]
    if it does not: a process created under a longer name is not found
    under that name. *)
Theorem process_create_find_by_name
    (cfg : Platform) (nm : string) (prio entry : Z) (k k' : Kernel) (proc : Z) :
  Z.of_nat (MAX_PROCESSES cfg) < 2 ^ 32 → table_inv cfg k →
  pcbs k !! pcb_answer cfg k = None →
  Forall (λ y, name <$> (pcbs k !! y) ≠ Some (c_str nm)) (occupied (process_table k)) →
  process_create cfg nm prio entry k = Ok (proc, k') → proc ≠ 0 →
  name <$> (pcbs k' !! proc) = Some (strncpy nm (sizeof_name cfg - 1)) ∧
  process_find nm k' =
    Ok (if decide (String.length (c_str nm) ≤ sizeof_name cfg - 1)%nat then proc else 0).
Proof.
  intros Hmax Hinv Hfresh Hold Hc Hp. split.
  - destruct (process_create_payload _ _ _ _ _ _ _ Hc Hp) as [_ Hpay].
    specialize (Hpay proc). rewrite decide_True in Hpay by done.
    destruct (pcbs k' !! proc) as [r|]; [|done]. simpl in *. by injection Hpay as _ ->.
  - unfold process_find.
    rewrite (table_find_created (λ r, strcmp_eq (name r) nm) cfg nm prio entry k proc k');
      try done.
    + simpl. unfold strcmp_eq, strncpy. rewrite string_take_fits.
      by destruct (decide (String.length (c_str nm) ≤ sizeof_name cfg - 1)%nat);
        [rewrite bool_decide_eq_true_2|rewrite bool_decide_eq_false_2].
    + intros r r' [= _ E _]. by rewrite E.
    + intros y r Hy Hr. unfold strcmp_eq. apply String.eqb_neq. intros E.
      apply (proj1 (Forall_forall _ _) Hold y Hy). rewrite Hr. simpl. by rewrite E.
Qed.

Lemma process_create_find_by_name_demo :
  name <$> (pcbs (after demo [OpCreate "a-process-with-quite-a-long-name-indeed" 1 100]
                    demo_k1) !! demo_A)
    = Some (strncpy "a-process-with-quite-a-long-name-indeed" (sizeof_name demo - 1)) ∧
  process_find "a-process-with-quite-a-long-name-indeed"
    (after demo [OpCreate "a-process-with-quite-a-long-name-indeed" 1 100] demo_k1) =
    Ok (if decide (String.length (c_str "a-process-with-quite-a-long-name-indeed")
                   ≤ sizeof_name demo - 1)%nat
        then demo_A else 0).
Proof.
  apply (process_create_find_by_name demo "a-process-with-quite-a-long-name-indeed" 1 100
           demo_k1).
  - by vm_compute.
  - by_decide.
  - by vm_compute.
  - by_decide.
  - by vm_compute.
  - by vm_compute.
Defined.

(** ** The scheduler on any ready queue *)

Lemma first_ready_cons m x l :
  first_ready m (x :: l) = if decide (is_ready m x) then Some x else first_ready m l.
Proof. unfold first_ready. rewrite filter_cons. by case_decide. Qed.

Lemma first_ready_app m l1 l2 :
  first_ready m (l1 ++ l2) =
  match first_ready m l1 with Some y => Some y | None => first_ready m l2 end.
Proof.
  unfold first_ready. rewrite filter_app. by destruct (filter (is_ready m) l1).
Qed.

Lemma first_ready_None m l : first_ready m l = None ↔ Forall (λ p, ¬ is_ready m p) l.
Proof.
  induction l as [|x l IH]; [by split; [constructor|]|].
  rewrite first_ready_cons. case_decide as Hx.
  - split; [done|]. intros [? _]%Forall_cons. done.
  - rewrite IH. split; [by constructor|]. by intros [_ ?]%Forall_cons.
Qed.

Lemma first_ready_elem m l y : first_ready m l = Some y → y ∈ l ∧ is_ready m y.
Proof.
  unfold first_ready. intros H. apply head_Some in H as [l' H].
  assert (Hy : y ∈ filter (is_ready m) l) by (rewrite H; left).
  apply list_elem_of_filter in Hy. tauto.
Qed.

(** The loop of [scheduler_select_next] on a chain: it stops on the first
    READY record, or at [NULL]. *)
Lemma skip_not_ready_chain l : ∀ fuel p k,
  chain (pcbs k) p l → (length l < fuel)%nat →
  skip_not_ready fuel p k = Ok (default 0 (first_ready (pcbs k) l)).
Proof.
  induction l as [|x l IH]; intros fuel p k Hc Hf.
  - apply chain_nil in Hc as ->. destruct fuel; [simpl in Hf; lia|done].
  - apply chain_cons in Hc as (-> & Hx & r & Hr & Hc).
    destruct fuel as [|fuel]; [simpl in Hf; lia|]. simpl.
    destruct (Z.eqb_spec x 0); [done|]. rewrite (load_live _ _ _ Hr). simpl.
    rewrite first_ready_cons.
    destruct (decide (state r = PROC_STATE_READY)) as [E|Hne].
    + rewrite decide_True; [done|]. unfold is_ready, state_at. by rewrite Hr, <- E.
    + rewrite decide_False.
      * apply IH; [done|simpl in Hf; lia].
      * unfold is_ready, state_at. rewrite Hr. simpl. congruence.
Qed.

Lemma first_ready_nonzero m p l y : chain m p l → first_ready m l = Some y → y ≠ 0.
Proof.
  intros Hc [Hy _]%first_ready_elem.
  by apply (proj1 (Forall_forall _ _) (chain_nonzero _ _ _ Hc)).
Qed.

Lemma table_find_pcbs test tbl k k' :
  pcbs k' = pcbs k → table_find test tbl k' = table_find test tbl k.
Proof.
  intros E. induction tbl as [|slot tbl IH]; [done|]. simpl.
  destruct (slot =? 0); [done|]. unfold load. rewrite E.
  destruct (pcbs k !! slot) as [r|]; [|done]. simpl. by destruct (test r).
Qed.

(** [scheduler_select_next] with its cursor on a record whose successors
    are [l]: the first READY record among [l] and then the whole ready
    queue, else the idle lookup. *)
Lemma select_next_scan k q x l :
  chain (pcbs k) (ready_queue k) q → q ≠ [] →
  chain (pcbs k) (select_last (cursor_set k)) (x :: l) →
  scheduler_select_next k =
  match first_ready (pcbs k) (l ++ q) with
  | Some y => Ok (y, set_select_last y k)
  | None => idle ← process_find "idle" k; Ok (idle, cursor_set k)
  end.
Proof.
  intros Hq Hne Hl. destruct q as [|h q']; [done|]. set (q := h :: q') in *.
  pose proof (chain_head _ _ _ Hq) as Hh. simpl in Hh.
  assert (Hh0 : h ≠ 0) by (apply chain_cons in Hq; tauto).
  unfold scheduler_select_next. fold (cursor_set k).
  destruct (Z.eqb_spec (ready_queue k) 0) as [E|_]; [congruence|].
  assert (Epcbs : pcbs (cursor_set k) = pcbs k).
  { unfold cursor_set. by destruct (select_last k =? 0). }
  assert (Erq : ready_queue (cursor_set k) = ready_queue k).
  { unfold cursor_set. by destruct (select_last k =? 0). }
  apply chain_cons in Hl as (Ex & Hx0 & r & Hr & Hl).
  rewrite (load_live (cursor_set k) _ r) by (by rewrite Epcbs, Ex).
  rewrite bind_Ok.
  rewrite (skip_not_ready_chain l (S (size (pcbs (cursor_set k)))) (next r) (cursor_set k));
    [|by rewrite Epcbs|pose proof (chain_length _ _ _ Hl); rewrite Epcbs; lia].
  rewrite bind_Ok, Epcbs, first_ready_app.
  destruct (first_ready (pcbs k) l) as [y|] eqn:Hy; cbn [default from_option id].
  - pose proof (first_ready_nonzero _ _ _ _ Hl Hy) as Hy0.
    destruct (Z.eqb_spec y 0); [done|]. rewrite bind_Ok.
    destruct (Z.eqb_spec y 0); [done|]. f_equal. f_equal.
    unfold cursor_set. by destruct (select_last k =? 0).
  - change (0 =? 0) with true. cbv iota.
    rewrite (skip_not_ready_chain q _ _ (cursor_set k));
      [|by rewrite Epcbs, Erq|pose proof (chain_length _ _ _ Hq); lia].
    rewrite bind_Ok, Epcbs.
    destruct (first_ready (pcbs k) q) as [y|] eqn:Hy'; cbn [default from_option id].
    + pose proof (first_ready_nonzero _ _ _ _ Hq Hy') as Hy0.
      destruct (Z.eqb_spec y 0); [done|]. f_equal. f_equal.
      unfold cursor_set. by destruct (select_last k =? 0).
    + change (0 =? 0) with true. cbv iota.
      unfold process_find. rewrite (table_find_pcbs _ _ k (cursor_set k)) by done.
      unfold cursor_set. by destruct (select_last k =? 0).
Qed.

Lemma first_ready_rotate m (q : list Z) c :
  (c < length q)%nat →
  first_ready m (drop (S c) q ++ q) = first_ready m (rotate (S c) q).
Proof.
  intros Hc. unfold rotate. destruct (decide (S c < length q)%nat) as [Hlt|Hge].
  - rewrite Nat.mod_small by done. rewrite !first_ready_app.
    destruct (first_ready m (drop (S c) q)) as [y|] eqn:Hy; [done|].
    rewrite <- (take_drop (S c) q) at 1. rewrite first_ready_app, Hy.
    by destruct (first_ready m (take (S c) q)).
  - assert (S c = length q) as -> by lia. rewrite Nat.Div0.mod_same.
    by rewrite drop_all, drop_0, take_0, app_nil_r.
Qed.

(** X10 ([scheduler_select_next]).  On a ready queue that ends in
    [NULL], with the cursor on its [c]-th record (or not yet set, which
    counts as the head), the scheduler returns the first READY record in
    the cyclic order that starts after the cursor and ends with the cursor
    itself, skipping every record in another state; it moves the cursor
    there.  When no record of the queue is READY it returns what
    [process_find ("idle")] returns. *)
Theorem select_next_first_ready (k : Kernel) (q : list Z) (c : nat) :
  chain (pcbs k) (ready_queue k) q →
  q !! c = Some (select_last (cursor_set k)) →
  scheduler_select_next k =
  match first_ready (pcbs k) (rotate (S c) q) with
  | Some y => Ok (y, set_select_last y k)
  | None => idle ← process_find "idle" k; Ok (idle, cursor_set k)
  end.
Proof.
  intros Hq Hc. pose proof (lookup_lt_Some _ _ _ Hc) as Hlt.
  destruct (chain_lookup _ _ _ _ _ Hq Hc) as (Hx0 & Hcx & _).
  rewrite <- first_ready_rotate by done.
  rewrite (drop_S _ _ _ Hc) in Hcx.
  apply (select_next_scan k q (select_last (cursor_set k)) (drop (S c) q) Hq); [|done].
  intros ->. simpl in Hlt. lia.
Qed.

Lemma select_next_first_ready_demo :
  scheduler_select_next (after demo dispatch_A demo_k3) =
  match first_ready (pcbs (after demo dispatch_A demo_k3))
          (rotate 2 [demo_B; demo_A; demo_idle]) with
  | Some y => Ok (y, set_select_last y (after demo dispatch_A demo_k3))
  | None => idle ← process_find "idle" (after demo dispatch_A demo_k3);
            Ok (idle, cursor_set (after demo dispatch_A demo_k3))
  end.
Proof.
  apply (select_next_first_ready (after demo dispatch_A demo_k3)
           [demo_B; demo_A; demo_idle] 1).
  - by_decide.
  - by vm_compute.
Defined.

(** ** Exit of the running process *)

Lemma chain_redirect m m' x l' : ∀ l1 p l2,
  chain m p (l1 ++ x :: l2) →
  (∀ y, y ∈ l1 → next <$> (m' !! y) = next <$> (m !! y)) →
  chain m' x l' → chain m' p (l1 ++ l').
Proof.
  induction l1 as [|y l1 IH]; intros p l2 Hc Hnext Hx.
  - apply chain_cons in Hc as (-> & _). done.
  - simpl in Hc. apply chain_cons in Hc as (-> & Hy & r & Hr & Hc).
    pose proof (Hnext y ltac:(left)) as E. rewrite Hr in E.
    destruct (m' !! y) as [r'|] eqn:Hr'; [|done]. simpl in E. injection E as E.
    simpl. apply chain_cons. split; [done|]. split; [done|]. exists r'. split; [done|].
    rewrite E. apply (IH _ l2); [done| |done]. intros z Hz. apply Hnext. by right.
Qed.

(** [process_set_state (proc, ZOMBIE)] on a RUNNING record when no other
    record waits to be reaped. *)
Lemma process_set_state_exit proc k r :
  proc ≠ 0 → pcbs k !! proc = Some r → state r = PROC_STATE_RUNNING →
  zombie_queue k = 0 →
  process_set_state proc PROC_STATE_ZOMBIE k =
  Ok (ERR_SUCCESS,
      set_zombie_queue proc
        (set_pcbs (<[proc := set_prev 0 (set_next 0 (set_state PROC_STATE_ZOMBIE r))]>
                     (pcbs k)) k)).
Proof.
  intros Hp Hr Hs Hz. unfold process_set_state.
  destruct (Z.eqb_spec proc 0); [done|].
  rewrite (load_live _ _ _ Hr), bind_Ok, (poke_live _ _ _ _ Hr), bind_Ok.
  unfold process_remove_from_queue. rewrite Hs. cbn [queue_of_state]. rewrite bind_Ok.
  unfold process_add_to_queue. cbn [queue_of_state].
  erewrite poke_live by (simpl; apply lookup_insert_eq). rewrite bind_Ok.
  erewrite poke_live by (simpl; apply lookup_insert_eq). rewrite bind_Ok.
  simpl. rewrite Hz. simpl. rewrite !insert_insert_eq. by destruct k.
Qed.

(** X12 ([process_exit_handler]).  The handler returns only when no
    process is current, and then changes nothing.  When the current
    process is the one the scheduler loop dispatched (RUNNING, and still
    linked in the ready queue where [process_switch] left it), the handler
    does not return, and the kernel it hands to [scheduler_yield] is this:
    the process is ZOMBIE and alone in the zombie queue, the ready queue
    ends at it, and the records that followed it in the ready queue are
    still READY but no longer reachable from the head of the queue. *)
Theorem process_exit_handler_cuts_ready_queue
    (scheduler_yield : Kernel → Res Kernel) (k : Kernel) :
  (process_get_current k = 0 → process_exit_handler scheduler_yield k = Ok k) ∧
  (∀ l1 l2,
     dispatching k (l1 ++ process_get_current k :: l2) (length l1) →
     ∃ k1,
       process_exit_handler scheduler_yield k = (scheduler_yield k1 ≫= λ _, Err Diverges) ∧
       (∀ k', process_exit_handler scheduler_yield k ≠ Ok k') ∧
       state_at (pcbs k1) (process_get_current k) = Some PROC_STATE_ZOMBIE ∧
       chain (pcbs k1) (zombie_queue k1) [process_get_current k] ∧
       chain (pcbs k1) (ready_queue k1) (l1 ++ [process_get_current k]) ∧
       Forall (λ x, is_ready (pcbs k1) x ∧ x ∉ l1 ++ [process_get_current k]) l2).
Proof.
  unfold process_get_current. split.
  { intros E. unfold process_exit_handler, process_get_current. by rewrite E. }
  intros l1 l2 (Hq & Hc & Hlast & Hz & Hst).
  set (cur := current_process k) in *.
  pose proof (chain_NoDup _ _ _ Hq) as Hnd.
  pose proof (chain_nonzero _ _ _ Hq) as Hnz.
  assert (Hcurq : cur ∈ l1 ++ cur :: l2) by (by eapply list_elem_of_lookup_2).
  assert (Hcur0 : cur ≠ 0) by (by apply (proj1 (Forall_forall _ _) Hnz)).
  pose proof (proj1 (Forall_forall _ _) Hst cur Hcurq) as Hsc. cbv beta in Hsc.
  rewrite decide_True in Hsc by done.
  apply state_at_Some in Hsc as (rc & Hrc & Hrun).
  pose proof (process_set_state_exit cur k rc Hcur0 Hrc Hrun Hz) as Hset.
  eexists. split.
  { unfold process_exit_handler, process_get_current. fold cur.
    destruct (Z.eqb_spec cur 0); [done|]. rewrite Hset, bind_Ok. reflexivity. }
  split.
  { intros k'. unfold process_exit_handler, process_get_current. fold cur.
    destruct (Z.eqb_spec cur 0); [done|]. rewrite Hset, bind_Ok.
    by destruct (scheduler_yield _). }
  apply NoDup_app in Hnd as (Hnd1 & Hdisj & Hnd2).
  apply NoDup_cons in Hnd2 as [Hcl2 Hnd2].
  assert (Hcl1 : cur ∉ l1) by (intros Hin; apply (Hdisj cur Hin); left).
  cbn [pcbs set_pcbs set_zombie_queue zombie_queue ready_queue].
  split; [|split; [|split]].
  - unfold state_at. by rewrite lookup_insert_eq.
  - apply chain_cons. split; [done|]. split; [done|]. eexists.
    split; [apply lookup_insert_eq|done].
  - apply (chain_redirect (pcbs k) _ cur [cur] l1 _ l2 Hq).
    + intros y Hy. rewrite lookup_insert_ne; [done|]. by intros ->.
    + apply chain_cons. split; [done|]. split; [done|]. eexists.
      split; [apply lookup_insert_eq|done].
  - apply Forall_forall. intros x Hx. split.
    + assert (x ≠ cur) by (by intros ->).
      unfold is_ready, state_at. rewrite lookup_insert_ne by done.
      pose proof (proj1 (Forall_forall _ _) Hst x) as E. cbv beta in E.
      rewrite decide_False in E by done. apply E.
      apply elem_of_app. right. by right.
    + intros [Hin|Hin%list_elem_of_singleton]%elem_of_app.
      * apply (Hdisj x Hin). by right.
      * by subst x.
Qed.

Lemma process_exit_handler_cuts_ready_queue_demo :
  ∃ k1,
    process_exit_handler (λ k, Ok k) demo_A_current
      = ((λ k, Ok k) k1 ≫= λ _, Err Diverges) ∧
    (∀ k', process_exit_handler (λ k, Ok k) demo_A_current ≠ Ok k') ∧
    state_at (pcbs k1) (process_get_current demo_A_current)
      = Some PROC_STATE_ZOMBIE ∧
    chain (pcbs k1) (zombie_queue k1)
      [process_get_current demo_A_current] ∧
    chain (pcbs k1) (ready_queue k1)
      ([demo_B] ++ [process_get_current demo_A_current]) ∧
    Forall (λ x, is_ready (pcbs k1) x ∧
                 x ∉ [demo_B] ++ [process_get_current demo_A_current])
      [demo_idle].
Proof.
  apply (proj2 (process_exit_handler_cuts_ready_queue (λ k, Ok k)
                  demo_A_current) [demo_B] [demo_idle]).
  by_decide.
Defined.

(** ** What the reaper leaves behind *)

(** X13 ([process_reap_zombies], then [scheduler_select_next] and
    [process_switch]).  The reaper releases the records of the zombie
    queue and resets neither the cursor of the scheduler nor the
    current-process pointer.  If the cursor was on a reaped record, the
    next [scheduler_select_next] on a non-empty ready queue reads
    [last->next] from the released record; if the current process was
    reaped, the next [process_switch] away from it saves the registers
    into the released record. *)
Theorem reap_leaves_dangling_references (k : Kernel) (zs : list Z) :
  chain (pcbs k) (zombie_queue k) zs →
  ∃ k', process_reap_zombies k = Ok k' ∧
    select_last k' = select_last k ∧
    process_get_current k' = process_get_current k ∧
    ready_queue k' = ready_queue k ∧
    (∀ z, z ∈ zs → pcbs k' !! z = None) ∧
    (select_last k ∈ zs → ready_queue k ≠ 0 →
     scheduler_select_next k' = Err (BadPointer (select_last k))) ∧
    (process_get_current k ∈ zs → ∀ to, to ≠ 0 →
     process_switch (process_get_current k) to k'
       = Err (BadPointer (process_get_current k))).
Proof.
  intros Hc. pose proof (chain_nonzero _ _ _ Hc) as Hnz.
  exists (set_zombie_queue 0 (reaped k zs)).
  split; [by apply reap_zombies_chain|].
  assert (Hgone : ∀ z, z ∈ zs → pcbs (set_zombie_queue 0 (reaped k zs)) !! z = None).
  { intros z Hz. simpl. by rewrite lookup_foldl_delete, decide_True. }
  assert (Hsl : select_last (set_zombie_queue 0 (reaped k zs)) = select_last k) by done.
  assert (Hcp : current_process (set_zombie_queue 0 (reaped k zs)) = current_process k)
    by done.
  assert (Hrq : ready_queue (set_zombie_queue 0 (reaped k zs)) = ready_queue k) by done.
  generalize dependent (set_zombie_queue 0 (reaped k zs)). intros k' Hgone Hsl Hcp Hrq.
  split; [done|]. split; [done|]. split; [done|]. split; [done|]. split.
  - intros Hin Hrq0. pose proof (proj1 (Forall_forall _ _) Hnz _ Hin) as Hl0.
    unfold scheduler_select_next. rewrite Hrq, Hsl.
    destruct (Z.eqb_spec (ready_queue k) 0); [done|].
    destruct (Z.eqb_spec (select_last k) 0); [done|].
    unfold load. by rewrite Hsl, (Hgone _ Hin).
  - unfold process_get_current. intros Hin to Hto.
    pose proof (proj1 (Forall_forall _ _) Hnz _ Hin) as Hc0.
    unfold process_switch. destruct (Z.eqb_spec to 0); [done|].
    destruct (Z.eqb_spec (current_process k) 0); [done|].
    unfold process_save_context, poke. by rewrite (Hgone _ Hin).
Qed.

Lemma reap_leaves_dangling_references_demo :
  ∃ k', process_reap_zombies demo_exited = Ok k' ∧
    select_last k' = select_last demo_exited ∧
    process_get_current k' = process_get_current demo_exited ∧
    ready_queue k' = ready_queue demo_exited ∧
    (∀ z, z ∈ [demo_A] → pcbs k' !! z = None) ∧
    (select_last demo_exited ∈ [demo_A] → ready_queue demo_exited ≠ 0 →
     scheduler_select_next k' = Err (BadPointer (select_last demo_exited))) ∧
    (process_get_current demo_exited ∈ [demo_A] → ∀ to, to ≠ 0 →
     process_switch (process_get_current demo_exited) to k'
       = Err (BadPointer (process_get_current demo_exited))).
Proof. apply (reap_leaves_dangling_references demo_exited [demo_A]). by_decide. Defined.

(** ** The two queue operations undo each other *)

Lemma kernel_eq k k' :
  queues_only k k' → (∀ q, queue_head q k' = queue_head q k) → pcbs k' = pcbs k →
  k' = k.
Proof.
  intros (H1 & H2 & H3 & H4 & H5 & H6 & H7 & _) Hq Hp.
  pose proof (Hq ReadyQ) as Hr. pose proof (Hq BlockedQ) as Hb.
  pose proof (Hq ZombieQ) as Hz. destruct k, k'. simpl in *. by subst.
Qed.

Lemma unlinked_linked (m : gmap Z Process) proc hd r :
  m !! proc = Some r → prev r = 0 → next r = 0 → hd ≠ proc →
  (hd = 0 ∨ prev <$> (m !! hd) = Some 0) →
  unlinked (linked m proc hd) proc 0 hd = m.
Proof.
  intros Hr Hprev Hnext Hne Hhd. apply map_eq. intros x. unfold unlinked, linked.
  change (0 =? 0) with true.
  destruct (Z.eqb_spec hd 0) as [->|Hhd0]; cbv iota; unfold id.
  - destruct (decide (x = proc)) as [->|Hxp].
    + rewrite !lookup_alter_eq, Hr. simpl. f_equal. destruct r. simpl in *. by subst.
    + by rewrite !lookup_alter_ne by done.
  - destruct Hhd as [?|Hhd]; [done|]. destruct (decide (x = proc)) as [->|Hxp].
    + rewrite !lookup_alter_eq. rewrite !(lookup_alter_ne _ _ hd proc) by done.
      rewrite !lookup_alter_eq, Hr. simpl. f_equal. destruct r. simpl in *. by subst.
    + rewrite !(lookup_alter_ne _ _ proc x) by done.
      destruct (decide (x = hd)) as [->|Hxh].
      * rewrite !lookup_alter_eq. rewrite !(lookup_alter_ne _ _ proc hd) by done.
        destruct (m !! hd) as [rh|]; [|done]. simpl in *. f_equal.
        injection Hhd as Hhd. destruct rh. simpl in *. by subst.
      * by rewrite !lookup_alter_ne by done.
Qed.

(** X14 ([process_add_to_queue] then [process_remove_from_queue]).
    Linking an unlinked record in front of a queue whose head has no
    predecessor, and unlinking it again, gives back the kernel as it
    was: every link, every queue head and every record. *)
Theorem queue_add_remove_round_trip
    (proc : Z) (s : ProcessState) (k : Kernel) (r : Process) :
  proc ≠ 0 → pcbs k !! proc = Some r → prev r = 0 → next r = 0 →
  (∀ q, queue_of_state s = Some q →
        queue_head q k ≠ proc ∧
        (queue_head q k = 0 ∨ prev <$> (pcbs k !! queue_head q k) = Some 0)) →
  ∃ k1, process_add_to_queue proc s k = Ok k1 ∧
        process_remove_from_queue proc s k1 = Ok k.
Proof.
  intros Hp Hr Hprev Hnext Hhead.
  destruct (queue_of_state s) as [q|] eqn:Hq.
  2: { exists k. unfold process_add_to_queue, process_remove_from_queue. by rewrite Hq. }
  destruct (Hhead q eq_refl) as [Hne Hhd]. clear Hhead.
  assert (Hhl : queue_head q k = 0 ∨ is_Some (pcbs k !! queue_head q k)).
  { destruct Hhd as [?|Hhd]; [by left|right].
    destruct (pcbs k !! queue_head q k); [by eexists|done]. }
  destruct (add_eval q proc s k Hq ltac:(by exists r) Hhl) as (k1 & Hadd & Hp1 & Hq1 & Ho1).
  exists k1. split; [done|].
  assert (Hr1 : pcbs k1 !! proc = Some (set_prev 0 (set_next (queue_head q k) r))).
  { rewrite Hp1. unfold linked.
    destruct (queue_head q k =? 0); unfold id;
      rewrite ?(lookup_alter_ne _ _ (queue_head q k)) by done;
      by rewrite !lookup_alter_eq, Hr. }
  destruct (remove_eval q proc s k1 _ Hq Hr1) as (k2 & Hrem & Hp2 & Hq2 & Ho2);
    cbn [prev next set_prev set_next]; try done.
  { destruct Hhl as [?|Hl]; [by left|right]. by rewrite Hp1, linked_is_Some. }
  { by left. }
  rewrite Hrem. f_equal. cbn [prev next set_prev set_next] in *.
  apply kernel_eq.
  - eapply queues_only_trans; [by eapply add_queues_only|by eapply remove_queues_only].
  - intros q'. destruct (decide (q' = q)) as [->|Hq'].
    + by rewrite Hq2, Hq1, decide_True.
    + by rewrite Ho2, Ho1.
  - rewrite Hp2, Hp1. by eapply unlinked_linked.
Qed.

Lemma queue_add_remove_round_trip_demo :
  ∃ k1, process_add_to_queue demo_idle PROC_STATE_BLOCKED demo_idle_running = Ok k1 ∧
        process_remove_from_queue demo_idle PROC_STATE_BLOCKED k1 = Ok demo_idle_running.
Proof.
  apply (queue_add_remove_round_trip demo_idle PROC_STATE_BLOCKED demo_idle_running
           (default Process_zero (pcbs demo_idle_running !! demo_idle))).
  - by vm_compute.
  - by vm_compute.
  - by vm_compute.
  - by vm_compute.
  - intros q [= <-]. split; [by vm_compute|]. left. by vm_compute.
Defined.

(** ** State names *)

(** X15 ([process_state_to_string], as [process_list_all] uses it).  Two
    different states never print the same name, so a line of the log
    tells the state; and every name fits the nine characters that the
    listing leaves for the state column. *)
Theorem process_state_to_string_distinct (s1 s2 : ProcessState) :
  s1 ≠ s2 →
  process_state_to_string s1 ≠ process_state_to_string s2 ∧
  (String.length (process_state_to_string s1) ≤ 9)%nat ∧
  (String.length (process_state_to_string s2) ≤ 9)%nat.
Proof.
  intros Hne. split; [|split].
  - by destruct s1, s2.
  - destruct s1; simpl; lia.
  - destruct s2; simpl; lia.
Qed.

Lemma process_state_to_string_distinct_demo :
  process_state_to_string PROC_STATE_READY ≠ process_state_to_string PROC_STATE_ZOMBIE ∧
  (String.length (process_state_to_string PROC_STATE_READY) ≤ 9)%nat ∧
  (String.length (process_state_to_string PROC_STATE_ZOMBIE) ≤ 9)%nat.
Proof.
  apply (process_state_to_string_distinct PROC_STATE_READY PROC_STATE_ZOMBIE).
  by_decide.
Defined.

(** ** Initialisation *)

(** X16 ([process_manager_init]).  On the statics as loaded, the
    initialisation calls [panic] exactly when the idle process cannot be
    created: the table has no slot, or the allocator refuses the PCB, the
    stack or the heap.  Otherwise it returns [ERR_SUCCESS] and leaves one
    process: idle, with pid 1 and priority 0, READY and alone in the ready
    queue, in the first slot of the table; the other queues are empty and
    no process is current. *)
Theorem process_manager_init_outcome (cfg : Platform) :
  (MAX_PROCESSES cfg = 0%nat ∨ idle_of cfg = 0 ∨
   stack_answer cfg (boot cfg) = 0 ∨ heap_answer cfg (boot cfg) = 0 →
   process_manager_init cfg (boot cfg) = Err (Panic "Failed to create idle process")) ∧
  (MAX_PROCESSES cfg ≠ 0%nat → idle_of cfg ≠ 0 →
   stack_answer cfg (boot cfg) ≠ 0 → heap_answer cfg (boot cfg) ≠ 0 →
   ∃ k1, process_manager_init cfg (boot cfg) = Ok (ERR_SUCCESS, k1) ∧
     process_table k1 = idle_of cfg :: replicate (MAX_PROCESSES cfg - 1) 0 ∧
     process_count k1 = 1 ∧ next_pid k1 = 2 ∧
     ready_queue k1 = idle_of cfg ∧ blocked_queue k1 = 0 ∧ zombie_queue k1 = 0 ∧
     process_get_current k1 = 0 ∧
     pcbs k1 =
       {[ idle_of cfg :=
            mkProcess 1 (strncpy "idle" (sizeof_name cfg - 1)) PROC_STATE_READY 0 0
              (stack_answer cfg (boot cfg)) (16 * KB cfg)
              (heap_answer cfg (boot cfg)) (64 * KB cfg)
              ([0; wrap32 (wrap32 (wrap32 (stack_answer cfg (boot cfg) + 16 * KB cfg) - 4)
                             - 4)] ++ replicate 14 0)
              0 0 ]}).
Proof.
  unfold process_manager_init.
  change (set_next_pid 1 (set_process_count 0
            (set_process_table (replicate (MAX_PROCESSES cfg) 0) (boot cfg))))
    with (boot cfg).
  rewrite process_create_paths. fold (idle_of cfg).
  change (process_count (boot cfg)) with 0.
  split.
  - intros H. destruct (Z.leb_spec (Z.of_nat (MAX_PROCESSES cfg)) 0) as [|Hlt]; [done|].
    destruct (Z.eqb_spec (idle_of cfg) 0); [done|].
    destruct (Z.eqb_spec (stack_answer cfg (boot cfg)) 0); [done|].
    destruct (Z.eqb_spec (heap_answer cfg (boot cfg)) 0); [done|].
    destruct H as [H|[H|[H|H]]]; try done. lia.
  - intros Hmax Hi0 Hs0 Hh0.
    destruct (Z.leb_spec (Z.of_nat (MAX_PROCESSES cfg)) 0) as [|Hlt]; [lia|].
    destruct (Z.eqb_spec (idle_of cfg) 0); [done|].
    destruct (Z.eqb_spec (stack_answer cfg (boot cfg)) 0); [done|].
    destruct (Z.eqb_spec (heap_answer cfg (boot cfg)) 0); [done|].
    destruct (enqueue_new
                (created cfg "idle" 0 0 (boot cfg) (idle_of cfg)
                   (stack_answer cfg (boot cfg)) (heap_answer cfg (boot cfg)))
                (idle_of cfg)
                (new_pcb cfg "idle" 0 0 (next_pid (boot cfg))
                   (stack_answer cfg (boot cfg)) (heap_answer cfg (boot cfg))) Hi0)
      as (m & Hset & Hm & _ & _ & _ & Hlive); [apply lookup_insert_eq|done|by left|].
    rewrite Hset, !bind_Ok.
    destruct (Z.eqb_spec (idle_of cfg) 0); [done|].
    eexists. split; [done|].
    cbn [process_table process_count next_pid ready_queue blocked_queue zombie_queue
         process_get_current current_process pcbs set_ready_queue set_pcbs created boot].
    split_and!; try done.
    + destruct (MAX_PROCESSES cfg) as [|max]; [done|]. simpl. by rewrite Nat.sub_0_r.
    + apply map_eq. intros x. destruct (decide (x = idle_of cfg)) as [->|Hne].
      * rewrite Hm, lookup_singleton_eq. done.
      * rewrite lookup_singleton_ne by done.
        destruct (m !! x) as [r|] eqn:Hx; [|done].
        assert (Hl : is_Some (m !! x)) by (by exists r).
        apply Hlive in Hl. cbn [pcbs created boot] in Hl.
        rewrite lookup_insert_ne, lookup_empty in Hl by done. by destruct Hl.
Qed.

Lemma process_manager_init_outcome_demo :
  ∃ k1, process_manager_init demo (boot demo) = Ok (ERR_SUCCESS, k1) ∧
    process_table k1 = idle_of demo :: replicate (MAX_PROCESSES demo - 1) 0 ∧
    process_count k1 = 1 ∧ next_pid k1 = 2 ∧
    ready_queue k1 = idle_of demo ∧ blocked_queue k1 = 0 ∧ zombie_queue k1 = 0 ∧
    process_get_current k1 = 0 ∧
    pcbs k1 =
      {[ idle_of demo :=
           mkProcess 1 (strncpy "idle" (sizeof_name demo - 1)) PROC_STATE_READY 0 0
             (stack_answer demo (boot demo)) (16 * KB demo)
             (heap_answer demo (boot demo)) (64 * KB demo)
             ([0; wrap32 (wrap32 (wrap32 (stack_answer demo (boot demo) + 16 * KB demo) - 4)
                            - 4)] ++ replicate 14 0)
             0 0 ]}.
Proof.
  apply (proj2 (process_manager_init_outcome demo)); by vm_compute.
Defined.

(** ** Creation: every failure *)

(** X17 ([process_create], all three error paths and the full table).
    A creation that returns [NULL] leaves the table, the count, the
    queues, the cursor, the current process and every record as they
    were.  What it took from the allocator it has handed back, in reverse
    order.  The pid counter is the one thing that may have moved: a
    creation that fails after its PCB was allocated has used up a pid. *)
Theorem process_create_failure_restores
    (cfg : Platform) (nm : string) (prio entry : Z) (k k' : Kernel) :
  pcbs k !! pcb_answer cfg k = None →
  process_create cfg nm prio entry k = Ok (0, k') →
  ∃ evs,
    k' = set_mem_log (mem_log k ++ evs) (set_next_pid (next_pid k') k) ∧
    allocated evs = rev (freed evs) ∧
    next_pid k' = (if decide (allocated evs = []) then next_pid k
                   else wrap32 (next_pid k + 1)).
Proof.
  intros Hfresh. rewrite process_create_paths.
  destruct (Z.leb_spec (Z.of_nat (MAX_PROCESSES cfg)) (process_count k)) as [Hfull|Hroom].
  { intros [= <-]. exists []. rewrite app_nil_r. split; [by destruct k|done]. }
  destruct (Z.eqb_spec (pcb_answer cfg k) 0) as [E|Hp].
  { intros [= <-]. eexists. split; [by destruct k|]. done. }
  assert (Hdel : delete (pcb_answer cfg k) (pcbs k) = pcbs k) by (by apply delete_id).
  destruct (Z.eqb_spec (stack_answer cfg k) 0) as [Es|Hs].
  { intros [= <-]. eexists. unfold refused_stack. rewrite Hdel.
    split; [by destruct k|]. simpl.
    destruct (Z.eqb_spec (pcb_answer cfg k) 0); [done|]. simpl. done. }
  destruct (Z.eqb_spec (heap_answer cfg k) 0) as [Eh|Hh].
  { intros [= <-]. eexists. unfold refused_heap. rewrite Hdel.
    split; [by destruct k|]. simpl.
    destruct (Z.eqb_spec (pcb_answer cfg k) 0); [done|].
    destruct (Z.eqb_spec (stack_answer cfg k) 0); [done|]. simpl. done. }
  intros H. apply bind_inv in H as ([e k1] & _ & [= E _]). done.
Qed.

Lemma process_create_failure_restores_demo :
  ∃ evs,
    after (demo_dry 4) [OpCreate "A" 1 100] (after_init (demo_dry 4))
    = set_mem_log (mem_log (after_init (demo_dry 4)) ++ evs)
        (set_next_pid
           (next_pid (after (demo_dry 4) [OpCreate "A" 1 100] (after_init (demo_dry 4))))
           (after_init (demo_dry 4))) ∧
    allocated evs = rev (freed evs) ∧
    next_pid (after (demo_dry 4) [OpCreate "A" 1 100] (after_init (demo_dry 4)))
    = (if decide (allocated evs = []) then next_pid (after_init (demo_dry 4))
       else wrap32 (next_pid (after_init (demo_dry 4)) + 1)).
Proof.
  apply (process_create_failure_restores (demo_dry 4) "A" 1 100 (after_init (demo_dry 4))).
  - by vm_compute.
  - by vm_compute.
Defined.

(** ** What the switch and the state change leave alone *)

Lemma walk_ext (m m' : gmap Z Process) :
  (∀ x, next <$> (m' !! x) = next <$> (m !! x)) →
  ∀ fuel p, walk fuel m' p = walk fuel m p.
Proof.
  intros Hn. induction fuel as [|fuel IH]; intros p; [done|]. simpl.
  destruct (p =? 0); [done|]. specialize (Hn p).
  destruct (m' !! p) as [r'|], (m !! p) as [r|]; simpl in Hn; try done.
  injection Hn as ->. by rewrite IH.
Qed.

Lemma context_only_size k k' : context_only k k' → size (pcbs k') = size (pcbs k).
Proof.
  intros (_ & _ & _ & _ & _ & _ & H).
  rewrite <- (map_size_fmap fixed_part (pcbs k')), <- (map_size_fmap fixed_part (pcbs k)).
  f_equal. apply map_eq. intros x. by rewrite !lookup_fmap.
Qed.

(** X18 ([process_switch]).  A context switch to a destination marks it
    RUNNING and marks a different [from] READY, and relinks nothing: the
    three queue heads, every [prev] and [next] pointer and hence the
    members of every queue are what they were, although the [state] of
    the two records has changed.  It writes only the [state] and
    [registers] of [from] and [to]: the table, the counters, the cursor,
    the allocator log and every other record are untouched, and so is
    the current-process pointer, which the code sets only after the
    [iret].  Without a destination nothing changes at all. *)
Theorem process_switch_relinks_nothing (from to : Z) (k k' : Kernel) :
  process_switch from to k = Ok k' →
  (to = 0 → k' = k) ∧
  (to ≠ 0 → state_at (pcbs k') to = Some PROC_STATE_RUNNING) ∧
  (to ≠ 0 → from ≠ 0 → from ≠ to → state_at (pcbs k') from = Some PROC_STATE_READY) ∧
  process_get_current k' = process_get_current k ∧
  (∀ q, queue_head q k' = queue_head q k ∧ queue_members q k' = queue_members q k) ∧
  (∀ x, prev <$> (pcbs k' !! x) = prev <$> (pcbs k !! x) ∧
        next <$> (pcbs k' !! x) = next <$> (pcbs k !! x)) ∧
  (∀ x, x ≠ from → x ≠ to → pcbs k' !! x = pcbs k !! x) ∧
  process_table k' = process_table k ∧ process_count k' = process_count k ∧
  next_pid k' = next_pid k ∧ select_last k' = select_last k ∧
  mem_log k' = mem_log k.
Proof.
  intros H. pose proof (process_switch_context_only _ _ _ _ H) as Hco.
  pose proof Hco as (H1 & H2 & H3 & H4 & H5 & H6 & H7).
  assert (Hlinks : ∀ x, prev <$> (pcbs k' !! x) = prev <$> (pcbs k !! x) ∧
                        next <$> (pcbs k' !! x) = next <$> (pcbs k !! x)).
  { intros x. specialize (H7 x).
    destruct (pcbs k' !! x) as [r'|], (pcbs k !! x) as [r|]; simpl in *; try done.
    by injection H7 as _ _ _ _ _ _ _ _ -> ->. }
  assert (Hrun : (to = 0 → k' = k) ∧
            (to ≠ 0 → state_at (pcbs k') to = Some PROC_STATE_RUNNING) ∧
            (to ≠ 0 → from ≠ 0 → from ≠ to →
               state_at (pcbs k') from = Some PROC_STATE_READY) ∧
            process_get_current k' = process_get_current k ∧
            (∀ x, x ≠ from → x ≠ to → pcbs k' !! x = pcbs k !! x)).
  { revert H. unfold process_switch.
    destruct (Z.eqb_spec to 0) as [->|Hto]; [by intros [= <-]|]. intros H.
    split; [done|].
    apply bind_inv in H as (k1 & H1' & H).
    apply bind_inv in H as (k2 & H2' & H).
    unfold process_restore_context in H. apply bind_inv in H as (r & _ & [= <-]).
    apply poke_inv in H2' as (r2 & _ & ->).
    split; [intros _; simpl; by rewrite state_at_insert, decide_True|].
    destruct (Z.eqb_spec from 0) as [->|Hfrom].
    - injection H1' as <-. split; [done|]. split; [done|].
      intros x _ Hxt. simpl. by rewrite lookup_insert_ne.
    - apply bind_inv in H1' as (k0 & H0 & H1').
      apply poke_inv in H1' as (r1 & _ & ->). apply poke_inv in H0 as (r0 & _ & ->).
      split; [|split; [done|]].
      + intros _ _ Hne. simpl.
        rewrite state_at_insert, decide_False by done.
        by rewrite state_at_insert, decide_True.
      + intros x Hxf Hxt. simpl. by rewrite !lookup_insert_ne by done. }
  destruct Hrun as (R1 & R2 & R3 & R4 & R5).
  split_and!; try done.
  intros q. split; [done|]. unfold queue_members.
  rewrite H5, (context_only_size _ _ Hco). apply walk_ext. intros x. apply Hlinks.
Qed.

Lemma process_switch_relinks_nothing_demo :
  let k := after demo [OpSelectNext] demo_k3 in
  let k' := after demo [OpSelectNext; OpSwitch demo_idle demo_A] demo_k3 in
  (demo_A = 0 → k' = k) ∧
  (demo_A ≠ 0 → state_at (pcbs k') demo_A = Some PROC_STATE_RUNNING) ∧
  (demo_A ≠ 0 → demo_idle ≠ 0 → demo_idle ≠ demo_A →
   state_at (pcbs k') demo_idle = Some PROC_STATE_READY) ∧
  process_get_current k' = process_get_current k ∧
  (∀ q, queue_head q k' = queue_head q k ∧ queue_members q k' = queue_members q k) ∧
  (∀ x, prev <$> (pcbs k' !! x) = prev <$> (pcbs k !! x) ∧
        next <$> (pcbs k' !! x) = next <$> (pcbs k !! x)) ∧
  (∀ x, x ≠ demo_idle → x ≠ demo_A → pcbs k' !! x = pcbs k !! x) ∧
  process_table k' = process_table k ∧ process_count k' = process_count k ∧
  next_pid k' = next_pid k ∧ select_last k' = select_last k ∧
  mem_log k' = mem_log k.
Proof.
  apply (process_switch_relinks_nothing demo_idle demo_A). by vm_compute.
Defined.

(** *** The state change *)

Lemma state_frame_refl k : state_frame k k.
Proof. by intros x. Qed.

Lemma state_frame_trans k1 k2 k3 : state_frame k1 k2 → state_frame k2 k3 → state_frame k1 k3.
Proof. intros A B x. by rewrite B. Qed.

Lemma poke_state_frame p f k k' :
  (∀ r, state (f r) = state r) → poke p f k = Ok k' → state_frame k k'.
Proof.
  intros Hf (r & Hr & ->)%poke_inv x. simpl. rewrite state_at_insert.
  destruct (decide (p = x)) as [->|Hne]; [|done].
  unfold state_at. by rewrite Hr, Hf.
Qed.

Lemma set_queue_head_state_frame q v k : state_frame k (set_queue_head q v k).
Proof. by destruct q. Qed.

Ltac poke_state := eapply poke_state_frame; [|eassumption]; by intros [].

Lemma remove_state_frame proc s k k' :
  process_remove_from_queue proc s k = Ok k' → state_frame k k'.
Proof.
  unfold process_remove_from_queue. intros H.
  destruct (queue_of_state s) as [q|]; [|injection H as <-; apply state_frame_refl].
  apply bind_inv in H as (k1 & H1 & H).
  apply bind_inv in H as (k2 & H2 & H3).
  assert (F1 : state_frame k k1).
  { destruct (queue_head q k =? proc).
    - apply bind_inv in H1 as (r & _ & H1).
      destruct (queue_head q (set_queue_head q (next r) k) =? 0).
      + injection H1 as <-. apply set_queue_head_state_frame.
      + eapply state_frame_trans; [apply set_queue_head_state_frame|].
        poke_state.
    - apply bind_inv in H1 as (r & _ & H1).
      apply bind_inv in H1 as (k0 & H0 & H1).
      apply bind_inv in H1 as (r0 & _ & H1).
      assert (F0 : state_frame k k0).
      { destruct (prev r =? 0); [injection H0 as <-; apply state_frame_refl|].
        poke_state. }
      eapply state_frame_trans; [exact F0|].
      destruct (next r0 =? 0); [injection H1 as <-; apply state_frame_refl|].
      poke_state. }
  eapply state_frame_trans; [exact F1|].
  eapply state_frame_trans; [poke_state|poke_state].
Qed.

Lemma add_state_frame proc s k k' :
  process_add_to_queue proc s k = Ok k' → state_frame k k'.
Proof.
  unfold process_add_to_queue. intros H.
  destruct (queue_of_state s) as [q|]; [|injection H as <-; apply state_frame_refl].
  apply bind_inv in H as (k1 & H1 & H).
  apply bind_inv in H as (k2 & H2 & H).
  apply bind_inv in H as (k3 & H3 & H). injection H as <-.
  eapply state_frame_trans; [poke_state|].
  eapply state_frame_trans; [poke_state|].
  eapply state_frame_trans; [|apply set_queue_head_state_frame].
  destruct (queue_head q k2 =? 0); [injection H3 as <-; apply state_frame_refl|].
  poke_state.
Qed.

(** X19 ([process_set_state], with [process_remove_from_queue] and
    [process_add_to_queue]).  A state change that returns has refused a
    null record and changed nothing, or has written the new state into
    the record and left every other record in its state; and it writes
    nothing but the [state], [prev] and [next] fields of records and the
    queue heads: the table, the counters, the cursor, the current
    process, the CPU, the allocator log, and the pid, name, priority,
    entry point, stack, heap and saved registers of every record are what
    they were, and no record appears or disappears. *)
Theorem process_set_state_writes_links_only
    (proc : Z) (s : ProcessState) (k k' : Kernel) (e : ErrorCode) :
  process_set_state proc s k = Ok (e, k') →
  (proc = 0 → e = ERR_INVALID_ARG ∧ k' = k) ∧
  (proc ≠ 0 → e = ERR_SUCCESS ∧ state_at (pcbs k') proc = Some s ∧
              ∀ x, x ≠ proc → state_at (pcbs k') x = state_at (pcbs k) x) ∧
  process_table k' = process_table k ∧ process_count k' = process_count k ∧
  next_pid k' = next_pid k ∧ select_last k' = select_last k ∧
  process_get_current k' = process_get_current k ∧ cpu k' = cpu k ∧
  mem_log k' = mem_log k ∧
  (∀ x, live k' x ↔ live k x) ∧
  (∀ x r r', pcbs k !! x = Some r → pcbs k' !! x = Some r' →
     pid r' = pid r ∧ name r' = name r ∧ priority r' = priority r ∧
     entry_point r' = entry_point r ∧
     stack_base r' = stack_base r ∧ stack_size r' = stack_size r ∧
     heap_base r' = heap_base r ∧ heap_size r' = heap_size r ∧
     registers r' = registers r).
Proof.
  intros H. pose proof (process_set_state_queues_only _ _ _ _ _ H) as Hq.
  assert (S : (proc = 0 → e = ERR_INVALID_ARG ∧ k' = k) ∧
              (proc ≠ 0 → e = ERR_SUCCESS ∧ state_at (pcbs k') proc = Some s ∧
                 ∀ x, x ≠ proc → state_at (pcbs k') x = state_at (pcbs k) x)).
  { revert H. unfold process_set_state.
    destruct (Z.eqb_spec proc 0) as [->|Hp]; [by intros [= <- <-]|]. intros H.
    split; [done|]. intros _.
    apply bind_inv in H as (r & _ & H).
    apply bind_inv in H as (k1 & H1 & H).
    apply bind_inv in H as (k2 & H2 & H).
    apply bind_inv in H as (k3 & H3 & H). injection H as <- <-.
    split; [done|].
    assert (F : state_frame k1 k3).
    { eapply state_frame_trans; [by eapply remove_state_frame|by eapply add_state_frame]. }
    apply poke_inv in H1 as (r1 & _ & ->). simpl in F.
    split.
    - rewrite F. simpl. by rewrite state_at_insert, decide_True.
    - intros x Hx. rewrite F. simpl. by rewrite state_at_insert, decide_False. }
  destruct S as [S0 S1].
  pose proof Hq as (H1 & H2 & H3 & H4 & H5 & H6 & H7 & H8).
  split_and!; try done.
  - intros x. by apply queues_only_live.
  - intros x r r' Hr Hr'. specialize (H8 x). rewrite Hr, Hr' in H8. simpl in H8.
    by injection H8 as -> -> -> -> -> -> -> -> ->.
Qed.

Lemma process_set_state_writes_links_only_demo :
  (demo_A = 0 → ERR_SUCCESS = ERR_INVALID_ARG ∧ demo_A_zombie = demo_k3) ∧
  (demo_A ≠ 0 →
     ERR_SUCCESS = ERR_SUCCESS ∧
     state_at (pcbs demo_A_zombie) demo_A = Some PROC_STATE_ZOMBIE ∧
     ∀ x, x ≠ demo_A → state_at (pcbs demo_A_zombie) x = state_at (pcbs demo_k3) x) ∧
  process_table demo_A_zombie = process_table demo_k3 ∧
  process_count demo_A_zombie = process_count demo_k3 ∧
  next_pid demo_A_zombie = next_pid demo_k3 ∧
  select_last demo_A_zombie = select_last demo_k3 ∧
  process_get_current demo_A_zombie = process_get_current demo_k3 ∧
  cpu demo_A_zombie = cpu demo_k3 ∧
  mem_log demo_A_zombie = mem_log demo_k3 ∧
  (∀ x, live demo_A_zombie x ↔ live demo_k3 x) ∧
  (∀ x r r', pcbs demo_k3 !! x = Some r → pcbs demo_A_zombie !! x = Some r' →
     pid r' = pid r ∧ name r' = name r ∧ priority r' = priority r ∧
     entry_point r' = entry_point r ∧
     stack_base r' = stack_base r ∧ stack_size r' = stack_size r ∧
     heap_base r' = heap_base r ∧ heap_size r' = heap_size r ∧
     registers r' = registers r).
Proof.
  apply (process_set_state_writes_links_only demo_A PROC_STATE_ZOMBIE demo_k3
           demo_A_zombie ERR_SUCCESS).
  by vm_compute.
Defined.

(** ** A well-formed kernel stays well formed *)

Lemma wf_ready_members k L x :
  wf k L → is_ready (pcbs k) x → x ∈ L ReadyQ.
Proof.
  intros [_ M]%wf_parts (r & Hr & Hs)%state_at_Some.
  apply (M x r Hr ReadyQ). by rewrite Hs.
Qed.

Lemma wf_members_ready k L x : wf k L → x ∈ L ReadyQ → is_ready (pcbs k) x.
Proof.
  intros [D M]%wf_parts Hx.
  destruct (dseg_elem_live _ _ _ _ _ x (D ReadyQ) Hx) as [_ [r Hr]].
  pose proof (proj1 (M x r Hr ReadyQ) Hx) as Hq.
  unfold is_ready, state_at. rewrite Hr. simpl. f_equal.
  by destruct (state r).
Qed.

(** On a well-formed kernel whose cursor does not dangle, the scheduler
    returns, and what it returns from a non-empty ready queue is a
    member of that queue. *)
Lemma scheduler_select_next_returns k L :
  wf k L → (select_last k = 0 ∨ ∃ q, select_last k ∈ L q) →
  Forall (live k) (occupied (process_table k)) →
  ∃ p k', scheduler_select_next k = Ok (p, k') ∧ (ready_queue k ≠ 0 → p ∈ L ReadyQ).
Proof.
  intros Hwf Hcur Htbl. pose proof Hwf as [D M]%wf_parts.
  pose proof (dseg_chain _ _ _ _ (D ReadyQ)) as Hq. cbn [queue_head] in Hq.
  destruct (decide (ready_queue k = 0)) as [E|Hne].
  { unfold scheduler_select_next. rewrite E. change (0 =? 0) with true. cbv iota.
    destruct (table_find_first (λ r, strcmp_eq (name r) "idle") _ k Htbl) as (x & Hx & _).
    unfold process_find. rewrite Hx, bind_Ok. exists x, k. split; [done|]. by intros []. }
  assert (Hq0 : L ReadyQ ≠ []).
  { intros E. rewrite E in Hq. by apply chain_nil in Hq. }
  assert (∃ x l, chain (pcbs k) (select_last (cursor_set k)) (x :: l)) as (x & l & Hl).
  { unfold cursor_set. destruct (Z.eqb_spec (select_last k) 0) as [E|Hs].
    - cbn [select_last set_select_last]. destruct (L ReadyQ) as [|x l]; [done|]. by eauto.
    - destruct Hcur as [?|[q Hin]]; [done|].
      apply list_elem_of_lookup in Hin as (i & Hi).
      pose proof (dseg_chain _ _ _ _ (D q)) as Hcq.
      destruct (chain_lookup _ _ _ _ _ Hcq Hi) as (_ & Hc & _).
      rewrite (drop_S _ _ _ Hi) in Hc. by eauto. }
  rewrite (select_next_scan k (L ReadyQ) x l Hq Hq0 Hl).
  destruct (first_ready (pcbs k) (l ++ L ReadyQ)) as [y|] eqn:Hy.
  - exists y, (set_select_last y k). split; [done|]. intros _.
    apply first_ready_elem in Hy as [_ Hy]. by eapply wf_ready_members.
  - exfalso. apply first_ready_None in Hy. apply Forall_app in Hy as [_ Hy].
    destruct (L ReadyQ) as [|h t] eqn:EL; [done|].
    apply Forall_cons in Hy as [Hh _]. apply Hh. apply (wf_members_ready k L); [done|].
    rewrite EL. left.
Qed.

(** X20 (the core without [process_switch]).  On a kernel whose three
    queues are doubly-linked lists holding exactly the records whose
    state maps to them, the state-to-queue mapping holds, and each of
    [process_create] (at an address that is no live record),
    [process_set_state] (on a live record), [process_reap_zombies] and
    [scheduler_select_next] (with a cursor that is unset or on a queued
    record, and a table whose slots hold live records) returns without
    fault and leaves such a kernel again; the scheduler returns a member
    of the ready queue whenever that queue is not empty. *)
Theorem well_formed_kernel_is_kept (cfg : Platform) (k : Kernel) (L : Queue → list Z) :
  wf k L →
  queue_consistent k ∧
  (∀ nm prio entry, pcbs k !! pcb_answer cfg k = None →
     ∃ p k', process_create cfg nm prio entry k = Ok (p, k') ∧
       wf k' (if decide (p = 0) then L else enqueue_ready p L) ∧ queue_consistent k') ∧
  (∀ proc s, proc ≠ 0 → live k proc →
     ∃ k', process_set_state proc s k = Ok (ERR_SUCCESS, k') ∧
       wf k' (requeue proc s L) ∧ queue_consistent k') ∧
  (∃ k', process_reap_zombies k = Ok k' ∧ wf k' (drop_zombies L) ∧ queue_consistent k') ∧
  ((select_last k = 0 ∨ ∃ q, select_last k ∈ L q) →
   Forall (live k) (occupied (process_table k)) →
   ∃ p k', scheduler_select_next k = Ok (p, k') ∧ wf k' L ∧ queue_consistent k' ∧
     (ready_queue k ≠ 0 → p ∈ L ReadyQ)).
Proof.
  intros Hwf. split; [by eapply wf_queue_consistent|]. split_and!.
  - intros nm prio entry Hfresh.
    destruct (process_create_wf cfg nm prio entry k L Hwf Hfresh) as (p & k' & Hc & Hwf').
    exists p, k'. split; [done|]. split; [done|]. by eapply wf_queue_consistent.
  - intros proc s Hp Hlive.
    destruct (process_set_state_wf proc s k L Hwf Hp Hlive) as (k' & Hs & Hwf').
    exists k'. split; [done|]. split; [done|]. by eapply wf_queue_consistent.
  - destruct (process_reap_zombies_wf k L Hwf) as (k' & Hr & Hwf').
    exists k'. split; [done|]. split; [done|]. by eapply wf_queue_consistent.
  - intros Hcur Htbl.
    destruct (scheduler_select_next_returns k L Hwf Hcur Htbl) as (p & k' & Hs & Hp).
    pose proof (scheduler_select_next_wf k L p k' Hwf Hs) as Hwf'.
    exists p, k'. split; [done|]. split; [done|]. split; [|done].
    by eapply wf_queue_consistent.
Qed.

Lemma well_formed_kernel_is_kept_demo :
  queue_consistent demo_k3 ∧
  (∀ nm prio entry, pcbs demo_k3 !! pcb_answer demo demo_k3 = None →
     ∃ p k', process_create demo nm prio entry demo_k3 = Ok (p, k') ∧
       wf k' (if decide (p = 0) then demo_queues else enqueue_ready p demo_queues) ∧
       queue_consistent k') ∧
  (∀ proc s, proc ≠ 0 → live demo_k3 proc →
     ∃ k', process_set_state proc s demo_k3 = Ok (ERR_SUCCESS, k') ∧
       wf k' (requeue proc s demo_queues) ∧ queue_consistent k') ∧
  (∃ k', process_reap_zombies demo_k3 = Ok k' ∧ wf k' (drop_zombies demo_queues) ∧
         queue_consistent k') ∧
  ((select_last demo_k3 = 0 ∨ ∃ q, select_last demo_k3 ∈ demo_queues q) →
   Forall (live demo_k3) (occupied (process_table demo_k3)) →
   ∃ p k', scheduler_select_next demo_k3 = Ok (p, k') ∧ wf k' demo_queues ∧
     queue_consistent k' ∧ (ready_queue demo_k3 ≠ 0 → p ∈ demo_queues ReadyQ)).
Proof. apply (well_formed_kernel_is_kept demo demo_k3 demo_queues). by_decide. Defined.
